(** * Docker interception: container replacement and the SOCKS tunnel sidecar

    A shallow embedding of the two TypeScript modules of the Docker
    interceptor:

    - the container replacer ([restartAndInjectContainer], with its env codec
      [envArrayToObject] / [envObjectToArray] and the archive packer
      [packInterceptionFiles]);
    - the tunnel manager of [docker-tunnel-proxy.ts]
      ([ensureDockerTunnelRunning], [updateDockerTunnelledNetworks],
      [getDockerTunnelPort], [stopDockerTunnel]).

    JavaScript strings are modelled as [string], holding the bytes of their
    UTF-8 encoding (the characters the code looks for, '=' and '/', are one
    byte each and part of no other character), plain objects used as
    dictionaries as [gmap string _] (their key order is abstracted: results
    that depend on it are stated up to permutation), objects whose key order
    the code relies on as association lists, [undefined] as [None], and
    exceptions / rejected promises as the [Throw] branch of [result]. *)

From stdpp Require Import base option list strings gmap sets pretty.
From Stdlib Require Import ZArith Ascii Lia.

Local Open Scope Z_scope.

#[local] Set Warnings "-clear-no-such-hyp".

(** ** Errors and results *)

(** A JavaScript [Error]: its message and, for errors raised by the engine
    client, the HTTP status of the failed request. *)
Record JsError := mkJsError {
  message : string;
  statusCode : option Z
}.

(** [new Error(msg)] *)
Definition new_Error (msg : string) : JsError :=
  {| message := msg; statusCode := None |}.

Inductive result (A : Type) : Type :=
  | Ok (a : A)
  | Throw (e : JsError).
Arguments Ok {A} a.
Arguments Throw {A} e.

Definition is_Ok {A} (r : result A) : bool :=
  match r with Ok _ => true | Throw _ => false end.

Global Instance result_ret : MRet result := λ A a, Ok a.
Global Instance result_bind : MBind result := λ A B f r,
  match r with Ok a => f a | Throw e => Throw e end.

(** [Array.prototype.map] with a callback that may throw: the first throwing
    element aborts the whole map. *)
Fixpoint map_throwing {A B} (f : A → result B) (l : list A) : result (list B) :=
  match l with
  | [] => Ok []
  | a :: l' =>
      match f a with
      | Throw e => Throw e
      | Ok b => match map_throwing f l' with
                | Throw e => Throw e
                | Ok bs => Ok (b :: bs)
                end
      end
  end.

(** ** JavaScript string primitives *)

Module JsString.

(** [s.indexOf(c)] for a one-character needle; [-1] when absent. *)
Fixpoint indexOf_from (c : ascii) (s : string) (i : Z) : Z :=
  match s with
  | EmptyString => -1
  | String a s' => if decide (a = c) then i else indexOf_from c s' (i + 1)
  end.

Definition indexOf (s : string) (c : ascii) : Z := indexOf_from c s 0.

(** Index normalisation of [String.prototype.slice]: negative indices count
    from the end, everything is clamped to [0 .. len]. *)
Definition clamp_index (len i : Z) : Z :=
  if i <? 0 then Z.max (len + i) 0 else Z.min i len.

(** [s.slice(b, e)] *)
Definition slice (s : string) (b e : Z) : string :=
  let len := Z.of_nat (String.length s) in
  let from := clamp_index len b in
  let to := clamp_index len e in
  String.substring (Z.to_nat from) (Z.to_nat (to - from)) s.

(** [s.slice(b)] *)
Definition slice_from (s : string) (b : Z) : string :=
  slice s b (Z.of_nat (String.length s)).

(** [s.includes(c)] / membership of a character. *)
Fixpoint contains (c : ascii) (s : string) : bool :=
  match s with
  | EmptyString => false
  | String a s' => if decide (a = c) then true else contains c s'
  end.

End JsString.

(** ** Env codec *)

Module EnvCodec.
Import JsString.

Definition env_entry (e : string) : result (string * string) :=
  let equalsIndex := indexOf e "=" in
  if decide (equalsIndex = -1) then Throw (new_Error "Env var without =")
  else Ok (slice e 0 equalsIndex, slice_from e (equalsIndex + 1)).

(** [result[key] = value] on a plain object holding strings.  The key
    "__proto__" is not stored: the assignment reaches the setter that
    [Object.prototype] has under that name, which ignores a value that is
    neither an object nor [null]. *)
Definition assign (result : gmap string string) (key value : string)
  : gmap string string :=
  if decide (key = "__proto__") then result else <[key := value]> result.

(** [_.fromPairs]: assign [result[key] = value] pair after pair to a fresh
    object, so a later pair overwrites an earlier one with the same key. *)
Definition fromPairs (pairs : list (string * string)) : gmap string string :=
  foldl (λ result pair, assign result pair.1 pair.2) ∅ pairs.

Definition envArrayToObject (envArray : list string) : result (gmap string string) :=
  pairs ← map_throwing env_entry envArray; Ok (fromPairs pairs).

(** The pairs that [_.fromPairs] keeps a property for. *)
Definition stored (pairs : list (string * string)) : list (string * string) :=
  filter (λ pair, pair.1 ≠ "__proto__") pairs.

(** [Object.keys(o)] of a dictionary, in the map's iteration order. *)
Definition Object_keys {V} (o : gmap string V) : list string := (map_to_list o).*1.

(** [`${k}=${envObject[k]}`]; a missing property renders as "undefined".
    The keys this is called with are own properties of [envObject], read as
    they are (an own property called "__proto__" included). *)
Definition env_line (envObject : gmap string string) (k : string) : string :=
  k +:+ "=" +:+ default "undefined" (envObject !! k).

Definition envObjectToArray (envObject : gmap string string) : list string :=
  env_line envObject <$> Object_keys envObject.

(** The key of an entry: everything before its first '='. *)
Definition entry_key (e : string) : string := slice e 0 (indexOf e "=").

End EnvCodec.

(** ** JavaScript numbers as far as the code needs them *)

(** The only numbers the code computes are results of [parseInt]: [NaN], an
    infinity, the zero with a minus sign, or a double whose value is the
    integer [z]. *)
Inductive number :=
  | NaN
  | Infinity (negative : bool)
  | NegZero
  | Int (z : Z).

Module JsNumber.

(** Value of a digit character in [parseInt]: 0-9, then a-z / A-Z for 10-35. *)
Definition digit_value (c : ascii) : option Z :=
  let n := Z.of_nat (nat_of_ascii c) in
  if (48 <=? n) && (n <=? 57) then Some (n - 48)
  else if (97 <=? n) && (n <=? 122) then Some (n - 87)
  else if (65 <=? n) && (n <=? 90) then Some (n - 55)
  else None.

(** The code points that [parseInt] skips at the start of its argument
    ([StrWhiteSpaceChar]): tab, line feed, vertical tab, form feed, carriage
    return, space, no-break space, the other space separators (U+1680,
    U+2000 to U+200A, U+202F, U+205F, U+3000), the line and paragraph
    separators (U+2028, U+2029) and the byte order mark (U+FEFF). *)
Definition is_white_space (codePoint : Z) : bool :=
  bool_decide (codePoint ∈ [9; 10; 11; 12; 13; 32; 160; 5760; 8232; 8233; 8239;
                            8287; 12288; 65279])
  || ((8192 <=? codePoint) && (codePoint <=? 8202)).

(** A [string] holds the bytes of the UTF-8 encoding of the JavaScript
    string.  The code point that one, two or three bytes encode, if they are
    the encoding of one (no white space needs four bytes). *)
Definition byte_value (c : ascii) : Z := Z.of_nat (nat_of_ascii c).

Definition is_continuation (c : ascii) : bool :=
  (128 <=? byte_value c) && (byte_value c <? 192).

Definition code_point_1 (a : ascii) : option Z :=
  if byte_value a <? 128 then Some (byte_value a) else None.

Definition code_point_2 (a b : ascii) : option Z :=
  let codePoint := (byte_value a - 192) * 64 + (byte_value b - 128) in
  if (192 <=? byte_value a) && (byte_value a <? 224) && is_continuation b
     && (128 <=? codePoint)
  then Some codePoint else None.

Definition code_point_3 (a b c : ascii) : option Z :=
  let codePoint :=
    (byte_value a - 224) * 4096 + (byte_value b - 128) * 64 + (byte_value c - 128) in
  if (224 <=? byte_value a) && (byte_value a <? 240)
     && is_continuation b && is_continuation c && (2048 <=? codePoint)
  then Some codePoint else None.

Definition white (codePoint : option Z) : bool :=
  match codePoint with
  | Some codePoint => is_white_space codePoint
  | None => false
  end.

(** The argument of [parseInt] without its leading white space. *)
Fixpoint skip_white_space (s : string) : string :=
  match s with
  | String a s1 =>
      if white (code_point_1 a) then skip_white_space s1
      else
        match s1 with
        | String b s2 =>
            if white (code_point_2 a b) then skip_white_space s2
            else
              match s2 with
              | String c s3 =>
                  if white (code_point_3 a b c) then skip_white_space s3 else s
              | EmptyString => s
              end
        | EmptyString => s
        end
  | EmptyString => s
  end.

(** The integer that the longest prefix of digits valid in [radix] denotes,
    accumulated most significant digit first; [None] when there is no such
    digit. *)
Fixpoint parse_digits (radix : Z) (s : string) (acc : option Z) : option Z :=
  match s with
  | EmptyString => acc
  | String c s' =>
      match digit_value c with
      | Some d =>
          if d <? radix
          then parse_digits radix s' (Some (radix * default 0 acc + d))
          else acc
      | None => acc
      end
  end.

(** The double nearest to a positive integer, ties going to the even
    mantissa: an integer of at most 53 bits is a double; a longer one keeps
    its 53 leading bits, rounded; from [2^1024 - 2^970] on the result is
    [Infinity]. *)
Definition to_double (z : Z) : number :=
  let bits := Z.log2 z + 1 in
  if bits <=? 53 then Int z
  else
    let dropped := bits - 53 in
    let mantissa := Z.shiftr z dropped in
    let remainder := Z.land z (Z.ones dropped) in
    let half := Z.shiftl 1 (dropped - 1) in
    let mantissa :=
      if (half <? remainder) || ((remainder =? half) && Z.odd mantissa)
      then mantissa + 1 else mantissa in
    let rounded := Z.shiftl mantissa dropped in
    if Z.shiftl 1 1024 <=? rounded then Infinity false else Int rounded.

Definition with_sign (negative : bool) (n : number) : number :=
  match n with
  | Int z => if negative then Int (- z) else Int z
  | Infinity _ => Infinity negative
  | n => n
  end.

(** The sign that [parseInt] reads after the white space, and what follows
    it. *)
Definition is_negative (text : string) : bool :=
  match text with String "-" _ => true | _ => false end.

Definition without_sign (text : string) : string :=
  match text with
  | String "-" rest | String "+" rest => rest
  | _ => text
  end.

(** [parseInt(s, radix)] for an explicit radix between 2 and 36 other than
    16 (the code passes 10 and 8): white space is skipped, a sign is read,
    then the digits; no digit gives [NaN], zero keeps the sign, and any
    other value is the nearest double, as V8 computes it in radix 10 and in
    the radices that are powers of two. *)
Definition parseInt (s : string) (radix : Z) : number :=
  let text := skip_white_space s in
  match parse_digits radix (without_sign text) None with
  | None => NaN
  | Some mathInt =>
      if decide (mathInt = 0) then (if is_negative text then NegZero else Int 0)
      else with_sign (is_negative text) (to_double mathInt)
  end.

End JsNumber.

(** ** POSIX paths ([path.posix]) *)

Module Posix.

(** [path.split('/')] *)
Fixpoint split (path : string) : list string :=
  match path with
  | EmptyString => [""]
  | String c rest =>
      if decide (c = "/"%char) then "" :: split rest
      else match split rest with
           | seg :: segs => String c seg :: segs
           | [] => [String c ""]
           end
  end.

(** [segments.join('/')] *)
Fixpoint join_segments (segments : list string) : string :=
  match segments with
  | [] => ""
  | [seg] => seg
  | seg :: rest => seg +:+ "/" +:+ join_segments rest
  end.

(** Node's [normalizeString]: drop empty and "." segments, let ".." cancel
    the segment before it; above the root ".." is kept only for relative
    paths.  [acc] holds the segments kept so far, last one first. *)
Fixpoint normalize_segments (allowAboveRoot : bool) (segments acc : list string)
  : list string :=
  match segments with
  | [] => reverse acc
  | seg :: rest =>
      if decide (seg = "" ∨ seg = ".") then normalize_segments allowAboveRoot rest acc
      else if decide (seg = "..") then
        match acc with
        | top :: acc' =>
            if decide (top = "..")
            then normalize_segments allowAboveRoot rest (".." :: acc)
            else normalize_segments allowAboveRoot rest acc'
        | [] =>
            if allowAboveRoot
            then normalize_segments allowAboveRoot rest [".."]
            else normalize_segments allowAboveRoot rest []
        end
      else normalize_segments allowAboveRoot rest (seg :: acc)
  end.

Definition starts_with_slash (path : string) : bool :=
  match path with
  | String c _ => bool_decide (c = "/"%char)
  | EmptyString => false
  end.

Fixpoint ends_with_slash (path : string) : bool :=
  match path with
  | EmptyString => false
  | String c EmptyString => bool_decide (c = "/"%char)
  | String _ rest => ends_with_slash rest
  end.

(** [path.posix.normalize] *)
Definition normalize (path : string) : string :=
  if decide (path = "") then "."
  else
    let isAbsolute := starts_with_slash path in
    let trailingSeparator := ends_with_slash path in
    let p := join_segments (normalize_segments (negb isAbsolute) (split path) []) in
    if decide (p = "") then
      if isAbsolute then "/" else if trailingSeparator then "./" else "."
    else
      let p := if trailingSeparator then p +:+ "/" else p in
      if isAbsolute then "/" +:+ p else p.

(** [path.posix.join(a, b)]: empty arguments are skipped, the rest is
    joined with "/" and normalised. *)
Definition join (a b : string) : string :=
  let joined :=
    match a, b with
    | EmptyString, EmptyString => None
    | EmptyString, _ => Some b
    | _, EmptyString => Some a
    | _, _ => Some (a +:+ "/" +:+ b)
    end in
  match joined with
  | None => "."
  | Some j => normalize j
  end.

End Posix.

Definition HTTP_TOOLKIT_INJECTED_PATH : string := "/http-toolkit-injections".
Definition HTTP_TOOLKIT_INJECTED_OVERRIDES_PATH : string :=
  Posix.join HTTP_TOOLKIT_INJECTED_PATH "overrides".
Definition HTTP_TOOLKIT_INJECTED_CA_PATH : string :=
  Posix.join HTTP_TOOLKIT_INJECTED_PATH "ca.pem".

(** ** Archive packer *)

Module Archive.

Inductive EntryType := File | Directory | Symlink.

(** A tar header as the code sees it; a field the caller left out is
    [None]. *)
Record Header := mkHeader {
  name : string;
  mode : option number;
  uid : option Z;
  gid : option Z;
  type : option EntryType
}.

(** The pack stream: the entries written to it so far, and whether it has
    been finalized. *)
Record Pack := mkPack {
  entries : list (Header * string);
  finalized : bool
}.

Definition empty_pack : Pack := {| entries := []; finalized := false |}.

(** [pack.entry(header, content)]; tar-stream drops an entry written after
    [finalize()]. *)
Definition entry (header : Header) (content : string) (pack : Pack) : Pack :=
  if finalized pack then pack
  else {| entries := entries pack ++ [(header, content)]; finalized := false |}.

(** [pack.finalize()] *)
Definition finalize (pack : Pack) : Pack :=
  {| entries := entries pack; finalized := true |}.

Record PackOptions := {
  opt_map : Header → Header;
  opt_finalize : bool;
  opt_finish : Pack → Pack
}.

(** [tarFs.pack(dir, opts)], as tar-fs documents it.  [listing] is what
    walking [dir] yields: for the directory itself (named ".") and for every
    file, directory and symlink below it, the header built from its [stat]
    with its path relative to [dir] as [name], and its content.  Each header
    is passed through [opts.map] and written; when the walk is over the pack
    is finalized unless [opts.finalize] is [false], and then [opts.finish]
    is called with it. *)
Definition tarFs_pack (listing : list (Header * string)) (opts : PackOptions) : Pack :=
  let pack :=
    foldl (λ pack fileEntry, entry (opt_map opts fileEntry.1) fileEntry.2 pack)
          empty_pack listing in
  let pack := if opt_finalize opts then finalize pack else pack in
  opt_finish opts pack.

Definition map_header (fileHeader : Header) : Header :=
  {| name := Posix.join HTTP_TOOLKIT_INJECTED_OVERRIDES_PATH (name fileHeader);
     (* Owned by root by default *)
     uid := Some 0;
     gid := Some 0;
     (* But ensure everything is globally readable & runnable *)
     mode := Some (JsNumber.parseInt "555" 8);
     type := type fileHeader |}.

(** [{ name: HTTP_TOOLKIT_INJECTED_CA_PATH }], the header of the certificate
    entry. *)
Definition ca_header : Header :=
  {| name := HTTP_TOOLKIT_INJECTED_CA_PATH;
     mode := None; uid := None; gid := None; type := None |}.

(** [packInterceptionFiles(certContent)]; [overrides] is the listing of
    [OVERRIDES_DIR]. *)
Definition packInterceptionFiles (overrides : list (Header * string))
    (certContent : string) : Pack :=
  tarFs_pack overrides
    {| opt_map := map_header;
       opt_finalize := false;
       opt_finish := λ pack,
         let pack :=
           entry {| name := HTTP_TOOLKIT_INJECTED_CA_PATH;
                    mode := None; uid := None; gid := None; type := None |}
                 certContent pack in
         finalize pack |}.

(** A path that a directory walk produces: "." for the directory itself, or
    file names joined with "/", where a file name is neither empty nor "."
    nor "..". *)
Definition is_file_name (seg : string) : bool :=
  bool_decide (seg ≠ "" ∧ seg ≠ "." ∧ seg ≠ "..").

Definition is_walk_path (path : string) : bool :=
  bool_decide (path = ".") || forallb is_file_name (Posix.split path).

(** Unix permission masks. *)
Definition S_IWUGO : Z := 146 (* 0o222 *).
Definition S_IRXUGO : Z := 365 (* 0o555 *).

End Archive.

(** ** The container engine as seen through the client *)

Module Docker.

(** [NetworkSettings.Networks[name]]: the endpoint of one attached network. *)
Record EndpointSettings := {
  NetworkID : string;
  IPAddress : string;
  Aliases : list string
}.

(** An element of [NetworkSettings.Ports[port]]. *)
Record PortMapping := {
  HostIp : string;
  HostPort : string
}.

(** An element of [HostConfig.PortBindings[port]] in a creation request;
    the host port may be left to the engine. *)
Record PortBindingRequest := {
  req_HostIp : string;
  req_HostPort : option string
}.

Record HostConfig := {
  Binds : option (list string);
  AutoRemove : bool;
  ExtraHosts : option (list string);
  PortBindings : list (string * list PortBindingRequest)
}.

Record ContainerConfig := {
  Image : string;
  Env : list string;
  Labels : list (string * string)
}.

(** The result of [container.inspect()].  [Networks] lists
    [NetworkSettings.Networks] in the order [Object.keys] enumerates it. *)
Record ContainerInspectInfo := {
  Id : string;
  Name : string;
  Running : bool;                                   (* State.Running *)
  Config : ContainerConfig;
  Host : HostConfig;                                (* HostConfig *)
  Networks : list (string * EndpointSettings);      (* NetworkSettings.Networks *)
  Ports : gmap string (list PortMapping)            (* NetworkSettings.Ports *)
}.

(** An element of [listNetworks()].  [Gateways] is [IPAM?.Config] reduced to
    the [Gateway] field of its elements; [None] when [IPAM] or [Config] is
    missing. *)
Record NetworkInspectInfo := {
  net_Id : string;
  Gateways : option (list (option string))
}.

(** An element of [listContainers()]. *)
Record ContainerInfo := {
  info_Id : string
}.

(** The options of [createContainer]: the fields taken from a [Config]
    ([Image], [Env], [Labels]), [name], [HostConfig] and
    [NetworkingConfig.EndpointsConfig] ([None] when left out). *)
Record ContainerCreateOptions := {
  create_Config : ContainerConfig;
  create_name : string;
  create_HostConfig : HostConfig;
  create_EndpointsConfig : option (list (string * EndpointSettings))
}.

(** Filters of the list calls, before [JSON.stringify]. *)
Definition Filters := list (string * list string).

(** The requests the code sends to the engine. *)
Inductive Cmd :=
  | ImageInspect (image : string)
  | Pull (image : string)
  | Version
  | ListNetworks (filters : Filters)
  | ListContainers (all : bool) (filters : Filters)
  | ContainerInspect (id : string)
  | CreateContainer (options : ContainerCreateOptions)
  | ContainerStart (id : string)
  | ContainerStop (id : string) (t : Z)
  | ContainerRemove (id : string)
  | ContainerKill (id : string)
  | PutArchive (id : string) (archive : Archive.Pack) (path : string)
  | NetworkConnect (network : option string) (container : string)
                   (endpointConfig : option EndpointSettings)
  | NetworkDisconnect (network : string) (container : string).

(** What a fulfilled request resolves to. *)
Definition resp (c : Cmd) : Type :=
  match c with
  | Version => string
  | ListNetworks _ => list NetworkInspectInfo
  | ListContainers _ _ => list ContainerInfo
  | ContainerInspect _ => ContainerInspectInfo
  | CreateContainer _ => string
  | _ => unit
  end.

(** An engine: any state machine answering the requests, each answer a
    value or an error.  A request is handled when it is sent.  When the
    client waits for several answers at once the engine (with the network)
    also decides which of them comes in first: [arrival s pending] picks
    one of the [pending] answers, counted modulo [pending]. *)
Class Engine := {
  State : Type;
  step : State → ∀ c : Cmd, State * result (resp c);
  arrival : State → nat → nat
}.

End Docker.

(** ** Asynchronous programs over the engine *)

Module Async.
Import Docker.

Inductive Event :=
  | EvCall (c : Cmd) (r : result (resp c))
  | EvAcquire       (* the container mutex is taken *)
  | EvRelease.      (* ... and released *)

(** An [async] function body: it returns, throws, awaits an engine request,
    takes or releases the mutex, starts a promise that nobody awaits, or
    waits for the first of several pending answers to come in. *)
Inductive Prog (A : Type) : Type :=
  | Ret (a : A)
  | Fail (e : JsError)
  | Call (c : Cmd) (k : result (resp c) → Prog A)
  | Mutex (acquire : bool) (k : Prog A)
  | Detach (task : Prog unit) (k : Prog A)
  | Arrive (pending : nat) (k : nat → Prog A).
Arguments Ret {A} a.
Arguments Fail {A} e.
Arguments Call {A} c k.
Arguments Mutex {A} acquire k.
Arguments Detach {A} task k.
Arguments Arrive {A} pending k.

Fixpoint bind {A B} (p : Prog A) (f : A → Prog B) : Prog B :=
  match p with
  | Ret a => f a
  | Fail e => Fail e
  | Call c k => Call c (λ r, bind (k r) f)
  | Mutex b k => Mutex b (bind k f)
  | Detach t k => Detach t (bind k f)
  | Arrive n k => Arrive n (λ i, bind (k i) f)
  end.

Global Instance Prog_ret : MRet Prog := λ A a, Ret a.
Global Instance Prog_bind : MBind Prog := λ A B f p, bind p f.

(** [p.then(v => ok(v), e => handler(e))] / [try { p } catch (e) { ... }] *)
Fixpoint settle {A B} (p : Prog A) (k : result A → Prog B) : Prog B :=
  match p with
  | Ret a => k (Ok a)
  | Fail e => k (Throw e)
  | Call c k' => Call c (λ r, settle (k' r) k)
  | Mutex b k' => Mutex b (settle k' k)
  | Detach t k' => Detach t (settle k' k)
  | Arrive n k' => Arrive n (λ i, settle (k' i) k)
  end.

(** [await request] *)
Definition call (c : Cmd) : Prog (resp c) :=
  Call c (λ r, match r with Ok v => Ret v | Throw e => Fail e end).

(** [await request], for a request whose value is not used *)
Definition request (c : Cmd) : Prog unit :=
  Call c (λ r, match r with Ok _ => Ret tt | Throw e => Fail e end).

(** A request whose outcome is kept instead of awaited-and-thrown: the
    building block of [.catch(...)] and of promises awaited later. *)
Definition try_call (c : Cmd) : Prog (result (resp c)) := Call c Ret.

(** Resuming from a synchronous computation that may throw, or from a
    settled promise. *)
Definition of_result {A} (r : result A) : Prog A :=
  match r with Ok a => Ret a | Throw e => Fail e end.

(** *** [Promise.all]

    The promises handed to [Promise.all] come from calls of async
    functions: each call runs its function up to the first [await] before
    the next call is made, so the first requests go out in list order.
    After that the tasks wait side by side; a task goes on when the answer
    it waits for comes in, up to its next [await], and which answer comes in
    first is the engine's choice. *)

(** What a set of started tasks does from some point on. *)
Inductive Pool (A : Type) : Type :=
  | Idle                                              (* every task has settled *)
  | Waiting (pending : nat) (deliver : nat → Pool A)  (* all wait; the i-th answer comes in *)
  | Sends (c : Cmd) (k : result (resp c) → Pool A)    (* the running task sends and awaits *)
  | Settles (r : result A) (rest : Pool A)            (* the running task settles *)
  | Locks (acquire : bool) (rest : Pool A)
  | Spawns (task : Prog unit) (rest : Pool A)
  | Nests (pending : nat) (k : nat → Pool A).
Arguments Idle {A}.
Arguments Waiting {A} pending deliver.
Arguments Sends {A} c k.
Arguments Settles {A} r rest.
Arguments Locks {A} acquire rest.
Arguments Spawns {A} task rest.
Arguments Nests {A} pending k.

(** [join resume pool]: one more task waits for an answer while [pool]
    proceeds; when its answer comes in, with the others waiting as
    [waiting], it goes on as [resume waiting]. *)
Fixpoint join {A} (resume : Pool A → Pool A) (pool : Pool A) : Pool A :=
  match pool with
  | Idle => Waiting 1 (λ _, resume Idle)
  | Waiting pending deliver =>
      Waiting (S pending) (λ i,
        match i with
        | O => resume pool
        | S i' => join resume (deliver i')
        end)
  | Sends c k => Sends c (λ r, join resume (k r))
  | Settles r rest => Settles r (join resume rest)
  | Locks b rest => Locks b (join resume rest)
  | Spawns t rest => Spawns t (join resume rest)
  | Nests n k => Nests n (λ i, join resume (k i))
  end.

(** [advance task waiting]: the answer that [task] waited for has come in;
    it runs up to its next [await] (or to its end) while the others wait.
    (A task that itself waits for several promises at once is run without
    the others stepping in; the code has no such task.) *)
Fixpoint advance {A} (task : Prog A) (waiting : Pool A) : Pool A :=
  match task with
  | Ret a => Settles (Ok a) waiting
  | Fail e => Settles (Throw e) waiting
  | Call c k => Sends c (λ r, join (advance (k r)) waiting)
  | Mutex b k => Locks b (advance k waiting)
  | Detach t k => Spawns t (advance k waiting)
  | Arrive n k => Nests n (λ i, advance (k i) waiting)
  end.

(** [start task later]: the async function is called; it runs up to its
    first [await], then the calls that make up [later] are made.  A
    function that ends without awaiting anything returns a settled promise,
    which is noticed like an answer that comes in. *)
Fixpoint start {A} (task : Prog A) (later : Pool A) : Pool A :=
  match task with
  | Ret a => join (Settles (Ok a)) later
  | Fail e => join (Settles (Throw e)) later
  | Call c k => Sends c (λ r, join (advance (k r)) later)
  | Mutex b k => Locks b (start k later)
  | Detach t k => Spawns t (start k later)
  | Arrive n k => Nests n (λ i, start (k i) later)
  end.

(** [tasks.map(async ...)]: the tasks are started one after the other. *)
Fixpoint started {A} (tasks : list (Prog A)) : Pool A :=
  match tasks with
  | [] => Idle
  | task :: rest => start task (started rest)
  end.

(** What is left of the tasks once [Promise.all] has rejected: they go on,
    and nobody looks at how they settle. *)
Fixpoint drain {A} (pool : Pool A) : Prog unit :=
  match pool with
  | Idle => Ret tt
  | Waiting pending deliver => Arrive pending (λ i, drain (deliver (i mod pending)%nat))
  | Sends c k => Call c (λ r, drain (k r))
  | Settles _ rest => drain rest
  | Locks b rest => Mutex b (drain rest)
  | Spawns t rest => Detach t (drain rest)
  | Nests n k => Arrive n (λ i, drain (k i))
  end.

(** Awaiting [Promise.all]: it fulfils when every task has, and rejects as
    soon as one task does, with that task's error; the other tasks are not
    stopped. *)
Fixpoint all_settled {A} (pool : Pool A) : Prog unit :=
  match pool with
  | Idle => Ret tt
  | Waiting pending deliver =>
      Arrive pending (λ i, all_settled (deliver (i mod pending)%nat))
  | Sends c k => Call c (λ r, all_settled (k r))
  | Settles (Ok _) rest => all_settled rest
  | Settles (Throw e) rest => Detach (drain rest) (Fail e)
  | Locks b rest => Mutex b (all_settled rest)
  | Spawns t rest => Detach t (all_settled rest)
  | Nests n k => Arrive n (λ i, all_settled (k i))
  end.

(** [await Promise.all(tasks)], for tasks whose values are not used. *)
Definition Promise_all {A} (tasks : list (Prog A)) : Prog unit :=
  all_settled (started tasks).

(** [containerMutex.runExclusive(body)]: the mutex is released whether the
    body returns or throws.  Programs run one at a time here, so the mutex
    is always free when asked for. *)
Definition runExclusive {A} (body : Prog A) : Prog A :=
  Mutex true (settle body (λ r, Mutex false (of_result r))).

(** The outcome of running a program up to the point where its promise
    settles: the engine state, what happened in order, the settled value,
    and the promises started but not awaited, still to run. *)
Record Outcome `{Engine} (A : Type) := mkOutcome {
  state : State;
  events : list Event;
  settled : result A;
  detached : list (Prog unit)
}.
Arguments mkOutcome {_ A}.
Arguments state {_ A}.
Arguments events {_ A}.
Arguments settled {_ A}.
Arguments detached {_ A}.

Definition after `{Engine} {A} (ev : Event) (o : Outcome A) : Outcome A :=
  mkOutcome (state o) (ev :: events o) (settled o) (detached o).

Definition spawning `{Engine} {A} (task : Prog unit) (o : Outcome A) : Outcome A :=
  mkOutcome (state o) (events o) (settled o) (task :: detached o).

Fixpoint run `{Engine} {A} (p : Prog A) (s : State) : Outcome A :=
  match p with
  | Ret a => mkOutcome s [] (Ok a) []
  | Fail e => mkOutcome s [] (Throw e) []
  | Call c k => let sr := step s c in after (EvCall c sr.2) (run (k sr.2) sr.1)
  | Mutex true k => after EvAcquire (run k s)
  | Mutex false k => after EvRelease (run k s)
  | Detach task k => spawning task (run k s)
  | Arrive pending k => run (k (arrival s pending)) s
  end.

(** Running [k] on what [o] settled to, when it did not throw. *)
Definition and_then `{Engine} {A B} (o : Outcome A) (k : A → State → Outcome B)
  : Outcome B :=
  match settled o with
  | Ok a =>
      let o' := k a (state o) in
      mkOutcome (state o') (events o ++ events o') (settled o') (detached o ++ detached o')
  | Throw e => mkOutcome (state o) (events o) (Throw e) (detached o)
  end.

(** Running [k] on what [o] settled to, whatever it is. *)
Definition and_finally `{Engine} {A B} (o : Outcome A) (k : result A → State → Outcome B)
  : Outcome B :=
  let o' := k (settled o) (state o) in
  mkOutcome (state o') (events o ++ events o') (settled o') (detached o ++ detached o').

(** The trace of requests sent one after the other, and the state they
    leave. *)
Fixpoint answers `{Engine} (s : State) (cmds : list Cmd) : list Event :=
  match cmds with
  | [] => []
  | c :: cmds' => EvCall c (step s c).2 :: answers (step s c).1 cmds'
  end.

Definition after_all `{Engine} (s : State) (cmds : list Cmd) : State :=
  foldl (λ s c, (step s c).1) s cmds.

(** How an awaited request whose value is not used ends. *)
Definition forget {A} (r : result A) : result unit :=
  match r with Ok _ => Ok tt | Throw e => Throw e end.

(** *** Describing the tasks of a pool

    A task that waits for an answer, sends the requests of [todo] one after
    the other whatever they answer, and then settles as [final]:
    [implements resume todo final] says that [resume] is how it goes on
    when its answer comes in. *)
Fixpoint implements (resume : Pool unit → Pool unit) (todo : list Cmd)
    (final : result unit) : Prop :=
  match todo with
  | [] => ∀ waiting, resume waiting = Settles final waiting
  | c :: todo' =>
      ∀ waiting, ∃ k,
        resume waiting = Sends c k
        ∧ ∀ r, ∃ resume', k r = join resume' waiting ∧ implements resume' todo' final
  end.

(** A pool in which every task waits, [tasks] listing for each of them (in
    any order) what it still sends and how it settles.  [fuel] bounds the
    number of answers still to come. *)
Fixpoint resting (fuel : nat) (tasks : list (list Cmd * result unit))
    (pool : Pool unit) : Prop :=
  match tasks, fuel with
  | [], _ => pool = Idle
  | _ :: _, O => False
  | _ :: _, S fuel' =>
      ∃ deliver,
        pool = Waiting (length tasks) deliver
        ∧ ∀ i, (i < length tasks)%nat →
            ∃ task others,
              tasks ≡ₚ task :: others
              ∧ match task.1 with
                | [] =>
                    ∃ rest, deliver i = Settles task.2 rest ∧ resting fuel' others rest
                | c :: todo =>
                    ∃ k, deliver i = Sends c k
                         ∧ ∀ r, resting fuel' ((todo, task.2) :: others) (k r)
                end
  end.

Definition Resting (tasks : list (list Cmd * result unit)) (pool : Pool unit) : Prop :=
  ∃ fuel, resting fuel tasks pool.

(** *** Reading a trace *)

(** A trace made of one event per request of [cmds], in order. *)
Definition events_of (evs : list Event) (cmds : list Cmd) : Prop :=
  Forall2 (λ ev c, ∃ r, ev = EvCall c r) evs cmds.


(** The requests of a trace, in order. *)
Definition calls (evs : list Event) : list Cmd :=
  omap (λ ev, match ev with EvCall c _ => Some c | _ => None end) evs.

(** The requests that failed, each with its error. *)
Definition failures (evs : list Event) : list (Cmd * JsError) :=
  omap (λ ev, match ev with EvCall c (Throw e) => Some (c, e) | _ => None end) evs.

(** The snapshots that [inspect] requests returned. *)
Definition snapshot_of (ev : Event) : option (string * ContainerInspectInfo) :=
  match ev with
  | EvCall c r =>
      match c return result (resp c) → option (string * ContainerInspectInfo) with
      | ContainerInspect id =>
          λ r, match r with Ok details => Some (id, details) | Throw _ => None end
      | _ => λ _, None
      end r
  | _ => None
  end.
Definition snapshots (evs : list Event) : list (string * ContainerInspectInfo) :=
  omap snapshot_of evs.

(** The ids of the containers that creation requests returned. *)
Definition creation_of (ev : Event) : option (ContainerCreateOptions * string) :=
  match ev with
  | EvCall c r =>
      match c return result (resp c) → option (ContainerCreateOptions * string) with
      | CreateContainer options =>
          λ r, match r with Ok id => Some (options, id) | Throw _ => None end
      | _ => λ _, None
      end r
  | _ => None
  end.
Definition creations (evs : list Event) : list (ContainerCreateOptions * string) :=
  omap creation_of evs.

(** What follows the last acquisition of the mutex, if there is one. *)
Fixpoint since_last_acquire (evs : list Event) : option (list Event) :=
  match evs with
  | [] => None
  | EvAcquire :: rest =>
      match since_last_acquire rest with
      | Some tail => Some tail
      | None => Some rest
      end
  | _ :: rest => since_last_acquire rest
  end.

(** The snapshot read right after the last acquisition of the mutex. *)
Definition locked_snapshot (evs : list Event) : option ContainerInspectInfo :=
  match since_last_acquire evs with
  | Some (ev :: _) => snd <$> snapshot_of ev
  | _ => None
  end.

Definition is_create (c : Cmd) : bool :=
  match c with CreateContainer _ => true | _ => false end.
Definition is_start (c : Cmd) : bool :=
  match c with ContainerStart _ => true | _ => false end.
Definition is_remove (c : Cmd) : bool :=
  match c with ContainerRemove _ => true | _ => false end.
Definition is_connect (c : Cmd) : bool :=
  match c with NetworkConnect _ _ _ => true | _ => false end.

Global Arguments calls : simpl never.
Global Arguments failures : simpl never.
Global Arguments snapshots : simpl never.
Global Arguments creations : simpl never.

Definition connected (cs : list Cmd) : list (option string) :=
  omap (λ c, match c with NetworkConnect network _ _ => Some network | _ => None end) cs.
Definition disconnected (cs : list Cmd) : list string :=
  omap (λ c, match c with NetworkDisconnect network _ => Some network | _ => None end) cs.

Definition is_inspect (c : Cmd) : bool :=
  match c with ImageInspect _ | ContainerInspect _ => true | _ => false end.
Definition is_disconnect (c : Cmd) : bool :=
  match c with NetworkDisconnect _ _ => true | _ => false end.

(** The versions that [version] requests returned. *)
Definition version_of (ev : Event) : option string :=
  match ev with
  | EvCall c r =>
      match c return result (resp c) → option string with
      | Version => λ r, match r with Ok version => Some version | Throw _ => None end
      | _ => λ _, None
      end r
  | _ => None
  end.
Definition versions (evs : list Event) : list string := omap version_of evs.

(** The networks that [listNetworks] requests returned. *)
Definition listing_of (ev : Event) : option (list NetworkInspectInfo) :=
  match ev with
  | EvCall c r =>
      match c return result (resp c) → option (list NetworkInspectInfo) with
      | ListNetworks _ =>
          λ r, match r with Ok networks => Some networks | Throw _ => None end
      | _ => λ _, None
      end r
  | _ => None
  end.
Definition listings (evs : list Event) : list (list NetworkInspectInfo) :=
  omap listing_of evs.

End Async.

(** ** What the tunnel manager expects of the engine *)

Module EngineLaws.
Import Docker.

(** Requests that only read the engine's state. *)
Definition reads (c : Cmd) : bool :=
  match c with
  | ImageInspect _ | ContainerInspect _ | Version | ListNetworks _
  | ListContainers _ _ => true
  | _ => false
  end.

Definition creates_or_starts (c : Cmd) : bool :=
  match c with
  | CreateContainer _ | ContainerStart _ => true
  | _ => false
  end.

(** The behaviour of a real engine that [ensureDockerTunnelRunning] relies
    on, as long as nobody else changes the engine in between. *)
Record WellBehaved `{Engine} : Prop := {
  (** reading does not change what reading reports *)
  reads_frame : ∀ s c c',
    reads c = true → reads c' = true →
    (step (step s c).1 c').2 = (step s c').2;
  (** an image that was pulled is there *)
  pull_installs : ∀ s image,
    is_Ok (step s (Pull image)).2 = true →
    is_Ok (step (step s (Pull image)).1 (ImageInspect image)).2 = true;
  (** pulling an image leaves the containers alone *)
  pull_frame : ∀ s image id,
    (step (step s (Pull image)).1 (ContainerInspect id)).2
    = (step s (ContainerInspect id)).2;
  (** creating or starting a container leaves the images alone *)
  image_kept : ∀ s c image,
    creates_or_starts c = true →
    is_Ok (step s (ImageInspect image)).2 = true →
    is_Ok (step (step s c).1 (ImageInspect image)).2 = true;
  (** a container that was started is running *)
  start_runs : ∀ s name container,
    (step s (ContainerInspect name)).2 = Ok container →
    is_Ok (step s (ContainerStart (Id container))).2 = true →
    ∃ container',
      (step (step s (ContainerStart (Id container))).1 (ContainerInspect name)).2
      = Ok container'
      ∧ Running container' = true
}.

End EngineLaws.

(** ** The discipline of the container mutex *)

Module Locking.
Import Docker Async EngineLaws.

(** A trace in which the mutex is taken only when free, released only when
    held, free at the end, and in which every request that is not a mere
    read is sent while the mutex is held.  [held] tells whether the mutex is
    held when the trace starts. *)
Fixpoint guarded_from (held : bool) (evs : list Event) : bool :=
  match evs with
  | [] => negb held
  | EvAcquire :: rest => negb held && guarded_from true rest
  | EvRelease :: rest => held && guarded_from false rest
  | EvCall c _ :: rest => (held || reads c) && guarded_from held rest
  end.

Definition guarded (evs : list Event) : bool := guarded_from false evs.

End Locking.

(** ** Collaborators that live outside the two modules *)

(** The context argument of [getTerminalEnvVars]. *)
Record TerminalEnvContext := {
  httpToolkitIp : string;
  overridePath : string;
  targetPlatform : string
}.

Class Externals := {
  (** [OVERRIDES_DIR] of [terminal-env-overrides], and what walking that
      directory yields. *)
  OVERRIDES_DIR : string;
  overrides_listing : list (Archive.Header * string);
  (** [getTerminalEnvVars(proxyPort, { certPath }, currentEnv, context)] *)
  getTerminalEnvVars : Z → string → gmap string string → TerminalEnvContext → gmap string string;
  (** [DOCKER_HOST_HOSTNAME] of [docker-commands] *)
  DOCKER_HOST_HOSTNAME : string;
  (** [process.platform] *)
  process_platform : string;
  (** [semver.coerce] ([None] for [null]) and [semver.satisfies] *)
  semver_coerce : string → option string;
  semver_satisfies : string → string → bool
}.

(** ** Small pieces of lodash and of the array API *)

Module Js.

(** [_.uniq]: keeps the first occurrence of every element. *)
Fixpoint uniq_from `{EqDecision A} (seen l : list A) : list A :=
  match l with
  | [] => []
  | x :: l' =>
      if decide (x ∈ seen) then uniq_from seen l'
      else x :: uniq_from (x :: seen) l'
  end.
Definition uniq `{EqDecision A} (l : list A) : list A := uniq_from [] l.

(** [array.includes(x)] *)
Definition includes `{EqDecision A} (l : list A) (x : A) : bool := bool_decide (x ∈ l).

(** [Object.keys(array)]: the indices of the array, as strings. *)
Definition array_keys {A} (l : list A) : list string :=
  (λ i : nat, pretty i) <$> seq 0 (length l).

(** [object[key]] on an object kept as an association list. *)
Fixpoint get {V} (object : list (string * V)) (key : string) : option V :=
  match object with
  | [] => None
  | (k, v) :: rest => if decide (k = key) then Some v else get rest key
  end.

(** [Object.keys(object)] on an object kept as an association list. *)
Definition keys {V} (object : list (string * V)) : list string := object.*1.

End Js.

(** ** The tunnel sidecar: [docker-tunnel-proxy.ts] *)

Module Tunnel.
Import Docker Async.

Definition DOCKER_TUNNEL_IMAGE : string := "httptoolkit/docker-socks-tunnel:v1.1.0".
Definition DOCKER_TUNNEL_LABEL : string := "tech.httptoolkit.docker.tunnel".

Definition getDockerTunnelContainerName (proxyPort : Z) : string :=
  "httptoolkit-docker-tunnel-" +:+ pretty proxyPort.

Definition builtin_bridge_filter : Filters :=
  [("driver", ["bridge"]); ("type", ["builtin"])].

(** [([builtinBridge]) => builtinBridge?.IPAM?.Config?.[0].Gateway]: reading
    [.Gateway] off the missing first element of an empty [Config] is a
    [TypeError]. *)
Definition defaultBridgeGateway_of (networks : list NetworkInspectInfo)
  : result (option string) :=
  match networks with
  | [] => Ok None
  | builtinBridge :: _ =>
      match Gateways builtinBridge with
      | None => Ok None
      | Some [] => Throw (new_Error "Cannot read properties of undefined (reading 'Gateway')")
      | Some (gateway :: _) => Ok gateway
      end
  end.

(** [prepareDockerTunnel()]: starts pulling the docker tunnel image, just to
    ensure it's available if we need it.  [isDockerAvailable] is the check
    imported from [docker-interception-services]; a pull that fails is
    handed to [console.warn] and otherwise forgotten. *)
Definition prepareDockerTunnel (isDockerAvailable : Prog bool) : Prog unit :=
  available ← isDockerAvailable;
  if negb available then Ret tt
  else runExclusive (settle (call (Pull DOCKER_TUNNEL_IMAGE)) (λ _, Ret tt)).

Section WithExternals.
Context `{Externals}.

Definition tunnel_options (proxyPort : Z) (engineVersion : string)
    (defaultBridgeGateway : option string) : ContainerCreateOptions :=
  {| create_name := getDockerTunnelContainerName proxyPort;
     create_Config :=
       {| Image := DOCKER_TUNNEL_IMAGE;
          Env := [];
          Labels := [(DOCKER_TUNNEL_LABEL, pretty proxyPort)] |};
     create_HostConfig :=
       {| Binds := None;
          AutoRemove := true;
          ExtraHosts :=
            if decide (process_platform = "linux")
            then Some [DOCKER_HOST_HOSTNAME +:+ ":" +:+
                         (if semver_satisfies engineVersion ">= 20.10"
                          then "host-gateway"
                          else match defaultBridgeGateway with
                               | Some gateway => if decide (gateway = "") then "172.17.0.1" else gateway
                               | None => "172.17.0.1"
                               end)]
            else None;
          PortBindings :=
            [("1080/tcp", [ {| req_HostIp := "127.0.0.1"; req_HostPort := None |} ])] |};
     create_EndpointsConfig := None |}.

(** First half of the body of [ensureDockerTunnelRunning]:
    make sure we have the image available (should've been pre-pulled, but
    just in case). *)
Definition ensure_image : Prog unit :=
  image ← try_call (ImageInspect DOCKER_TUNNEL_IMAGE);
  if is_Ok image then Ret tt else call (Pull DOCKER_TUNNEL_IMAGE).

(** Second half: ensure we have a ready-to-use container, and make sure it
    is running. *)
Definition ensure_container (proxyPort : Z) : Prog unit :=
  let containerName := getDockerTunnelContainerName proxyPort in
  found ← try_call (ContainerInspect containerName);
  container ←
    match found with
    | Ok container => Ret container
    | Throw _ =>
        versionData ← call Version;
        let engineVersion := default "0.0.0" (semver_coerce versionData) in
        networks ← call (ListNetworks builtin_bridge_filter);
        defaultBridgeGateway ← of_result (defaultBridgeGateway_of networks);
        call (CreateContainer
                (tunnel_options proxyPort engineVersion defaultBridgeGateway));;
        call (ContainerInspect containerName)
    end;
  if Running container then Ret tt
  else call (ContainerStart (Id container)).

Definition ensureDockerTunnelRunning (proxyPort : Z) : Prog unit :=
  runExclusive (ensure_image;; ensure_container proxyPort).

(** [([builtinBridge]) => builtinBridge?.Id] *)
Definition defaultBridgeId_of (networks : list NetworkInspectInfo) : option string :=
  net_Id <$> head networks.

Definition expectedNetworks (interceptedNetworks : list string)
    (defaultBridgeId : option string) : list (option string) :=
  Js.uniq ((Some <$> interceptedNetworks) ++
    (* We must always stay connected to the default bridge, to ensure that we
       always have connectivity to the host via the default bridge gateway: *)
    [defaultBridgeId]).

Definition currentNetworks (container : ContainerInspectInfo) : list string :=
  (λ network : string * EndpointSettings, NetworkID network.2) <$> Networks container.

Definition missingNetworks (interceptedNetworks : list string)
    (defaultBridgeId : option string) (container : ContainerInspectInfo)
  : list (option string) :=
  filter (λ network, ¬ Js.includes (Some <$> currentNetworks container) network)
         (expectedNetworks interceptedNetworks defaultBridgeId).

Definition extraNetworks (interceptedNetworks : list string)
    (defaultBridgeId : option string) (container : ContainerInspectInfo)
  : list string :=
  filter (λ network, ¬ Js.includes
                         (expectedNetworks interceptedNetworks defaultBridgeId)
                         (Some network))
         (currentNetworks container).

(** The requests of the fan-out: connect what is missing, disconnect what is
    extra. *)
Definition reconcile_requests (interceptedNetworks : list string)
    (defaultBridgeId : option string) (container : ContainerInspectInfo) : list Cmd :=
  ((λ network, NetworkConnect network (Id container) None)
     <$> missingNetworks interceptedNetworks defaultBridgeId container)
  ++ ((λ network, NetworkDisconnect network (Id container))
        <$> extraNetworks interceptedNetworks defaultBridgeId container).

(** The callback that [updateDockerTunnelledNetworks] runs under the mutex;
    [defaultBridgeId] is the promise of the bridge id, settled or not. *)
Definition reconcile (proxyPort : Z) (interceptedNetworks : list string)
    (defaultBridgeId : result (option string)) : Prog unit :=
  (* Inspect() must happen inside the lock to avoid any possible races. *)
  container ← call (ContainerInspect (getDockerTunnelContainerName proxyPort));
  bridge ← of_result defaultBridgeId;
  Promise_all (request <$> reconcile_requests interceptedNetworks bridge container).

Definition updateDockerTunnelledNetworks (proxyPort : Z)
    (interceptedNetworks : list string) : Prog unit :=
  (* the request is sent now, its promise is awaited inside the lock *)
  listed ← try_call (ListNetworks builtin_bridge_filter);
  let defaultBridgeId :=
    match listed with
    | Ok networks => Ok (defaultBridgeId_of networks)
    | Throw e => Throw e
    end in
  let containerName := getDockerTunnelContainerName proxyPort in
  found ← try_call (ContainerInspect containerName);
  (match found with
   | Ok _ => Ret tt
   | Throw _ => ensureDockerTunnelRunning proxyPort
   end);;
  runExclusive (reconcile proxyPort interceptedNetworks defaultBridgeId).

Definition loopback_mapping (container : ContainerInspectInfo) : option PortMapping :=
  let portMappings := default [] (Ports container !! "1080/tcp") in
  List.find (λ mapping, bool_decide (HostIp mapping = "127.0.0.1")) portMappings.

(** The last three lines of [getDockerTunnelPort]: the host port of the
    loopback mapping, or the "No port mapped" error. *)
Definition mapped_port (container : ContainerInspectInfo) : result number :=
  match loopback_mapping container with
  | None => Throw (new_Error "No port mapped for Docker tunnel")
  | Some localPort => Ok (JsNumber.parseInt (HostPort localPort) 10)
  end.

Definition getDockerTunnelPort (proxyPort : Z) : Prog number :=
  let containerName := getDockerTunnelContainerName proxyPort in
  found ← try_call (ContainerInspect containerName);
  container ←
    match found with
    | Ok container => Ret container
    | Throw _ =>
        (* Can't get the container - recreate it first, then continue. *)
        ensureDockerTunnelRunning proxyPort;;
        call (ContainerInspect containerName)
    end;
  of_result (mapped_port container).

(** The argument of [stopDockerTunnel]: a proxy port or ['all']. *)
Inductive PortSelector := AllPorts | Port (proxyPort : Z).

Definition label_filter (proxyPort : PortSelector) : Filters :=
  [("label", [match proxyPort with
              | AllPorts => DOCKER_TUNNEL_LABEL
              | Port p => DOCKER_TUNNEL_LABEL +:+ "=" +:+ pretty p
              end])].

(** The body handed to [runExclusive] in [stopDockerTunnel]. *)
Definition stop_tunnels (proxyPort : PortSelector) : Prog unit :=
  runExclusive (
    containers ← call (ListContainers true (label_filter proxyPort));
    Promise_all ((λ containerData,
      settle (call (ContainerKill (info_Id containerData))) (λ _,
      settle (call (ContainerRemove (info_Id containerData))) (λ _,
      Ret tt)) : Prog unit) <$> containers)).

(** [runExclusive(...)] is called without [await] (and its promise is
    not returned): the function body ends right after starting it. *)
Definition stopDockerTunnel (proxyPort : PortSelector) : Prog unit :=
  Detach (stop_tunnels proxyPort) (Ret tt).

End WithExternals.

(** The tunnel image is there. *)
Definition image_present `{Engine} (s : State) : Prop :=
  is_Ok (step s (ImageInspect DOCKER_TUNNEL_IMAGE)).2 = true.

(** The container called [name] is there and running. *)
Definition tunnel_running `{Engine} (name : string) (s : State) : Prop :=
  ∃ container, (step s (ContainerInspect name)).2 = Ok container
               ∧ Running container = true.

End Tunnel.

(** ** The container replacer *)

Module Replacer.
Import Docker Async.

Inductive InterceptionType := Mount | Inject.

(** [[409, 404, 304].includes(e.statusCode)] *)
Definition already_gone (e : JsError) : bool :=
  Js.includes [Some 409; Some 404; Some 304] (statusCode e).

Section WithExternals.
Context `{Externals}.

Definition injected_env (proxyPort : Z) (currentEnv : gmap string string)
  : list string :=
  EnvCodec.envObjectToArray
    (getTerminalEnvVars proxyPort HTTP_TOOLKIT_INJECTED_CA_PATH currentEnv
       {| httpToolkitIp := "172.17.0.1";
          overridePath := HTTP_TOOLKIT_INJECTED_OVERRIDES_PATH;
          targetPlatform := "linux" |}).

(** The options of the clone: the original configuration with the injected
    environment appended, the extra bind mounts in [Mount] mode, the original
    name, and the original networks - only the first of them when there are
    several. *)
Definition clone_options (containerDetails : ContainerInspectInfo)
    (interceptionType : InterceptionType) (proxyPort : Z) (certPath : string)
    (currentEnv : gmap string string) : ContainerCreateOptions :=
  let networkDetails := Networks containerDetails in
  let networkNames := Js.keys networkDetails in
  {| create_Config :=
       {| Image := Image (Config containerDetails);
          Labels := Labels (Config containerDetails);
          Env := Env (Config containerDetails) ++ injected_env proxyPort currentEnv |};
     create_HostConfig :=
       match interceptionType with
       | Mount =>
           {| Binds := Some (default [] (Binds (Host containerDetails)) ++
                (* Bind-mount the CA certificate file individually too: *)
                [ certPath +:+ ":" +:+ HTTP_TOOLKIT_INJECTED_CA_PATH +:+ ":ro";
                (* Bind-mount the overrides directory into the container: *)
                  OVERRIDES_DIR +:+ ":" +:+ HTTP_TOOLKIT_INJECTED_OVERRIDES_PATH +:+ ":ro" ]);
              AutoRemove := AutoRemove (Host containerDetails);
              ExtraHosts := ExtraHosts (Host containerDetails);
              PortBindings := PortBindings (Host containerDetails) |}
       | Inject => Host containerDetails
       end;
     create_name := Name containerDetails;
     create_EndpointsConfig := Some (
       if bool_decide (1 < length networkNames)%nat
       then match networkNames with
            | first :: _ =>
                match Js.get networkDetails first with
                | Some endpoint => [(first, endpoint)]
                | None => []
                end
            | [] => []
            end
       else networkDetails) |}.

(** The connect requests sent after creation when there are several
    networks; [Object.keys] is applied to the array [networkNames.slice(1)]. *)
Definition reconnect_requests (containerDetails : ContainerInspectInfo)
    (newContainer : string) : list Cmd :=
  let networkDetails := Networks containerDetails in
  let networkNames := Js.keys networkDetails in
  (λ networkName,
     NetworkConnect (Some networkName) newContainer (Js.get networkDetails networkName))
  <$> Js.array_keys (drop 1 networkNames).

Definition restartAndInjectContainer (containerId : string)
    (interceptionType : InterceptionType) (proxyPort : Z)
    (certContent certPath : string) : Prog unit :=
  containerDetails ← call (ContainerInspect containerId);
  call (ContainerStop containerId 1);;
  removed ← try_call (ContainerRemove containerId);
  (match removed with
   | Ok _ => Ret tt
   | Throw e =>
       if already_gone e then
         (* Generally this means the container was running with --rm, so
            it's been/being removed automatically already - that's fine! *)
         Ret tt
       else Fail e
   end);;
  let networkNames := Js.keys (Networks containerDetails) in
  (* First we clone the continer, with our custom env vars: *)
  currentEnv ← of_result (EnvCodec.envArrayToObject (Env (Config containerDetails)));
  newContainer ← call (CreateContainer
    (clone_options containerDetails interceptionType proxyPort certPath currentEnv));
  (* We reconnect all networks (we can't do this during create() for >1 network) *)
  (if bool_decide (1 < length networkNames)%nat
   then Promise_all (request <$> reconnect_requests containerDetails newContainer)
   else Ret tt);;
  (match interceptionType with
   | Inject =>
       (* Inject the overide files & MITM cert into the image directly: *)
       call (PutArchive newContainer
               (Archive.packInterceptionFiles overrides_listing certContent) "/")
   | Mount => Ret tt
   end);;
  (* Start everything up! *)
  call (ContainerStart newContainer).

End WithExternals.

End Replacer.

(** ** A small engine to run the programs on *)

(** A deterministic engine with just enough behaviour to exercise the
    programs: images, containers found by id or by name, the builtin bridge
    networks.  Network names and network ids coincide in it. *)
Module Reference.
Import Docker.

Record World := {
  images : list string;
  containers : list ContainerInspectInfo;
  bridges : list NetworkInspectInfo;
  engineVersion : string;
  created : nat          (* containers created so far: makes ids fresh *)
}.

Definition not_found : JsError :=
  {| message := "no such object"; statusCode := Some 404 |}.
Definition conflict : JsError :=
  {| message := "name already in use"; statusCode := Some 409 |}.

Definition is_container (id : string) (c : ContainerInspectInfo) : bool :=
  bool_decide (Id c = id ∨ Name c = id).

Definition find_container (w : World) (id : string) : option ContainerInspectInfo :=
  List.find (is_container id) (containers w).

Definition with_containers (w : World) (cs : list ContainerInspectInfo) : World :=
  {| images := images w; containers := cs; bridges := bridges w;
     engineVersion := engineVersion w; created := created w |}.

(** Apply [f] to the container called [id], if there is one. *)
Definition on_container (w : World) (id : string)
    (f : ContainerInspectInfo → option ContainerInspectInfo) : World * result unit :=
  match find_container w id with
  | None => (w, Throw not_found)
  | Some _ =>
      (with_containers w
         (omap (λ c, if is_container id c then f c else Some c) (containers w)),
       Ok tt)
  end.

Definition set_running (b : bool) (c : ContainerInspectInfo) : ContainerInspectInfo :=
  {| Id := Id c; Name := Name c; Running := b; Config := Config c; Host := Host c;
     Networks := Networks c; Ports := Ports c |}.

Definition set_networks (nets : list (string * EndpointSettings))
    (c : ContainerInspectInfo) : ContainerInspectInfo :=
  {| Id := Id c; Name := Name c; Running := Running c; Config := Config c;
     Host := Host c; Networks := nets; Ports := Ports c |}.

Definition bound_port (request : PortBindingRequest) : PortMapping :=
  {| HostIp := req_HostIp request; HostPort := default "49153" (req_HostPort request) |}.

Definition create (w : World) (options : ContainerCreateOptions) : World * result string :=
  match find_container w (create_name options) with
  | Some _ => (w, Throw conflict)
  | None =>
      let id := "container-" +:+ pretty (created w) in
      let c :=
        {| Id := id; Name := create_name options; Running := false;
           Config := create_Config options; Host := create_HostConfig options;
           Networks := default [] (create_EndpointsConfig options);
           Ports := list_to_map
             ((λ binding : string * list PortBindingRequest,
                 (binding.1, bound_port <$> binding.2))
              <$> PortBindings (create_HostConfig options)) |} in
      ({| images := images w; containers := containers w ++ [c];
          bridges := bridges w; engineVersion := engineVersion w;
          created := S (created w) |}, Ok id)
  end.

Definition has_label (filter : string) (c : ContainerInspectInfo) : bool :=
  bool_decide (Exists (λ label : string * string,
    filter = label.1 ∨ filter = label.1 +:+ "=" +:+ label.2) (Labels (Config c))).

Definition matches (filters : Filters) (c : ContainerInspectInfo) : bool :=
  forallb (λ f : string * list string, existsb (λ l, has_label l c) f.2) filters.

Definition world_step (w : World) (c : Cmd) : World * result (resp c) :=
  match c as c return World * result (resp c) with
  | ImageInspect image =>
      (w, if bool_decide (image ∈ images w) then Ok tt else Throw not_found)
  | Pull image =>
      ({| images := image :: images w; containers := containers w;
          bridges := bridges w; engineVersion := engineVersion w;
          created := created w |}, Ok tt)
  | Version => (w, Ok (engineVersion w))
  | ListNetworks _ => (w, Ok (bridges w))
  | ListContainers _ filters =>
      (w, Ok ((λ c, {| info_Id := Id c |}) <$> List.filter (matches filters) (containers w)))
  | ContainerInspect id =>
      (w, match find_container w id with
          | Some c => Ok c
          | None => Throw not_found
          end)
  | CreateContainer options => create w options
  | ContainerStart id => on_container w id (λ c, Some (set_running true c))
  | ContainerStop id _ => on_container w id (λ c, Some (set_running false c))
  | ContainerKill id => on_container w id (λ c, Some (set_running false c))
  | ContainerRemove id => on_container w id (λ _, None)
  | PutArchive id _ _ => on_container w id Some
  | NetworkConnect network id endpoint =>
      match network with
      | None => (w, Throw not_found)
      | Some n =>
          on_container w id (λ c, Some (set_networks
            (Networks c ++
               [(n, default {| NetworkID := n; IPAddress := ""; Aliases := [] |} endpoint)])
            c))
      end
  | NetworkDisconnect network id =>
      on_container w id (λ c, Some (set_networks
        (List.filter (λ net : string * EndpointSettings,
           negb (bool_decide (NetworkID net.2 = network))) (Networks c)) c))
  end.

(** Of the answers on their way, the one to the task that was started first
    comes in first. *)
Global Instance engine : Engine :=
  {| State := World; step := world_step; arrival := λ _ _, 0%nat |}.

(** Stand-ins for the collaborators: no override files, one override
    variable, a Linux host, and version comparison decided by the first
    two digits. *)
Global Instance externals : Externals := {|
  OVERRIDES_DIR := "/opt/overrides";
  overrides_listing := [];
  getTerminalEnvVars := λ proxyPort _ _ _, {[ "HTTP_PROXY" := "http://172.17.0.1:" +:+ pretty proxyPort ]};
  DOCKER_HOST_HOSTNAME := "host.docker.internal";
  process_platform := "linux";
  semver_coerce := Some;
  semver_satisfies := λ version _, bool_decide (version ≠ "19.03.0")
|}.

Definition bridge : NetworkInspectInfo :=
  {| net_Id := "bridge0"; Gateways := Some [Some "172.17.0.1"] |}.

(** A fresh engine: no image, no container, the default bridge. *)
Definition fresh : World :=
  {| images := []; containers := []; bridges := [bridge];
     engineVersion := "20.10.7"; created := 0 |}.

Definition endpoint (network ip : string) : EndpointSettings :=
  {| NetworkID := network; IPAddress := ip; Aliases := ["web"] |}.

(** A running container attached to the given networks, with the given env. *)
Definition web (env : list string) (networks : list (string * EndpointSettings))
  : ContainerInspectInfo :=
  {| Id := "abc123"; Name := "/web"; Running := true;
     Config := {| Image := "nginx"; Env := env; Labels := [] |};
     Host := {| Binds := None; AutoRemove := false; ExtraHosts := None;
                PortBindings := [] |};
     Networks := networks;
     Ports := ∅ |}.

Definition three_networks : list (string * EndpointSettings) :=
  [ ("frontend", endpoint "net-f" "10.0.0.2");
    ("backend", endpoint "net-b" "10.0.1.2");
    ("metrics", endpoint "net-m" "10.0.2.2") ].

(** An engine holding one such container. *)
Definition hosting (container : ContainerInspectInfo) : World :=
  {| images := ["nginx"]; containers := [container]; bridges := [bridge];
     engineVersion := "20.10.7"; created := 0 |}.

(** The tunnel container of proxy port 8000, running, attached to the given
    networks and with the given mappings for 1080/tcp. *)
Definition tunnel (networks : list string) (mappings : list PortMapping)
  : ContainerInspectInfo :=
  {| Id := "tunnel"; Name := "httptoolkit-docker-tunnel-8000"; Running := true;
     Config := {| Image := "httptoolkit/docker-socks-tunnel:v1.1.0"; Env := [];
                  Labels := [("tech.httptoolkit.docker.tunnel", "8000")] |};
     Host := {| Binds := None; AutoRemove := true; ExtraHosts := None;
                PortBindings := [] |};
     Networks := (λ network, (network, endpoint network "")) <$> networks;
     Ports := {[ "1080/tcp" := mappings ]} |}.

(** An engine holding two tunnel containers, of the proxy ports 8000 and
    9000. *)
Definition tunnel_9000 : ContainerInspectInfo :=
  {| Id := "tunnel-9000"; Name := "httptoolkit-docker-tunnel-9000"; Running := true;
     Config := {| Image := "httptoolkit/docker-socks-tunnel:v1.1.0"; Env := [];
                  Labels := [("tech.httptoolkit.docker.tunnel", "9000")] |};
     Host := {| Binds := None; AutoRemove := true; ExtraHosts := None;
                PortBindings := [] |};
     Networks := [];
     Ports := ∅ |}.

Definition two_tunnels : World :=
  {| images := []; containers := [tunnel ["bridge0"] []; tunnel_9000];
     bridges := [bridge]; engineVersion := "20.10.7"; created := 0 |}.

(** The same engine, except that a container is removed behind the
    client's back: the remove request finds it gone (or going) and fails
    with the given status. *)
Definition removing_by_itself (status : Z) : Engine :=
  {| State := World;
     step := λ w c,
       match c as c return World * result (resp c) with
       | ContainerRemove id =>
           ((world_step w (ContainerRemove id)).1,
            Throw {| message := "removal failed"; statusCode := Some status |})
       | c => world_step w c
       end;
     arrival := λ _ _, 0%nat |}.

End Reference.

(** * Properties *)

Module JsStringFacts.
Import JsString.

Lemma indexOf_from_shift c s i :
  indexOf_from c s i = if contains c s then i + indexOf_from c s 0 else -1.
Proof.
  revert i. induction s as [|a s IH]; intros i; simpl; [done|].
  case_decide; [lia|].
  rewrite (IH (i + 1)), (IH (0 + 1)). destruct (contains c s); lia.
Qed.

Lemma indexOf_from_nonneg c s : contains c s = true → 0 <= indexOf_from c s 0.
Proof.
  induction s as [|a s IH]; simpl; [done|].
  case_decide; [lia|]. intros Hs. rewrite indexOf_from_shift, Hs.
  specialize (IH Hs). lia.
Qed.

Lemma indexOf_none s c : indexOf s c = -1 ↔ contains c s = false.
Proof.
  unfold indexOf. split.
  - intros E. destruct (contains c s) eqn:Hs; [|done].
    apply indexOf_from_nonneg in Hs. lia.
  - intros Hs. by rewrite indexOf_from_shift, Hs.
Qed.

Lemma contains_app c s t : contains c (s +:+ t) = contains c s || contains c t.
Proof. induction s as [|a s IH]; simpl; [done|]. by case_decide. Qed.

Lemma length_app s t : String.length (s +:+ t) = (String.length s + String.length t)%nat.
Proof. induction s; simpl; [done|congruence]. Qed.

Lemma app_cons a s t : String a s +:+ t = String a (s +:+ t).
Proof. done. Qed.

Lemma app_nil_r s : s +:+ "" = s.
Proof. induction s as [|a s IH]; [done|]. by rewrite app_cons, IH. Qed.

Lemma app_assoc s t u : (s +:+ t) +:+ u = s +:+ t +:+ u.
Proof. induction s as [|a s IH]; [done|]. by rewrite !app_cons, IH. Qed.

Lemma substring_0_app k t : String.substring 0 (String.length k) (k +:+ t) = k.
Proof. induction k as [|a k IH]; simpl; [by destruct t|]. by rewrite IH. Qed.

Lemma substring_skip k t n : String.substring (String.length k) n (k +:+ t) = String.substring 0 n t.
Proof. induction k as [|a k IH]; simpl; [done|]. apply IH. Qed.

Lemma substring_all t : String.substring 0 (String.length t) t = t.
Proof. induction t as [|a t IH]; simpl; [done|]. by rewrite IH. Qed.

(** Position of the first occurrence: the prefix before it is free of [c]. *)
Lemma indexOf_first k c v :
  contains c k = false →
  indexOf (k +:+ String c v) c = Z.of_nat (String.length k).
Proof.
  unfold indexOf. induction k as [|a k IH]; simpl.
  - intros _. by rewrite decide_True.
  - case_decide; [done|]. intros Hk.
    rewrite indexOf_from_shift, contains_app, IH by done.
    simpl. rewrite decide_True by done. rewrite orb_true_r. lia.
Qed.

(** Every string that has a [c] splits at its first occurrence. *)
Lemma indexOf_split s c :
  indexOf s c ≠ -1 →
  ∃ k v, s = k +:+ String c v ∧ contains c k = false.
Proof.
  rewrite indexOf_none. induction s as [|a s IH]; simpl; [done|].
  case_decide as E.
  - intros _. exists "", s. by rewrite E.
  - intros Hs. destruct (IH Hs) as (k & v & -> & Hk).
    exists (String a k), v. simpl. by rewrite decide_False.
Qed.

Lemma slice_prefix k t :
  slice (k +:+ t) 0 (Z.of_nat (String.length k)) = k.
Proof.
  unfold slice, clamp_index. rewrite length_app. simpl.
  replace (0 <? 0) with false by done.
  replace (Z.of_nat (String.length k) <? 0) with false by (symmetry; apply Z.ltb_ge; lia).
  rewrite Z.min_l, Z.min_l by lia. rewrite Z.sub_0_r, Nat2Z.id. simpl.
  apply substring_0_app.
Qed.

Lemma slice_from_suffix k c v :
  slice_from (k +:+ String c v) (Z.of_nat (String.length k) + 1) = v.
Proof.
  unfold slice_from, slice, clamp_index. rewrite length_app. simpl.
  replace (Z.of_nat (String.length k) + 1 <? 0) with false by (symmetry; apply Z.ltb_ge; lia).
  replace (Z.of_nat (String.length k + S (String.length v)) <? 0) with false
    by (symmetry; apply Z.ltb_ge; lia).
  rewrite Z.min_l, Z.min_l by lia.
  replace (Z.to_nat (Z.of_nat (String.length k) + 1)) with (String.length (k +:+ String c "")).
  2:{ rewrite length_app. simpl. lia. }
  replace (k +:+ String c v) with ((k +:+ String c "") +:+ v).
  2:{ by rewrite app_assoc. }
  rewrite substring_skip.
  replace (Z.to_nat _) with (String.length v) by lia.
  apply substring_all.
Qed.

End JsStringFacts.


Module EnvCodecFacts.
Import JsString JsStringFacts EnvCodec.

Lemma env_entry_ok k v :
  contains "=" k = false → env_entry (k +:+ String "=" v) = Ok (k, v).
Proof.
  intros Hk. unfold env_entry. rewrite (indexOf_first k "=" v Hk).
  rewrite decide_False by lia.
  by rewrite slice_prefix, slice_from_suffix.
Qed.

Lemma env_entry_throw e :
  contains "=" e = false → env_entry e = Throw (new_Error "Env var without =").
Proof.
  intros He. unfold env_entry. apply indexOf_none in He. by rewrite He, decide_True.
Qed.

Lemma env_entry_cases e :
  (contains "=" e = false ∧ env_entry e = Throw (new_Error "Env var without ="))
  ∨ (∃ k v, e = k +:+ "=" +:+ v ∧ contains "=" k = false ∧ env_entry e = Ok (k, v)).
Proof.
  destruct (contains "=" e) eqn:He.
  - right. destruct (indexOf_split e "=") as (k & v & -> & Hk).
    { rewrite indexOf_none. congruence. }
    exists k, v. split_and!; [done..|]. by apply env_entry_ok.
  - left. split; [done|]. by apply env_entry_throw.
Qed.

Lemma contains_entry k v : contains "=" (k +:+ "=" +:+ v) = true.
Proof. rewrite contains_app. apply orb_true_r. Qed.

Lemma entry_key_ok k v : contains "=" k = false → entry_key (k +:+ "=" +:+ v) = k.
Proof.
  intros Hk. unfold entry_key.
  change (k +:+ "=" +:+ v) with (k +:+ String "=" v).
  by rewrite indexOf_first, slice_prefix.
Qed.

Lemma entry_key_no_equals e : contains "=" e = true → contains "=" (entry_key e) = false.
Proof.
  intros He. destruct (env_entry_cases e) as [[Hno _]|(k & v & -> & Hk & _)]; [congruence|].
  by rewrite entry_key_ok.
Qed.

(** [map_throwing] succeeds exactly when the callback does on every element. *)
Lemma map_throwing_Ok {A B} (f : A → result B) l bs :
  map_throwing f l = Ok bs ↔ Forall2 (λ a b, f a = Ok b) l bs.
Proof.
  revert bs. induction l as [|a l IH]; intros bs; simpl.
  - split; [intros [= <-]; constructor|by inversion 1].
  - destruct (f a) as [b|e] eqn:Ha.
    + destruct (map_throwing f l) as [bs'|e].
      * split.
        -- intros [= <-]. constructor; [done|by apply IH].
        -- inversion 1 as [|? b' ? bs'' Hb Hl]; subst.
           rewrite Ha in Hb. injection Hb as <-.
           apply IH in Hl. by injection Hl as <-.
      * split; [done|]. inversion 1 as [|? b' ? bs'' Hb Hl]; subst.
        by apply IH in Hl.
    + split; [done|]. inversion 1; congruence.
Qed.

Lemma map_throwing_Throw {A B} (f : A → result B) l e :
  map_throwing f l = Throw e → ∃ a, a ∈ l ∧ f a = Throw e.
Proof.
  induction l as [|a l IH]; simpl; [done|].
  destruct (f a) as [b|e'] eqn:Ha.
  - destruct (map_throwing f l) as [bs'|e'']; [done|].
    intros [= <-]. destruct IH as (a' & ? & ?); [done|].
    exists a'. split; [by right|done].
  - intros [= <-]. exists a. split; [by left|done].
Qed.

Lemma stored_all pairs : "__proto__" ∉ pairs.*1 → stored pairs = pairs.
Proof.
  intros Hnone. unfold stored. induction pairs as [|[k v] pairs IH]; [done|].
  simpl in Hnone. apply not_elem_of_cons in Hnone as [Hk Hnone].
  rewrite filter_cons_True by (simpl; congruence). by rewrite IH.
Qed.

Lemma stored_keys pairs : (stored pairs).*1 = filter (λ k, k ≠ "__proto__") pairs.*1.
Proof.
  unfold stored. induction pairs as [|[k v] pairs IH]; [done|].
  rewrite fmap_cons. simpl. destruct (decide (k = "__proto__")) as [->|Hk].
  - by rewrite !filter_cons_False by (simpl; tauto).
  - by rewrite !filter_cons_True, fmap_cons, IH by done.
Qed.

(** Assigning pair after pair is [list_to_map] on the reversed list of the
    stored pairs (in [list_to_map] the first binding of a key wins). *)
Lemma fromPairs_list_to_map pairs :
  fromPairs pairs = list_to_map (reverse (stored pairs)).
Proof.
  unfold fromPairs.
  enough (∀ m : gmap string string,
    foldl (λ result pair, assign result pair.1 pair.2) m pairs
    = list_to_map (reverse (stored pairs)) ∪ m) as Hgen.
  { rewrite Hgen. apply (right_id ∅ (∪)). }
  unfold stored. induction pairs as [|[k v] pairs IH]; intros m; simpl.
  - by rewrite (left_id ∅ (∪)).
  - rewrite IH. unfold assign. simpl. destruct (decide (k = "__proto__")) as [->|Hk].
    + by rewrite filter_cons_False by (simpl; tauto).
    + rewrite filter_cons_True by done.
      rewrite reverse_cons, list_to_map_app. simpl.
      rewrite <- (assoc_L (∪)). f_equal.
      by rewrite insert_empty, <- insert_union_singleton_l.
Qed.

Lemma fromPairs_NoDup pairs :
  NoDup pairs.*1 → map_to_list (fromPairs pairs) ≡ₚ stored pairs.
Proof.
  intros Hnd. rewrite fromPairs_list_to_map.
  rewrite map_to_list_to_map.
  - apply reverse_Permutation.
  - rewrite fmap_reverse, reverse_Permutation, stored_keys. by apply NoDup_filter.
Qed.

Lemma envObjectToArray_lines (m : gmap string string) :
  envObjectToArray m = (λ kv : string * string, kv.1 +:+ "=" +:+ kv.2) <$> map_to_list m.
Proof.
  unfold envObjectToArray, Object_keys. rewrite <- list_fmap_compose.
  apply list_fmap_ext. intros i [k v] Hkv%list_elem_of_lookup_2%elem_of_map_to_list.
  simpl. unfold env_line. by rewrite Hkv.
Qed.

End EnvCodecFacts.

Module EnvCodecSpec.
Import JsString JsStringFacts EnvCodec EnvCodecFacts.

Lemma parsed_entries l :
  Forall (λ e, contains "=" e = true) l →
  ∃ pairs, map_throwing env_entry l = Ok pairs
    ∧ l = (λ kv : string * string, kv.1 +:+ "=" +:+ kv.2) <$> pairs
    ∧ pairs.*1 = entry_key <$> l.
Proof.
  induction 1 as [|e l He _ (pairs & Hp & Hl & Hk)].
  - by exists [].
  - destruct (env_entry_cases e) as [[? _]|(k & v & -> & Hkf & Hkv)]; [congruence|].
    exists ((k, v) :: pairs). simpl. rewrite Hkv, Hp.
    split_and!; [done|by rewrite Hl at 1|].
    f_equal; [by rewrite entry_key_ok|exact Hk].
Qed.

Lemma map_throwing_fails {A B} (f : A → result B) l :
  is_Ok (map_throwing f l) = false ↔ ∃ a, a ∈ l ∧ is_Ok (f a) = false.
Proof.
  induction l as [|a l IH]; simpl.
  - split; [done|]. by intros (? & ?%elem_of_nil & _).
  - destruct (f a) as [b|e] eqn:Ha.
    + transitivity (is_Ok (map_throwing f l) = false).
      { by destruct (map_throwing f l). }
      rewrite IH. split.
      * intros (a' & ? & ?). exists a'. split; [by right|done].
      * intros (a' & [->|?]%elem_of_cons & Hf); [by rewrite Ha in Hf|by exists a'].
    + split; [|done]. intros _. exists a. rewrite Ha. split; [by left|done].
Qed.

Lemma env_entry_is_Ok e : is_Ok (env_entry e) = contains "=" e.
Proof.
  destruct (env_entry_cases e) as [[-> ->]|(k & v & -> & _ & ->)]; [done|].
  by rewrite contains_entry.
Qed.

Lemma envArrayToObject_fails envArray :
  is_Ok (envArrayToObject envArray) = false
  ↔ ∃ e, e ∈ envArray ∧ contains "=" e = false.
Proof.
  unfold envArrayToObject.
  transitivity (is_Ok (map_throwing env_entry envArray) = false).
  { by destruct (map_throwing env_entry envArray). }
  rewrite map_throwing_fails.
  split; intros (e & ? & He); exists e; by rewrite env_entry_is_Ok in *.
Qed.

Lemma envArrayToObject_error envArray err :
  envArrayToObject envArray = Throw err → err = new_Error "Env var without =".
Proof.
  unfold envArrayToObject. intros Herr.
  destruct (map_throwing env_entry envArray) as [|err'] eqn:Hm; [done|].
  injection Herr as ->. apply map_throwing_Throw in Hm as (e & _ & He).
  destruct (env_entry_cases e) as [[_ E]|(k & v & _ & _ & E)]; congruence.
Qed.

(** C7: [envArrayToObject] splits every entry at its first '=' (the key has
    no '=', the value is whatever follows and may contain more of them); it
    throws exactly when some entry has no '=' at all, and the error is then
    the "Env var without =" one.  In particular the one-entry list
    "NOEQUALS" is rejected, and "A=b=c" maps A to "b=c". *)
Theorem envArrayToObject_splits_at_first_equals (envArray : list string) :
  (is_Ok (envArrayToObject envArray) = false
     ↔ ∃ e, e ∈ envArray ∧ contains "=" e = false)
  ∧ (∀ err, envArrayToObject envArray = Throw err
       → err = new_Error "Env var without =")
  ∧ (∀ o, envArrayToObject envArray = Ok o →
       ∃ pairs,
         Forall2 (λ e (kv : string * string),
                    e = kv.1 +:+ "=" +:+ kv.2 ∧ contains "=" kv.1 = false)
                 envArray pairs
         ∧ o = fromPairs pairs)
  ∧ envArrayToObject ["NOEQUALS"] = Throw (new_Error "Env var without =")
  ∧ envArrayToObject ["A=b=c"] = Ok {[ "A" := "b=c" ]}.
Proof.
  split_and!; [apply envArrayToObject_fails|apply envArrayToObject_error| |done|done].
  unfold envArrayToObject.
  - intros o Ho.
    destruct (map_throwing env_entry envArray) as [pairs|] eqn:Hm; [|done].
    injection Ho as <-. exists pairs. split; [|done].
    apply map_throwing_Ok in Hm. eapply Forall2_impl; [exact Hm|].
    intros e [k v] He. simpl.
    destruct (env_entry_cases e) as [[_ E]|(k' & v' & -> & Hk & E)]; [congruence|].
    rewrite E in He. by injection He as <- <-.
Qed.

(** A dictionary without troublesome keys is read back from its lines. *)
Lemma round_trip_of_plain_keys (m : gmap string string) :
  (∀ k, is_Some (m !! k) → contains "=" k = false ∧ k ≠ "__proto__") →
  envArrayToObject (envObjectToArray m) = Ok m.
Proof.
  intros Hkeys. unfold envArrayToObject.
  assert (map_throwing env_entry (envObjectToArray m) = Ok (map_to_list m)) as ->.
  { rewrite envObjectToArray_lines. apply map_throwing_Ok.
    apply Forall2_fmap_l, Forall_Forall2_diag, Forall_forall.
    intros [k v] Hkv%elem_of_map_to_list. simpl. apply env_entry_ok, Hkeys. eauto. }
  simpl. f_equal. rewrite fromPairs_list_to_map, stored_all.
  - rewrite <- (list_to_map_to_list m) at 2.
    apply list_to_map_proper.
    + rewrite fmap_reverse, reverse_Permutation. apply NoDup_fst_map_to_list.
    + apply reverse_Permutation.
  - intros ([k v] & Hk & Hkv%elem_of_map_to_list)%list_elem_of_fmap. simpl in Hk.
    subst k. destruct (Hkeys "__proto__") as [_ Hne]; [eauto|done].
Qed.

(** The lines of [l] that are not about "__proto__". *)
Lemma stored_lines pairs :
  (λ kv : string * string, kv.1 +:+ "=" +:+ kv.2) <$> stored pairs
  = filter (λ e, entry_key e ≠ "__proto__")
           ((λ kv : string * string, kv.1 +:+ "=" +:+ kv.2) <$> pairs)
  ∨ ∃ kv, kv ∈ pairs ∧ contains "=" kv.1 = true.
Proof.
  unfold stored. induction pairs as [|[k v] pairs IH]; [by left|].
  destruct (contains "=" k) eqn:Hk.
  { right. exists (k, v). split; [by left|done]. }
  destruct IH as [IH|(kv & Hin & Hkv)]; [|right; exists kv; split; [by right|done]].
  left. rewrite fmap_cons. simpl.
  destruct (decide (k = "__proto__")) as [->|Hne].
  - rewrite filter_cons_False by (simpl; tauto).
    rewrite filter_cons_False; [done|].
    rewrite (entry_key_ok "__proto__" v) by done. tauto.
  - rewrite filter_cons_True by done.
    rewrite filter_cons_True by by rewrite entry_key_ok.
    by rewrite fmap_cons, IH.
Qed.

(** C6: the env codec round-trips, except for the key "__proto__".  A
    dictionary whose keys have no '=' and are not "__proto__" is recovered
    from the list it is written to.  And a list of entries that all have an
    '=' and whose keys are pairwise distinct is parsed to a dictionary that
    is written back, up to the order in which the dictionary enumerates its
    keys, as the list without its "__proto__" entry: as the list itself when
    there is none. *)
Theorem env_codec_round_trip :
  (∀ m : gmap string string,
     (∀ k, is_Some (m !! k) → contains "=" k = false ∧ k ≠ "__proto__") →
     envArrayToObject (envObjectToArray m) = Ok m)
  ∧ (∀ l : list string,
       Forall (λ e, contains "=" e = true) l →
       NoDup (entry_key <$> l) →
       ∃ m, envArrayToObject l = Ok m
            ∧ envObjectToArray m ≡ₚ filter (λ e, entry_key e ≠ "__proto__") l
            ∧ ("__proto__" ∉ entry_key <$> l → envObjectToArray m ≡ₚ l)).
Proof.
  split; [apply round_trip_of_plain_keys|].
  intros l Hl Hnd. destruct (parsed_entries l Hl) as (pairs & Hp & El & Ek).
  exists (fromPairs pairs). unfold envArrayToObject. rewrite Hp.
  assert (envObjectToArray (fromPairs pairs)
          ≡ₚ filter (λ e, entry_key e ≠ "__proto__") l) as Hback.
  { rewrite envObjectToArray_lines, fromPairs_NoDup by by rewrite Ek.
    destruct (stored_lines pairs) as [->|(kv & Hin & Hkv)]; [by rewrite <- El|].
    exfalso. assert (kv.1 ∈ entry_key <$> l) as Hkey.
    { rewrite <- Ek. apply list_elem_of_fmap. eauto. }
    apply list_elem_of_fmap in Hkey as (e & Hke & He).
    rewrite Forall_forall in Hl. pose proof (entry_key_no_equals e (Hl e He)).
    congruence. }
  split_and!; [done|done|].
  intros Hnone. rewrite Hback.
  assert (filter (λ e, entry_key e ≠ "__proto__") l = l) as ->; [|done].
  clear -Hnone. induction l as [|e l IH]; [done|].
  rewrite fmap_cons in Hnone. apply not_elem_of_cons in Hnone as [He Hnone].
  rewrite filter_cons_True by done. by rewrite IH.
Qed.

Lemma env_codec_round_trip_witness :
  envArrayToObject (envObjectToArray {[ "PATH" := "/bin"; "OPTS" := "a=b" ]})
    = Ok {[ "PATH" := "/bin"; "OPTS" := "a=b" ]}
  ∧ ∃ m, envArrayToObject ["PATH=/bin"; "OPTS=a=b"; "EMPTY="] = Ok m
         ∧ envObjectToArray m ≡ₚ ["PATH=/bin"; "OPTS=a=b"; "EMPTY="].
Proof.
  split.
  - apply (proj1 env_codec_round_trip).
    intros k [v Hk]. apply lookup_insert_Some in Hk as [[<- _]|[_ Hk]]; [done|].
    apply lookup_singleton_Some in Hk as [<- _]. done.
  - destruct (proj2 env_codec_round_trip ["PATH=/bin"; "OPTS=a=b"; "EMPTY="])
      as (m & Hm & _ & Hback).
    + repeat constructor.
    + by apply (bool_decide_unpack _).
    + exists m. split; [exact Hm|]. apply Hback.
      by apply (bool_decide_unpack _).
Defined.

(** The round trip as C6 states it fails on the key "__proto__": the entry
    "__proto__=x" is parsed to the empty dictionary, which is written back
    as the empty list; and the dictionary that binds "__proto__" is written
    as that entry and so parsed back as the empty dictionary. *)
Lemma env_codec_round_trip_counterexample :
  envArrayToObject ["__proto__=x"] = Ok ∅
  ∧ envObjectToArray ∅ = []
  ∧ envObjectToArray {[ "__proto__" := "x" ]} = ["__proto__=x"]
  ∧ ¬ (∀ l : list string,
         Forall (λ e, contains "=" e = true) l →
         NoDup (entry_key <$> l) →
         ∃ m, envArrayToObject l = Ok m ∧ envObjectToArray m ≡ₚ l)
  ∧ ¬ (∀ m : gmap string string,
         (∀ k, is_Some (m !! k) → contains "=" k = false) →
         envArrayToObject (envObjectToArray m) = Ok m).
Proof.
  split_and!; [done|done|done| |].
  - intros Hall. destruct (Hall ["__proto__=x"]) as (m & Hm & Hback).
    + repeat constructor.
    + repeat constructor. set_solver.
    + injection Hm as <-. by apply Permutation_nil_cons in Hback.
  - intros Hall. specialize (Hall {[ "__proto__" := "x" ]}).
    assert (envArrayToObject (envObjectToArray {[ "__proto__" := "x" ]})
            = Ok (∅ : gmap string string)) as Hempty by done.
    rewrite Hall in Hempty.
    + assert (({[ "__proto__" := "x" ]} : gmap string string) !! "__proto__"
              = (∅ : gmap string string) !! "__proto__") as Hlookup by congruence.
      by rewrite lookup_singleton_eq in Hlookup.
    + intros k [v Hk]. apply lookup_singleton_Some in Hk as [<- _]. done.
Qed.

End EnvCodecSpec.

Module EnvCodecLaws.
Import JsString EnvCodec EnvCodecFacts EnvCodecSpec.

Lemma fromPairs_snoc pairs k v :
  fromPairs (pairs ++ [(k, v)]) = assign (fromPairs pairs) k v.
Proof. unfold fromPairs. by rewrite foldl_app. Qed.

(** Pairs with other keys do not change what a key is bound to. *)
Lemma fromPairs_app_lookup pairs later k :
  k ∉ later.*1 → fromPairs (pairs ++ later) !! k = fromPairs pairs !! k.
Proof.
  induction later as [|[k' v'] later IH] using rev_ind; intros Hk.
  - by rewrite (right_id_L [] (++)).
  - rewrite fmap_app, not_elem_of_app in Hk. destruct Hk as [Hlater Hk'].
    simpl in Hk'. rewrite list_elem_of_singleton in Hk'.
    rewrite (assoc_L (++)), fromPairs_snoc. unfold assign.
    case_decide; [by apply IH|].
    rewrite lookup_insert_ne by done. by apply IH.
Qed.

Lemma fromPairs_dom pairs :
  dom (fromPairs pairs) =@{gset string} list_to_set pairs.*1 ∖ {[ "__proto__" ]}.
Proof.
  induction pairs as [|[k v] pairs IH] using rev_ind; [set_solver|].
  rewrite fromPairs_snoc, fmap_app, list_to_set_app_L. unfold assign. simpl.
  case_decide; [|rewrite dom_insert_L]; set_solver.
Qed.

Lemma fromPairs_size pairs : (size (fromPairs pairs) ≤ length pairs)%nat.
Proof.
  induction pairs as [|[k v] pairs IH] using rev_ind; [done|].
  rewrite fromPairs_snoc, length_app. unfold assign. simpl.
  case_decide; [lia|].
  pose proof (map_size_insert k v (fromPairs pairs)) as Hsize.
  destruct (fromPairs pairs !! k); simpl in Hsize; lia.
Qed.

Lemma well_formed_of_Ok l m :
  envArrayToObject l = Ok m → Forall (λ e, contains "=" e = true) l.
Proof.
  intros Hm. apply Forall_forall. intros e He.
  destruct (contains "=" e) eqn:Hc; [done|].
  assert (is_Ok (envArrayToObject l) = false) as Hfail.
  { apply envArrayToObject_fails. eauto. }
  by rewrite Hm in Hfail.
Qed.

(** X1: when several entries of the list have the same key, the last one
    wins, and the key "__proto__" is never bound.  In a list whose other
    entries are well formed, an entry [k=v] that no later entry has the key
    of binds [k] to [v] in the parsed dictionary, whatever earlier entries
    say about [k], unless [k] is "__proto__"; that key is bound to nothing. *)
Theorem envArrayToObject_last_entry_wins (before after : list string) (k v : string) :
  Forall (λ e, contains "=" e = true) (before ++ after) →
  contains "=" k = false →
  Forall (λ e, entry_key e ≠ k) after →
  ∃ o, envArrayToObject (before ++ (k +:+ "=" +:+ v) :: after) = Ok o
       ∧ (k ≠ "__proto__" → o !! k = Some v)
       ∧ o !! "__proto__" = None.
Proof.
  intros [Hbefore Hafter]%Forall_app Hk Hlater.
  destruct (parsed_entries before Hbefore) as (ps & Hps & _ & _).
  destruct (parsed_entries after Hafter) as (qs & Hqs & _ & Hkeys).
  assert (map_throwing env_entry (before ++ (k +:+ "=" +:+ v) :: after)
          = Ok (ps ++ (k, v) :: qs)) as Hall.
  { apply map_throwing_Ok. apply map_throwing_Ok in Hps, Hqs.
    apply Forall2_app; [done|]. constructor; [|done].
    by apply (env_entry_ok k v). }
  exists (fromPairs (ps ++ (k, v) :: qs)). unfold envArrayToObject. rewrite Hall.
  split_and!; [done| |].
  - intros Hproto.
    change (ps ++ (k, v) :: qs) with (ps ++ [(k, v)] ++ qs).
    rewrite (assoc_L (++)), fromPairs_app_lookup.
    + rewrite fromPairs_snoc. unfold assign. rewrite decide_False by done.
      by rewrite lookup_insert_eq.
    + rewrite Hkeys. intros (e & -> & He)%list_elem_of_fmap.
      rewrite Forall_forall in Hlater. by apply (Hlater e).
  - apply not_elem_of_dom. rewrite fromPairs_dom. set_solver.
Qed.

Lemma envArrayToObject_last_entry_wins_witness :
  ∃ o, envArrayToObject (["PATH=/bin"; "A=old"] ++ ("A" +:+ "=" +:+ "new") :: ["B=1"]) = Ok o
       ∧ o !! "A" = Some "new".
Proof.
  destruct (envArrayToObject_last_entry_wins ["PATH=/bin"; "A=old"] ["B=1"] "A" "new")
    as (o & Ho & Hlast & _).
  - repeat constructor.
  - reflexivity.
  - repeat constructor. by vm_compute.
  - exists o. split; [exact Ho|]. by apply Hlast.
Defined.

(** X2: the keys of the parsed dictionary are exactly the parts of the
    entries before their first '=', "__proto__" left out; so no key of it
    contains a '=' (the empty key is possible), and it has at most as many
    keys as the list has entries. *)
Theorem envArrayToObject_keys (envArray : list string) (o : gmap string string) :
  envArrayToObject envArray = Ok o →
  dom o =@{gset string} list_to_set (entry_key <$> envArray) ∖ {[ "__proto__" ]}
  ∧ (∀ k, is_Some (o !! k) → contains "=" k = false ∧ k ≠ "__proto__")
  ∧ (size o ≤ length envArray)%nat.
Proof.
  intros Ho. pose proof (well_formed_of_Ok _ _ Ho) as Hwf.
  destruct (parsed_entries envArray Hwf) as (pairs & Hp & Hl & Hk).
  unfold envArrayToObject in Ho. rewrite Hp in Ho. injection Ho as <-.
  assert (dom (fromPairs pairs)
          =@{gset string} list_to_set (entry_key <$> envArray) ∖ {[ "__proto__" ]})
    as Hdom.
  { by rewrite fromPairs_dom, Hk. }
  split_and!.
  - done.
  - intros k Hin%elem_of_dom. rewrite Hdom in Hin.
    apply elem_of_difference in Hin as [Hin Hproto].
    rewrite elem_of_list_to_set in Hin.
    apply list_elem_of_fmap in Hin as (e & -> & He). split; [|set_solver].
    apply entry_key_no_equals. rewrite Forall_forall in Hwf. by apply Hwf.
  - etransitivity; [apply fromPairs_size|].
    apply (f_equal length) in Hk. rewrite !length_fmap in Hk. lia.
Qed.

Lemma envArrayToObject_keys_witness :
  ∃ o, envArrayToObject ["A=1"; "B=x=y"; "A=2"; "=v"; "__proto__=p"] = Ok o
       ∧ dom o =@{gset string} {[ "A"; "B"; "" ]}
       ∧ (size o ≤ 5)%nat.
Proof.
  eexists. split; [reflexivity|].
  destruct (envArrayToObject_keys ["A=1"; "B=x=y"; "A=2"; "=v"; "__proto__=p"] _ eq_refl)
    as (Hdom & _ & Hsize).
  split; [|exact Hsize].
  etransitivity; [exact Hdom|]. apply (bool_decide_unpack _). by vm_compute.
Defined.

(** X3: parsing what [envObjectToArray] wrote never throws, whatever the
    dictionary; and it gives the dictionary back exactly when none of its
    keys contains a '=' or is "__proto__".  A key with a '=' is cut at it
    when read back, and "__proto__" is dropped. *)
Theorem envObjectToArray_round_trip_iff (envObject : gmap string string) :
  ∃ o, envArrayToObject (envObjectToArray envObject) = Ok o
       ∧ (o = envObject
          ↔ ∀ k, is_Some (envObject !! k) → contains "=" k = false ∧ k ≠ "__proto__").
Proof.
  assert (Forall (λ e, contains "=" e = true) (envObjectToArray envObject)) as Hwf.
  { rewrite envObjectToArray_lines. apply Forall_fmap, Forall_true.
    intros [k v]. apply contains_entry. }
  destruct (parsed_entries _ Hwf) as (pairs & Hp & _ & Hkeys).
  exists (fromPairs pairs).
  assert (envArrayToObject (envObjectToArray envObject) = Ok (fromPairs pairs)) as Ho.
  { unfold envArrayToObject. by rewrite Hp. }
  split; [done|]. split.
  - intros Heq k Hk. rewrite <- Heq in Hk.
    apply elem_of_dom in Hk. rewrite fromPairs_dom, Hkeys in Hk.
    apply elem_of_difference in Hk as [Hk Hproto].
    rewrite elem_of_list_to_set in Hk.
    apply list_elem_of_fmap in Hk as (e & -> & He). split; [|set_solver].
    apply entry_key_no_equals. rewrite Forall_forall in Hwf. by apply Hwf.
  - intros Hplain. rewrite (round_trip_of_plain_keys _ Hplain) in Ho. by injection Ho.
Qed.

(** X4: [envObjectToArray] writes one line per binding of the dictionary and
    nothing else: every line is [k=v] for a binding of [k] to [v] (the
    "undefined" of a missing property never shows up), every binding has its
    line, and every line has a '='. *)
Theorem envObjectToArray_lines_are_bindings (envObject : gmap string string) :
  length (envObjectToArray envObject) = size envObject
  ∧ (∀ e, e ∈ envObjectToArray envObject
          ↔ ∃ k v, envObject !! k = Some v ∧ e = k +:+ "=" +:+ v)
  ∧ Forall (λ e, contains "=" e = true) (envObjectToArray envObject).
Proof.
  rewrite envObjectToArray_lines. split_and!.
  - by rewrite length_fmap, length_map_to_list.
  - intros e. rewrite list_elem_of_fmap. split.
    + intros ([k v] & -> & Hkv%elem_of_map_to_list). eauto.
    + intros (k & v & Hkv & ->). exists (k, v). by rewrite elem_of_map_to_list.
  - apply Forall_fmap, Forall_true. intros [k v]. apply contains_entry.
Qed.

End EnvCodecLaws.

Module PosixFacts.
Import Posix JsStringFacts.

Lemma split_nonempty path : split path ≠ [].
Proof.
  destruct path as [|c rest]; simpl; [done|].
  case_decide; [done|]. by destruct (split rest).
Qed.

Lemma split_cons c rest :
  c ≠ "/"%char →
  ∃ seg segs, split rest = seg :: segs ∧ split (String c rest) = String c seg :: segs.
Proof.
  intros Hc. simpl. rewrite decide_False by done.
  destruct (split rest) as [|seg segs] eqn:E; [by apply split_nonempty in E|eauto].
Qed.

Lemma split_app_slash a b : split (a +:+ "/" +:+ b) = split a ++ split b.
Proof.
  induction a as [|c a IH]; [done|].
  rewrite app_cons. destruct (decide (c = "/"%char)) as [->|Hc].
  - simpl. by rewrite IH.
  - destruct (split_cons c a Hc) as (seg & segs & E1 & ->).
    destruct (split_cons c (a +:+ "/" +:+ b) Hc) as (seg' & segs' & E2 & ->).
    rewrite IH, E1 in E2. by injection E2 as <- <-.
Qed.

Lemma join_segments_cons seg seg' segs :
  join_segments (seg :: seg' :: segs) = seg +:+ "/" +:+ join_segments (seg' :: segs).
Proof. done. Qed.

Lemma join_split path : join_segments (split path) = path.
Proof.
  induction path as [|c rest IH]; [done|].
  destruct (decide (c = "/"%char)) as [->|Hc].
  - change (split (String "/" rest)) with ("" :: split rest).
    destruct (split rest) as [|seg segs] eqn:E; [by apply split_nonempty in E|].
    by rewrite join_segments_cons, IH.
  - destruct (split_cons c rest Hc) as (seg & segs & E & ->). rewrite E in IH.
    destruct segs as [|seg' segs]; [by rewrite <- IH|].
    rewrite join_segments_cons in *. by rewrite <- IH.
Qed.

Lemma join_segments_app segs segs' :
  segs ≠ [] → segs' ≠ [] →
  join_segments (segs ++ segs') = join_segments segs +:+ "/" +:+ join_segments segs'.
Proof.
  intros Hs Hs'. induction segs as [|seg segs IH]; [done|].
  destruct segs as [|seg2 segs].
  - destruct segs'; [done|]. done.
  - change ((seg :: seg2 :: segs) ++ segs') with (seg :: seg2 :: (segs ++ segs')).
    rewrite !join_segments_cons. change (seg2 :: segs ++ segs') with ((seg2 :: segs) ++ segs').
    rewrite IH by done. by rewrite !app_assoc.
Qed.

Lemma split_only_empty path : split path = [""] → path = "".
Proof.
  destruct path as [|c rest]; [done|]. destruct (decide (c = "/"%char)) as [->|Hc].
  - simpl. intros [= E]. by apply split_nonempty in E.
  - destruct (split_cons c rest Hc) as (seg & segs & _ & ->). done.
Qed.

Lemma ends_with_slash_last path :
  ends_with_slash path = true → last (split path) = Some "".
Proof.
  induction path as [|c rest IH]; [done|].
  destruct rest as [|c' rest'].
  - simpl. intros ->%bool_decide_eq_true. done.
  - intros Hrest. change (ends_with_slash (String c' rest') = true) in Hrest.
    specialize (IH Hrest). destruct (decide (c = "/"%char)) as [->|Hc].
    + change (split (String "/" (String c' rest'))) with ("" :: split (String c' rest')).
      destruct (split (String c' rest')) eqn:E; [by apply split_nonempty in E|done].
    + destruct (split_cons c (String c' rest') Hc) as (seg & segs & E & ->).
      rewrite E in IH. destruct segs as [|seg' segs]; [|done].
      injection IH as ->. by apply split_only_empty in E.
Qed.

Lemma ends_with_slash_app a b : b ≠ "" → ends_with_slash (a +:+ b) = ends_with_slash b.
Proof.
  intros Hb. induction a as [|c a IH]; [done|].
  rewrite app_cons. simpl. rewrite IH.
  destruct (a +:+ b) eqn:E; [|done]. destruct a; [done|]. done.
Qed.

(** Segments that are file names pass through normalisation untouched. *)
Lemma normalize_segments_file_names allowAboveRoot segs acc :
  Forall (λ seg, seg ≠ "" ∧ seg ≠ "." ∧ seg ≠ "..") segs →
  normalize_segments allowAboveRoot segs acc = reverse acc ++ segs.
Proof.
  intros Hsegs. revert acc.
  induction Hsegs as [|seg segs (H1 & H2 & H3) _ IH]; intros acc; simpl.
  - by rewrite (right_id [] (++)).
  - rewrite decide_False by tauto. rewrite decide_False by done.
    by rewrite IH, reverse_cons, <- (assoc_L (++)).
Qed.

End PosixFacts.

Module ArchiveSpec.
Import Posix PosixFacts JsStringFacts Archive.

Lemma overrides_path_value :
  HTTP_TOOLKIT_INJECTED_OVERRIDES_PATH = "/http-toolkit-injections/overrides".
Proof. reflexivity. Qed.

Lemma ca_path_value : HTTP_TOOLKIT_INJECTED_CA_PATH = "/http-toolkit-injections/ca.pem".
Proof. reflexivity. Qed.

Lemma file_names_spec segs :
  forallb is_file_name segs = true →
  Forall (λ seg, seg ≠ "" ∧ seg ≠ "." ∧ seg ≠ "..") segs.
Proof.
  induction segs as [|seg segs IH]; simpl; [constructor|].
  intros [Hseg Hsegs]%andb_prop. constructor; [|by apply IH].
  by apply bool_decide_eq_true in Hseg.
Qed.

(** Below the overrides root, joining a walk path just appends it. *)
Lemma join_walk_path path :
  is_walk_path path = true →
  Posix.join HTTP_TOOLKIT_INJECTED_OVERRIDES_PATH path
  = if decide (path = ".") then HTTP_TOOLKIT_INJECTED_OVERRIDES_PATH
    else HTTP_TOOLKIT_INJECTED_OVERRIDES_PATH +:+ "/" +:+ path.
Proof.
  unfold is_walk_path. case_decide as Hdot; [by subst|].
  rewrite bool_decide_eq_false_2 by done. simpl. intros Hsegs%file_names_spec.
  assert (path ≠ "") as Hne.
  { intros ->. by inversion Hsegs as [|?? []]. }
  rewrite overrides_path_value.
  set (root := "/http-toolkit-injections/overrides").
  assert (Posix.join root path = normalize (root +:+ "/" +:+ path)) as ->.
  { by destruct path. }
  unfold normalize. rewrite decide_False by done.
  assert (starts_with_slash (root +:+ "/" +:+ path) = true) as -> by done.
  assert (ends_with_slash (root +:+ "/" +:+ path) = false) as ->.
  { rewrite ends_with_slash_app by by destruct path.
    change ("/" +:+ path) with ("" +:+ "/" +:+ path).
    destruct (ends_with_slash _) eqn:E; [|done].
    apply ends_with_slash_last in E. rewrite split_app_slash in E.
    rewrite last_app in E. destruct (last (split path)) as [seg|] eqn:El.
    - injection E as ->. apply last_Some in El as (segs & El). rewrite El in Hsegs.
      apply Forall_app in Hsegs as [_ Hlast]. by inversion Hlast as [|?? []].
    - apply last_None in El. by apply split_nonempty in El. }
  rewrite split_app_slash. simpl negb.
  change (split root) with ([""] ++ ["http-toolkit-injections"; "overrides"]).
  rewrite <- (assoc_L (++)).
  change ([""] ++ ?l) with ("" :: l).
  assert (∀ l, normalize_segments false ("" :: l) [] = normalize_segments false l []) as ->.
  { done. }
  rewrite normalize_segments_file_names.
  2:{ apply Forall_app. split.
      - repeat constructor; done.
      - done. }
  change (reverse [] ++ ?l) with l.
  rewrite join_segments_app; [|done|apply split_nonempty].
  rewrite join_split.
  rewrite decide_False by done. done.
Qed.

Lemma entries_fold (f : Header → Header) listing pack :
  finalized pack = false →
  foldl (λ pack fileEntry, entry (f fileEntry.1) fileEntry.2 pack) pack listing
  = {| entries := entries pack ++ ((λ e : Header * string, (f e.1, e.2)) <$> listing);
       finalized := false |}.
Proof.
  revert pack. induction listing as [|[h c] listing IH]; intros [es fin]; simpl; intros ->.
  - by rewrite (right_id [] (++)).
  - rewrite IH by done. simpl. by rewrite <- (assoc_L (++)).
Qed.

Lemma packInterceptionFiles_entries overrides certContent :
  packInterceptionFiles overrides certContent
  = {| entries := ((λ e : Header * string, (map_header e.1, e.2)) <$> overrides)
                  ++ [(ca_header, certContent)];
       finalized := true |}.
Proof.
  unfold packInterceptionFiles, tarFs_pack. simpl.
  by rewrite entries_fold.
Qed.

Lemma filter_none {A} (P : A → Prop) `{∀ x, Decision (P x)} (l : list A) :
  Forall (λ x, ¬ P x) l → filter P l = [].
Proof. induction 1; [done|]. by rewrite filter_cons_False. Qed.

(** C4: for every listing of the overrides directory (paths as a directory
    walk yields them) and every certificate, the archive consists of the
    directory entries in order, followed by one entry at the injected CA path
    holding the certificate, and is finalized after that entry was written.
    No other entry is at the CA path; every other entry keeps its content,
    has its path moved under the injected overrides root, is owned by uid 0
    and gid 0, and has mode 0555: read and execute for everybody, no write
    bit at all. *)
Theorem packInterceptionFiles_layout
    (overrides : list (Header * string)) (certContent : string) :
  Forall (λ e : Header * string, is_walk_path (name e.1) = true) overrides →
  ∃ packed,
    packInterceptionFiles overrides certContent
      = {| entries := packed ++ [(ca_header, certContent)]; finalized := true |}
    ∧ name ca_header = "/http-toolkit-injections/ca.pem"
    ∧ filter (λ e : Header * string, name e.1 = HTTP_TOOLKIT_INJECTED_CA_PATH)
             (entries (packInterceptionFiles overrides certContent))
      = [(ca_header, certContent)]
    ∧ Forall2 (λ (original e : Header * string),
         e.2 = original.2
         ∧ (∃ rest, name e.1 = HTTP_TOOLKIT_INJECTED_OVERRIDES_PATH +:+ rest)
         ∧ uid e.1 = Some 0 ∧ gid e.1 = Some 0
         ∧ mode e.1 = Some (Int S_IRXUGO)
         ∧ Z.land S_IRXUGO S_IWUGO = 0)
       overrides packed.
Proof.
  intros Hwalk.
  exists ((λ e : Header * string, (map_header e.1, e.2)) <$> overrides).
  assert (Forall2 (λ (original e : Header * string),
         e.2 = original.2
         ∧ (∃ rest, name e.1 = HTTP_TOOLKIT_INJECTED_OVERRIDES_PATH +:+ rest)
         ∧ uid e.1 = Some 0 ∧ gid e.1 = Some 0
         ∧ mode e.1 = Some (Int S_IRXUGO)
         ∧ Z.land S_IRXUGO S_IWUGO = 0)
       overrides ((λ e : Header * string, (map_header e.1, e.2)) <$> overrides)) as Hall.
  { apply Forall2_fmap_r, Forall_Forall2_diag.
    eapply Forall_impl; [exact Hwalk|]. intros [h c] Hh. simpl in *.
    split_and!; try done.
    rewrite join_walk_path by done. case_decide.
    - exists "". by rewrite app_nil_r.
    - eauto. }
  rewrite packInterceptionFiles_entries. split_and!; [done|done| |done].
  simpl. rewrite filter_app, filter_none; [by rewrite filter_cons_True|].
  eapply Forall2_Forall_r; [exact Hall|]. apply Forall_true.
  intros orig e (_ & (rest & Hn) & _). rewrite Hn.
  by rewrite overrides_path_value, ca_path_value.
Qed.

Lemma packInterceptionFiles_layout_witness :
  ∃ packed,
    packInterceptionFiles
      [ ({| name := "."; mode := Some (Int 493); uid := Some 1000; gid := Some 1000;
            type := Some Directory |}, "");
        ({| name := "path/node"; mode := Some (Int 420); uid := Some 1000;
            gid := Some 1000; type := Some File |}, "#!/bin/sh") ]
      "-----BEGIN CERTIFICATE-----"
      = {| entries := packed ++ [(ca_header, "-----BEGIN CERTIFICATE-----")];
           finalized := true |}
    ∧ length packed = 2%nat.
Proof.
  destruct (packInterceptionFiles_layout
    [ ({| name := "."; mode := Some (Int 493); uid := Some 1000; gid := Some 1000;
          type := Some Directory |}, "");
      ({| name := "path/node"; mode := Some (Int 420); uid := Some 1000;
          gid := Some 1000; type := Some File |}, "#!/bin/sh") ]
    "-----BEGIN CERTIFICATE-----") as (packed & Hpack & _ & _ & Hall).
  - repeat constructor.
  - exists packed. split; [exact Hpack|].
    symmetry. exact (Forall2_length _ _ _ Hall).
Defined.

End ArchiveSpec.

Module ArchiveLaws.
Import Posix PosixFacts Archive ArchiveSpec.

Lemma app_length_neq (s t : string) : t ≠ "" → s ≠ s +:+ t.
Proof.
  intros Ht E. apply (f_equal String.length) in E.
  rewrite JsStringFacts.length_app in E. destruct t; [done|]. simpl in E. lia.
Qed.

(** Distinct walk paths land on distinct archive paths. *)
Lemma join_walk_path_inj a b :
  is_walk_path a = true → is_walk_path b = true →
  Posix.join HTTP_TOOLKIT_INJECTED_OVERRIDES_PATH a
  = Posix.join HTTP_TOOLKIT_INJECTED_OVERRIDES_PATH b →
  a = b.
Proof.
  intros Ha Hb. rewrite !join_walk_path by done.
  destruct (decide (a = ".")) as [->|Ha'], (decide (b = ".")) as [->|Hb']; intros E.
  - done.
  - by apply app_length_neq in E.
  - symmetry in E. by apply app_length_neq in E.
  - apply (inj _) in E. by injection E.
Qed.

Lemma join_walk_path_not_ca a :
  is_walk_path a = true →
  Posix.join HTTP_TOOLKIT_INJECTED_OVERRIDES_PATH a ≠ HTTP_TOOLKIT_INJECTED_CA_PATH.
Proof.
  intros Ha. rewrite join_walk_path by done. case_decide; [done|].
  by rewrite overrides_path_value, ca_path_value.
Qed.

(** X5: packing keeps paths apart.  When the paths of the listing (as a
    directory walk yields them) are pairwise distinct, so are the paths of
    all the entries of the archive, the certificate's included: no override
    file hides another one or the certificate. *)
Theorem packInterceptionFiles_keeps_paths_apart
    (overrides : list (Header * string)) (certContent : string) :
  Forall (λ e : Header * string, is_walk_path (name e.1) = true) overrides →
  NoDup ((λ e : Header * string, name e.1) <$> overrides) →
  NoDup ((λ e : Header * string, name e.1)
           <$> entries (packInterceptionFiles overrides certContent)).
Proof.
  intros Hwalk Hnodup. rewrite packInterceptionFiles_entries. simpl.
  rewrite fmap_app. apply NoDup_app. split_and!.
  - rewrite <- list_fmap_compose.
    induction Hwalk as [|[h c] overrides Hh Hwalk IH]; [constructor|].
    rewrite fmap_cons in *. apply NoDup_cons in Hnodup as [Hfresh Hnodup].
    constructor; [|by apply IH].
    intros ([h' c'] & E & Hin)%list_elem_of_fmap. simpl in *.
    assert (is_walk_path (name h') = true) as Hh'.
    { rewrite Forall_forall in Hwalk. exact (Hwalk _ Hin). }
    apply (join_walk_path_inj _ _ Hh Hh') in E.
    apply Hfresh. apply list_elem_of_fmap. by exists (h', c').
  - intros path (packed & -> & Hpacked)%list_elem_of_fmap E%list_elem_of_singleton.
    apply list_elem_of_fmap in Hpacked as ([h c] & -> & Hin). simpl in E.
    rewrite Forall_forall in Hwalk. by apply (join_walk_path_not_ca _ (Hwalk _ Hin)).
  - apply NoDup_singleton.
Qed.

Lemma packInterceptionFiles_keeps_paths_apart_witness :
  NoDup ((λ e : Header * string, name e.1)
           <$> entries (packInterceptionFiles
                 [ ({| name := "."; mode := None; uid := None; gid := None;
                       type := Some Directory |}, "");
                   ({| name := "path"; mode := None; uid := None; gid := None;
                       type := Some Directory |}, "");
                   ({| name := "path/node"; mode := None; uid := None; gid := None;
                       type := Some File |}, "#!/bin/sh") ] "CERT")).
Proof.
  apply packInterceptionFiles_keeps_paths_apart.
  - repeat constructor.
  - apply (bool_decide_unpack _). by vm_compute.
Defined.

(** X6: the owner, the group and the permission bits of the files of the
    overrides directory never reach the archive.  Two listings that differ
    only in these three header fields of their entries (same paths, same
    entry types, same contents) are packed to the same archive. *)
Theorem packInterceptionFiles_ignores_source_ownership
    (overrides overrides' : list (Header * string)) (certContent : string) :
  Forall2 (λ e e' : Header * string,
             name e.1 = name e'.1 ∧ type e.1 = type e'.1 ∧ e.2 = e'.2)
          overrides overrides' →
  packInterceptionFiles overrides certContent
  = packInterceptionFiles overrides' certContent.
Proof.
  intros Hsame. rewrite !packInterceptionFiles_entries. do 2 f_equal.
  induction Hsame as [|[h c] [h' c'] l l' (Hn & Ht & Hc) _ IH]; [done|].
  rewrite !fmap_cons, IH. simpl in *. unfold map_header. by rewrite Hn, Ht, Hc.
Qed.

Lemma packInterceptionFiles_ignores_source_ownership_witness :
  packInterceptionFiles
    [ ({| name := "path/node"; mode := Some (Int 420); uid := Some 1000;
          gid := Some 1000; type := Some File |}, "#!/bin/sh") ] "CERT"
  = packInterceptionFiles
      [ ({| name := "path/node"; mode := Some (Int 511); uid := Some 0;
            gid := None; type := Some File |}, "#!/bin/sh") ] "CERT".
Proof.
  apply packInterceptionFiles_ignores_source_ownership.
  repeat constructor.
Defined.

End ArchiveLaws.

Module AsyncFacts.
Import Docker Async.

Section WithEngine.
Context `{Engine}.

Lemma run_bind_raw {A B} (p : Prog A) (f : A → Prog B) s :
  run (bind p f) s = and_then (run p s) (λ a, run (f a)).
Proof.
  revert B f s.
  induction p as [A a|A e|A c k IH|A b k IH|A task _ k IH|A n k IH];
    intros B f s; simpl.
  - unfold and_then. simpl. by destruct (run (f a) s).
  - done.
  - rewrite IH. unfold and_then, after. simpl. by destruct (settled _).
  - destruct b; rewrite IH; unfold and_then, after; simpl; by destruct (settled _).
  - rewrite IH. unfold and_then, spawning. simpl. by destruct (settled _).
  - by rewrite IH.
Qed.

Lemma run_bind {A B} (p : Prog A) (f : A → Prog B) s :
  run (p ≫= f) s = and_then (run p s) (λ a, run (f a)).
Proof. apply run_bind_raw. Qed.

Lemma run_settle {A B} (p : Prog A) (k : result A → Prog B) s :
  run (settle p k) s = and_finally (run p s) (λ r, run (k r)).
Proof.
  revert B k s.
  induction p as [A a|A e|A c k' IH|A b k' IH|A task _ k' IH|A n k' IH];
    intros B k s; simpl.
  - unfold and_finally. simpl. by destruct (run (k (Ok a)) s).
  - unfold and_finally. simpl. by destruct (run (k (Throw e)) s).
  - by rewrite IH.
  - destruct b; by rewrite IH.
  - by rewrite IH.
  - by rewrite IH.
Qed.

(** How the trace readers go through a trace. *)
Lemma calls_nil : calls [] = [].
Proof. done. Qed.
Lemma calls_call c r evs : calls (EvCall c r :: evs) = c :: calls evs.
Proof. done. Qed.
Lemma calls_acquire evs : calls (EvAcquire :: evs) = calls evs.
Proof. done. Qed.
Lemma calls_release evs : calls (EvRelease :: evs) = calls evs.
Proof. done. Qed.
Lemma calls_app evs evs' : calls (evs ++ evs') = calls evs ++ calls evs'.
Proof. apply omap_app. Qed.

Lemma failures_nil : failures [] = [].
Proof. done. Qed.
Lemma failures_ok c v evs : failures (EvCall c (Ok v) :: evs) = failures evs.
Proof. done. Qed.
Lemma failures_throw c e evs : failures (EvCall c (Throw e) :: evs) = (c, e) :: failures evs.
Proof. done. Qed.
Lemma failures_acquire evs : failures (EvAcquire :: evs) = failures evs.
Proof. done. Qed.
Lemma failures_release evs : failures (EvRelease :: evs) = failures evs.
Proof. done. Qed.
Lemma failures_app evs evs' : failures (evs ++ evs') = failures evs ++ failures evs'.
Proof. apply omap_app. Qed.

Lemma snapshots_nil : snapshots [] = [].
Proof. done. Qed.
Lemma snapshots_cons ev evs :
  snapshots (ev :: evs) = option_list (snapshot_of ev) ++ snapshots evs.
Proof. unfold snapshots. simpl. by destruct (snapshot_of ev). Qed.
Lemma snapshots_app evs evs' : snapshots (evs ++ evs') = snapshots evs ++ snapshots evs'.
Proof. apply omap_app. Qed.

Lemma creations_nil : creations [] = [].
Proof. done. Qed.
Lemma creations_cons ev evs :
  creations (ev :: evs) = option_list (creation_of ev) ++ creations evs.
Proof. unfold creations. simpl. by destruct (creation_of ev). Qed.
Lemma creations_app evs evs' : creations (evs ++ evs') = creations evs ++ creations evs'.
Proof. apply omap_app. Qed.

Lemma events_of_calls evs cmds : events_of evs cmds → calls evs = cmds.
Proof. induction 1 as [|?? ?? [r ->] _ IH]; [done|]. simpl. by rewrite <- IH. Qed.

Lemma failures_calls evs c e : (c, e) ∈ failures evs → c ∈ calls evs.
Proof.
  induction evs as [|[c' [v|e']| |] evs IH]; simpl; [by intros ?%elem_of_nil| | |done..].
  - intros ?. right. by apply IH.
  - intros [[= -> ->]|?]%elem_of_cons; [by left|]. right. by apply IH.
Qed.

(** *** Sequences of requests *)

Lemma answers_app s cmds cmds' :
  answers s (cmds ++ cmds') = answers s cmds ++ answers (after_all s cmds) cmds'.
Proof.
  revert s. induction cmds as [|c cmds IH]; intros s; [done|].
  simpl. by rewrite IH.
Qed.

Lemma after_all_cons s c cmds :
  after_all s (c :: cmds) = after_all (step s c).1 cmds.
Proof. done. Qed.

Lemma after_all_app s cmds cmds' :
  after_all s (cmds ++ cmds') = after_all (after_all s cmds) cmds'.
Proof. apply foldl_app. Qed.

Lemma answers_events_of s cmds : events_of (answers s cmds) cmds.
Proof.
  revert s. induction cmds as [|c cmds IH]; intros s; constructor; [by eexists|apply IH].
Qed.

(** *** Pools at rest *)

Lemma resting_nil fuel pool : resting fuel [] pool ↔ pool = Idle.
Proof. by destruct fuel. Qed.

Lemma resting_perm fuel tasks tasks' pool :
  tasks ≡ₚ tasks' → resting fuel tasks pool → resting fuel tasks' pool.
Proof.
  intros Hperm Hrest. destruct tasks as [|task tasks].
  { apply Permutation_nil_l in Hperm. by subst tasks'. }
  destruct tasks' as [|task' tasks'].
  { by apply Permutation_nil_r in Hperm. }
  destruct fuel as [|fuel]; [done|].
  destruct Hrest as (deliver & -> & Hdeliver).
  exists deliver. split; [by rewrite Hperm|].
  intros i Hi. rewrite <- Hperm in Hi.
  destruct (Hdeliver i Hi) as (w & others & Hw & Hgo).
  exists w, others. split; [by rewrite <- Hperm|done].
Qed.

Lemma resting_cons fuel task tasks pool :
  resting (S fuel) (task :: tasks) pool
  ↔ ∃ deliver,
      pool = Waiting (S (length tasks)) deliver
      ∧ ∀ i, (i < S (length tasks))%nat →
          ∃ w others,
            task :: tasks ≡ₚ w :: others
            ∧ match w.1 with
              | [] => ∃ rest, deliver i = Settles w.2 rest ∧ resting fuel others rest
              | c :: todo =>
                  ∃ k, deliver i = Sends c k
                       ∧ ∀ r, resting fuel ((todo, w.2) :: others) (k r)
              end.
Proof. done. Qed.

Lemma resting_mono fuel fuel' tasks pool :
  (fuel ≤ fuel')%nat → resting fuel tasks pool → resting fuel' tasks pool.
Proof.
  revert fuel' tasks pool. induction fuel as [|fuel IH]; intros fuel' tasks pool Hle Hrest.
  { destruct tasks; [|done]. by apply resting_nil. }
  destruct tasks as [|task tasks]; [by apply resting_nil|].
  destruct fuel' as [|fuel']; [lia|].
  apply resting_cons in Hrest as (deliver & -> & Hdeliver).
  apply resting_cons. exists deliver. split; [done|]. intros i Hi.
  destruct (Hdeliver i Hi) as (w & others & Hw & Hgo).
  exists w, others. split; [done|].
  destruct (w.1) as [|c todo].
  - destruct Hgo as (rest & ? & ?). exists rest. split; [done|]. apply IH; [lia|done].
  - destruct Hgo as (k & ? & ?). exists k. split; [done|]. intros r. apply IH; [lia|done].
Qed.

(** One more task joins a pool at rest. *)
Lemma join_resting resume todo final fuel tasks pool n :
  (fuel + length todo ≤ n)%nat →
  implements resume todo final →
  resting fuel tasks pool →
  resting (S n) ((todo, final) :: tasks) (join resume pool).
Proof.
  revert resume todo fuel tasks pool.
  induction n as [|n IH]; intros resume todo fuel tasks pool Hle Hresume Hrest.
  all: destruct tasks as [|task tasks].
  all: try (apply resting_nil in Hrest; subst pool).
  all: try (destruct fuel as [|fuel]; [done|];
            apply resting_cons in Hrest as (deliver & -> & Hdeliver)).
  all: apply resting_cons; cbn [join length]; eexists; (split; [done|]).
  - intros i _. exists (todo, final), []. split; [done|]. cbn [fst snd].
    destruct todo as [|c todo]; [|simpl in Hle; lia].
    exists Idle. split; [apply Hresume|done].
  - simpl in Hle. lia.
  - intros i _. exists (todo, final), []. split; [done|]. cbn [fst snd].
    destruct todo as [|c todo].
    + exists Idle. split; [apply Hresume|by apply resting_nil].
    + destruct (Hresume Idle) as (k & -> & Hk). exists k. split; [done|].
      intros r. destruct (Hk r) as (resume' & -> & Hresume').
      apply (IH resume' todo 0%nat); [simpl in *; lia|done|done].
  - intros [|i] Hi.
    + exists (todo, final), (task :: tasks). split; [done|]. cbn [fst snd].
      destruct todo as [|c todo].
      * eexists. split; [apply Hresume|].
        apply (resting_mono (S fuel)); [simpl in *; lia|].
        apply resting_cons. by exists deliver.
      * destruct (Hresume (Waiting (S (length tasks)) deliver)) as (k & -> & Hk).
        exists k. split; [done|].
        intros r. destruct (Hk r) as (resume' & -> & Hresume').
        apply (IH resume' todo (S fuel)); [simpl in *; lia|done|].
        apply resting_cons. by exists deliver.
    + assert (i < S (length tasks))%nat as Hi' by (simpl in *; lia).
      destruct (Hdeliver i Hi') as (w & others & Hw & Hgo).
      exists w, ((todo, final) :: others). split.
      { rewrite Hw. apply Permutation_swap. }
      destruct w as [[|c' todo'] final']; cbn [fst snd] in *.
      * destruct Hgo as (rest & -> & Hrest). eexists. split; [done|].
        apply (IH resume todo fuel); [lia|done|done].
      * destruct Hgo as (k & -> & Hk). eexists. split; [done|].
        intros r. eapply resting_perm; [apply Permutation_swap|].
        apply (IH resume todo fuel); [lia|done|done].
Qed.

Lemma join_Resting resume todo final tasks pool :
  implements resume todo final →
  Resting tasks pool →
  Resting ((todo, final) :: tasks) (join resume pool).
Proof.
  intros Hresume [fuel Hrest]. eexists.
  by apply (join_resting resume todo final fuel tasks pool (fuel + length todo)).
Qed.

(** Awaiting a pool at rest: requests still to be sent go out, in some
    order; the outcome is a success exactly when every task settles well,
    and otherwise the error of one of the tasks. *)
Lemma run_resting fuel tasks pool s :
  resting fuel tasks pool →
  let o := run (all_settled pool) s in
  ∃ order,
    events o = answers s order
    ∧ state o = after_all s order
    ∧ order ⊆+ mjoin tasks.*1
    ∧ (settled o = Ok tt →
         order ≡ₚ mjoin tasks.*1
         ∧ Forall (λ task, task.2 = Ok tt) tasks
         ∧ detached o = [])
    ∧ (∀ e, settled o = Throw e → ∃ todo, (todo, Throw e) ∈ tasks).
Proof.
  revert tasks pool s. induction fuel as [|fuel IH]; intros tasks pool s Hrest.
  { destruct tasks; [|done]. simpl in Hrest. subst pool.
    exists []. simpl. by split_and!. }
  destruct tasks as [|task tasks].
  { simpl in Hrest. subst pool. exists []. simpl. by split_and!. }
  apply resting_cons in Hrest as (deliver & -> & Hdeliver). cbn [all_settled run].
  match goal with |- context [deliver ?j] => set (i := j) end.
  destruct (Hdeliver i) as ([[|c todo] final] & others & Hperm & Hgo).
  { apply Nat.mod_upper_bound. done. }
  - cbn [fst snd] in Hgo. destruct Hgo as (rest & -> & Hrest).
    destruct final as [[]|e]; cbn [all_settled].
    + destruct (IH others rest s Hrest) as (order & Hev & Hst & Hsub & Hok & Herr).
      exists order. split_and!; [done|done| | |].
      * rewrite Hperm. simpl. done.
      * intros Hsettled. destruct (Hok Hsettled) as (Horder & Hall & Hdet).
        split_and!; [by rewrite Hperm|rewrite Hperm; by constructor|done].
      * intros e Hsettled. destruct (Herr e Hsettled) as (todo & Hin).
        exists todo. rewrite Hperm. by right.
    + exists []. cbn [run spawning events state settled detached].
      split_and!; [done|done|apply submseteq_nil_l|done|].
      intros e' [= <-]. exists []. rewrite Hperm. by left.
  - cbn [fst snd] in Hgo. destruct Hgo as (k & -> & Hk). cbn [all_settled run].
    destruct (IH _ _ (step s c).1 (Hk (step s c).2))
      as (order & Hev & Hst & Hsub & Hok & Herr).
    exists (c :: order). cbn [after events state settled detached].
    split_and!.
    + simpl. by rewrite Hev.
    + done.
    + rewrite Hperm. simpl in *. by apply submseteq_skip.
    + intros Hsettled. destruct (Hok Hsettled) as (Horder & Hall & Hdet).
      rewrite Hperm. simpl in *. split_and!; [by rewrite Horder| |done].
      apply Forall_cons in Hall as [Hfinal Hall]. by constructor.
    + intros e Hsettled. destruct (Herr e Hsettled) as (todo' & Hin).
      apply elem_of_cons in Hin as [[= -> ->]|Hin].
      * exists (c :: todo). rewrite Hperm. by left.
      * exists todo'. rewrite Hperm. by right.
Qed.

(** *** Starting the tasks

    Every task of the list begins with a request, [first x], and goes on as
    [implements] describes, with [todo x] for what it sends then. *)
Lemma run_started {X} (task : X → Prog unit) (first : X → Cmd) (todo : X → list Cmd)
    (final : ∀ x, result (resp (first x)) → result unit) :
  (∀ x, ∃ k, task x = Call (first x) k
             ∧ ∀ r, implements (advance (k r)) (todo x) (final x r)) →
  ∀ xs (context : Pool unit → Pool unit) joined s,
    (∀ c k, context (Sends c k) = Sends c (λ r, context (k r))) →
    (∀ tasks pool, Resting tasks pool → Resting (joined ++ tasks) (context pool)) →
    ∃ tasks pool,
      Resting (joined ++ tasks) pool
      ∧ tasks.*1 = todo <$> xs
      ∧ Forall2 (λ ev task, ∃ x r, ev = EvCall (first x) r ∧ task.2 = final x r)
                (answers s (first <$> xs)) tasks
      ∧ let o := run (all_settled (context (started (task <$> xs)))) s in
        let o' := run (all_settled pool) (after_all s (first <$> xs)) in
        events o = answers s (first <$> xs) ++ events o'
        ∧ state o = state o' ∧ settled o = settled o' ∧ detached o = detached o'.
Proof.
  intros Htask xs. induction xs as [|x xs IH]; intros context joined s Hpass Hadd.
  - exists [], (context Idle). split_and!; [|done|constructor|done].
    apply Hadd. exists 0%nat. done.
  - destruct (Htask x) as (k & Hx & Hk).
    rewrite !fmap_cons. cbn [started]. rewrite Hx. cbn [start]. rewrite Hpass.
    rewrite after_all_cons. cbn [all_settled run answers].
    set (r := (step s (first x)).2). set (s1 := (step s (first x)).1).
    destruct (IH (λ pool, context (join (advance (k r)) pool))
                 (joined ++ [(todo x, final x r)]) s1)
      as (tasks & pool & Hrest & Htodo & Hfinal & Hev & Hst & Hset & Hdet).
    { intros c' k'. cbn [join]. by rewrite Hpass. }
    { intros tasks pool Hrest. rewrite <- (assoc_L (++)). simpl.
      apply Hadd. apply join_Resting; [apply Hk|done]. }
    exists ((todo x, final x r) :: tasks), pool.
    split_and!; cbn [after events state settled detached]; [| | | |done..].
    + by rewrite <- (assoc_L (++)) in Hrest.
    + by rewrite fmap_cons, Htodo.
    + constructor; [by exists x, r|done].
    + simpl. by rewrite Hev.
Qed.

(** *** [Promise.all] over single requests *)

Lemma request_finals evs (tasks : list (list Cmd * result unit)) :
  Forall2 (λ ev task, ∃ (c : Cmd) (r : result (resp c)),
             ev = EvCall c r ∧ task.2 = forget r) evs tasks →
  (failures evs = [] ↔ Forall (λ task, task.2 = Ok tt) tasks)
  ∧ (∀ todo e, (todo, Throw e) ∈ tasks → ∃ c, (c, e) ∈ failures evs).
Proof.
  induction 1 as [|ev task evs tasks (c & r & -> & Hfinal) _ [IHnone IHsome]].
  - split; [done|]. by intros ?? ?%elem_of_nil.
  - destruct r as [v|e]; simpl in Hfinal.
    + rewrite failures_ok. split.
      * rewrite IHnone. split; [by constructor|by intros [_ ?]%Forall_cons].
      * intros todo e [Heq|Hin]%elem_of_cons.
        -- destruct task. simpl in *. congruence.
        -- by eapply IHsome.
    + rewrite failures_throw. split.
      * split; [done|]. intros [Hok _]%Forall_cons. congruence.
      * intros todo e' [Heq|Hin]%elem_of_cons.
        -- destruct task. simpl in *. exists c.
           assert (e' = e) as -> by congruence. by left.
        -- destruct (IHsome _ _ Hin) as [c' ?]. exists c'. by right.
Qed.

(** [Promise.all] over requests: all of them are sent, in list order, also
    after one has failed; the outcome is a success exactly when none fails,
    and otherwise the error of one of those that failed. *)
Lemma run_Promise_all_requests cmds s :
  let o := run (Promise_all (request <$> cmds)) s in
  events o = answers s cmds
  ∧ state o = after_all s cmds
  ∧ (settled o = Ok tt ↔ failures (events o) = [])
  ∧ (∀ e, settled o = Throw e → ∃ c, (c, e) ∈ failures (events o))
  ∧ (settled o = Ok tt → detached o = []).
Proof.
  destruct (run_started request (λ c, c) (λ _, []) (λ c r, forget r))
    with (xs := cmds) (context := λ pool : Pool unit, pool)
         (joined := @nil (list Cmd * result unit)) (s := s)
    as (tasks & pool & [fuel Hrest] & Htodo & Hfinal & Hev & Hst & Hset & Hdet).
  { intros c. eexists. split; [done|]. intros r waiting. by destruct r. }
  { done. }
  { done. }
  rewrite list_fmap_id in *. simpl in Hrest.
  destruct (run_resting fuel tasks pool (after_all s cmds) Hrest)
    as (order & Hev' & Hst' & Hsub & Hok & Herr).
  assert (mjoin tasks.*1 = []) as Hnone.
  { rewrite Htodo. clear. induction cmds; [done|]. simpl. done. }
  rewrite Hnone in Hsub. apply submseteq_nil_r in Hsub as ->.
  simpl in Hev', Hst'. unfold Promise_all. cbv zeta.
  rewrite Hev, Hst, Hset, Hdet, Hev', Hst', (right_id_L [] (++)).
  destruct (request_finals _ _ Hfinal) as [Hfailures Hthrown].
  split_and!; [done|done| | |].
  - split.
    + intros Hsettled. apply Hfailures. by apply Hok.
    + intros Hquiet%Hfailures.
      destruct (settled (run (all_settled pool) (after_all s cmds))) as [[]|e]; [done|].
      destruct (Herr e eq_refl) as (todo & Hin).
      rewrite Forall_forall in Hquiet. by specialize (Hquiet _ Hin).
  - intros e Hsettled. destruct (Herr e Hsettled) as (todo & Hin). by eapply Hthrown.
  - intros Hsettled. by apply Hok.
Qed.

(** [Promise.all] over tasks that never fail: the first request of every
    task goes out in list order, then what the tasks send next, in the order
    their answers come in. *)
Lemma run_Promise_all_lenient {X} (task : X → Prog unit) (first : X → Cmd)
    (todo : X → list Cmd) :
  (∀ x, ∃ k, task x = Call (first x) k
             ∧ ∀ r, implements (advance (k r)) (todo x) (Ok tt)) →
  ∀ xs s,
    let o := run (Promise_all (task <$> xs)) s in
    ∃ order,
      order ≡ₚ mjoin (todo <$> xs)
      ∧ events o = answers s ((first <$> xs) ++ order)
      ∧ state o = after_all s ((first <$> xs) ++ order)
      ∧ settled o = Ok tt
      ∧ detached o = [].
Proof.
  intros Htask xs s.
  destruct (run_started task first todo (λ _ _, Ok tt) Htask xs
              (λ pool : Pool unit, pool) [] s)
    as (tasks & pool & [fuel Hrest] & Htodo & Hfinal & Hev & Hst & Hset & Hdet);
    [done..|].
  simpl in Hrest.
  destruct (run_resting fuel tasks pool (after_all s (first <$> xs)) Hrest)
    as (order & Hev' & Hst' & Hsub & Hok & Herr).
  assert (Forall (λ task : list Cmd * result unit, task.2 = Ok tt) tasks) as Hfine.
  { clear -Hfinal. induction Hfinal as [|???? (x & r & _ & ?)]; by constructor. }
  assert (settled (run (all_settled pool) (after_all s (first <$> xs))) = Ok tt)
    as Hsettled.
  { destruct (settled (run (all_settled pool) (after_all s (first <$> xs))))
      as [[]|e]; [done|].
    destruct (Herr e eq_refl) as (todo' & Hin).
    rewrite Forall_forall in Hfine. by specialize (Hfine _ Hin). }
  destruct (Hok Hsettled) as (Horder & _ & Hnone).
  exists order. unfold Promise_all. cbv zeta.
  rewrite Hev, Hst, Hset, Hdet, Hev', Hst', answers_app, after_all_app.
  split_and!; [by rewrite Horder, Htodo|done..].
Qed.

End WithEngine.

(** Push the trace readers through the conses and appends of a trace. *)
Ltac norm_trace :=
  repeat first
    [ rewrite calls_nil | rewrite calls_call | rewrite calls_acquire
    | rewrite calls_release | rewrite calls_app
    | rewrite failures_nil | rewrite failures_ok | rewrite failures_throw
    | rewrite failures_acquire | rewrite failures_release | rewrite failures_app
    | rewrite snapshots_nil | rewrite snapshots_cons | rewrite snapshots_app
    | rewrite creations_nil | rewrite creations_cons | rewrite creations_app ].

End AsyncFacts.

Module ReplacerSpec.
Import Docker Async AsyncFacts Replacer JsString.

Section WithContext.
Context `{Engine} `{Externals}.

Local Opaque EnvCodec.envArrayToObject Promise_all clone_options reconnect_requests
  Archive.packInterceptionFiles.

(** The outcome of a fan-out of requests, summarised: either no request
    fails and the program goes on, or it ends with the error of a request
    that failed. *)
Lemma fan_out {B} cmds (k : unit → State → Outcome B) s :
  ∃ sP evP,
    events_of evP cmds
    ∧ ((failures evP = []
        ∧ and_then (run (Promise_all (request <$> cmds)) s) k
          = mkOutcome (state (k tt sP)) (evP ++ events (k tt sP))
                      (settled (k tt sP)) (detached (k tt sP)))
       ∨ (∃ c e dP,
            (c, e) ∈ failures evP
            ∧ and_then (run (Promise_all (request <$> cmds)) s) k
              = mkOutcome sP evP (Throw e) dP)).
Proof.
  destruct (run_Promise_all_requests cmds s) as (Hev & _ & Hok & Herr & Hdet).
  destruct (run (Promise_all (request <$> cmds)) s) as [sP evP rP dP].
  simpl in *. subst evP. exists sP, (answers s cmds).
  split; [apply answers_events_of|].
  unfold and_then. simpl. destruct rP as [[]|e].
  - left. split; [by apply Hok|]. by rewrite Hdet.
  - right. destruct (Herr e eq_refl) as [c Hc]. by exists c, e, dP.
Qed.

(** One step of symbolic execution of [restartAndInjectContainer]. *)
Ltac exec_step :=
  match goal with
  | |- context [step ?s ?c] =>
      let s' := fresh "s" in
      destruct (step s c) as [s' [?|?]] eqn:?; simpl
  | |- context [EnvCodec.envArrayToObject ?env] =>
      destruct (EnvCodec.envArrayToObject env) eqn:?; simpl
  | |- context [if already_gone ?e then _ else _] =>
      destruct (already_gone e) eqn:?; simpl
  | |- context [bool_decide ?P] =>
      destruct (bool_decide P) eqn:?; simpl
  | |- context [match ?ty with Mount => _ | Inject => _ end] =>
      destruct ty; simpl
  | |- context [run (Promise_all (request <$> ?cmds) ≫= ?f) ?s] =>
      let sP := fresh "sP" in
      let evP := fresh "evP" in
      let HevP := fresh "HevP" in
      let E := fresh "E" in
      rewrite (run_bind (Promise_all (request <$> cmds)) f s);
      destruct (fan_out cmds (λ a, run (f a)) s)
        as (sP & evP & HevP & [[? E]|(? & ? & ? & ? & E)]);
      rewrite E; clear E; simpl
  end.

Lemma already_gone_spec e :
  already_gone e = true
  ↔ statusCode e = Some 409 ∨ statusCode e = Some 404 ∨ statusCode e = Some 304.
Proof.
  unfold already_gone, Js.includes. rewrite bool_decide_eq_true.
  rewrite !elem_of_cons, elem_of_nil. tauto.
Qed.

(** A failed request of the reconnection fan-out is a connect request. *)
Lemma reconnect_failure details newContainer evP :
  events_of evP (reconnect_requests details newContainer) →
  ∀ c e, (c, e) ∈ failures evP →
         is_remove c = false ∧ is_create c = false ∧ is_start c = false.
Proof.
  intros Hev%events_of_calls c e Hin%failures_calls. rewrite Hev in Hin.
  Local Transparent reconnect_requests.
  unfold reconnect_requests in Hin.
  Local Opaque reconnect_requests.
  by apply list_elem_of_fmap in Hin as (name & -> & _).
Qed.

Lemma envArrayToObject_well_formed env :
  Forall (λ entry, contains "=" entry = true) env →
  ∃ o, EnvCodec.envArrayToObject env = Ok o.
Proof.
  intros Henv.
  destruct (EnvCodec.envArrayToObject env) as [o|e] eqn:E; [eauto|].
  destruct (proj1 (EnvCodecSpec.envArrayToObject_fails env)) as (entry & Hin & Hno).
  { by rewrite E. }
  rewrite Forall_forall in Henv. specialize (Henv _ Hin). congruence.
Qed.

Lemma envArrayToObject_malformed env :
  Exists (λ entry, contains "=" entry = false) env →
  EnvCodec.envArrayToObject env = Throw (new_Error "Env var without =").
Proof.
  intros (entry & Hin & Hno)%Exists_exists.
  destruct (EnvCodec.envArrayToObject env) as [o|e] eqn:E.
  - assert (is_Ok (EnvCodec.envArrayToObject env) = false) as Hfail.
    { apply EnvCodecSpec.envArrayToObject_fails. eauto. }
    by rewrite E in Hfail.
  - by rewrite (EnvCodecSpec.envArrayToObject_error _ _ E).
Qed.

(** Simplify what is known about a fan-out once a failure of it, if any,
    has been named. *)
Ltac tidy_fan_out :=
  simpl resp in *;
  repeat match goal with
  | Heq : failures ?evP = [] |- _ => rewrite Heq in *; clear Heq
  | Hev : events_of ?evP (reconnect_requests _ _) |- _ =>
      pose proof (reconnect_failure _ _ _ Hev); clear Hev
  | v : unit |- _ => destruct v
  end.

(** Case analysis on membership in, and on facts about all of, a list of
    failures that has been computed. *)
Ltac split_failures :=
  repeat match goal with
  | Hin : _ ∈ _ :: _ |- _ => apply elem_of_cons in Hin as [Hin|Hin]
  | Hin : _ ∈ _ ++ _ |- _ => apply elem_of_app in Hin as [Hin|Hin]
  | Hin : _ ∈ [] |- _ => by apply elem_of_nil in Hin
  | Heq : (_, _) = (_, _) |- _ => injection Heq as ??; subst
  | Hall : Forall _ (_ :: _) |- _ => apply Forall_cons in Hall as [? Hall]
  | Hall : Forall _ (_ ++ _) |- _ => apply Forall_app in Hall as [? ?]
  | Hall : Forall _ (failures ?evP), Hin : _ ∈ failures ?evP |- _ =>
      rewrite Forall_forall in Hall; pose proof (Hall _ Hin); clear Hall
  | Hfan : ∀ c e, _ ∈ failures ?evP → _, Hin : (?c, ?e) ∈ failures ?evP |- _ =>
      lazymatch goal with
      | _ : is_remove c = false |- _ => fail
      | _ => destruct (Hfan _ _ Hin) as (? & ? & ?)
      end
  | Hand : _ ∧ _ |- _ => destruct Hand
  end;
  simpl in *.

(** Run [restartAndInjectContainer] symbolically, down to one goal per way
    the engine can answer. *)
Ltac replace_cases :=
  unfold restartAndInjectContainer; simpl;
  repeat exec_step;
  unfold after; simpl.



Local Transparent reconnect_requests clone_options.

Lemma filter_connect_reconnect details newContainer :
  List.filter is_connect (reconnect_requests details newContainer)
  = reconnect_requests details newContainer.
Proof.
  unfold reconnect_requests. induction (Js.array_keys _) as [|i l IH]; [done|].
  rewrite fmap_cons. cbn [List.filter is_connect]. f_equal. exact IH.
Qed.

Lemma clone_endpoints details interceptionType proxyPort certPath currentEnv :
  create_EndpointsConfig
    (clone_options details interceptionType proxyPort certPath currentEnv)
  = Some (if bool_decide (1 < length (Js.keys (Networks details)))%nat
          then take 1 (Networks details)
          else Networks details).
Proof.
  unfold clone_options. simpl. case_bool_decide; [|done].
  destruct (Networks details) as [|[first endpoint] rest]; [done|].
  simpl. by rewrite decide_True.
Qed.

Local Opaque reconnect_requests clone_options.

(** What is created and what is connected, whatever the engine answers. *)
Lemma clone_then_reconnect
    s containerId interceptionType proxyPort certContent certPath :
  let o := run (restartAndInjectContainer containerId interceptionType proxyPort
                  certContent certPath) s in
  ∀ details options newContainer,
    head (snapshots (events o)) = Some (containerId, details) →
    head (creations (events o)) = Some (options, newContainer) →
    create_EndpointsConfig options
    = Some (if bool_decide (1 < length (Js.keys (Networks details)))%nat
            then take 1 (Networks details)
            else Networks details)
    ∧ List.filter is_connect (calls (events o))
      = if bool_decide (1 < length (Js.keys (Networks details)))%nat
        then reconnect_requests details newContainer
        else [].
Proof.
  intros o. subst o.
  pattern (run (restartAndInjectContainer containerId interceptionType proxyPort
                  certContent certPath) s).
  match goal with |- ?P _ => set (Q := P) end.
  replace_cases.
  all: subst Q; cbv beta; simpl; norm_trace; simpl.
  all: intros d options newContainer Hd Hcreated; simplify_eq.
  all: split; [by rewrite clone_endpoints|].
  all: try match goal with
           | HevP : events_of _ _ |- _ => rewrite (events_of_calls _ _ HevP)
           end.
  all: rewrite ?List.filter_app, ?filter_connect_reconnect; simpl.
  all: rewrite ?app_nil_r.
  all: try match goal with
           | Hb : bool_decide _ = _ |- _ => rewrite Hb
           end.
  all: done.
Qed.

Local Transparent reconnect_requests.

Lemma reconnect_requests_connect details newContainer :
  Forall (λ c, is_connect c = true) (reconnect_requests details newContainer).
Proof. unfold reconnect_requests. apply Forall_fmap, Forall_true. done. Qed.

Local Opaque reconnect_requests.

(** A trace of connect requests holds no snapshot and no creation. *)
Lemma connects_quiet evs cmds :
  events_of evs cmds → Forall (λ c, is_connect c = true) cmds →
  snapshots evs = [] ∧ creations evs = [].
Proof.
  induction 1 as [|ev c evs cmds [r ->] _ IH]; [done|].
  intros [Hc Hcmds]%Forall_cons. destruct (IH Hcmds) as [Hs Hn].
  rewrite snapshots_cons, creations_cons, Hs, Hn. by destruct c.
Qed.

(** The reconnection fan-out sends connect requests only. *)
Lemma fan_out_connects details newContainer evP :
  events_of evP (reconnect_requests details newContainer) →
  calls evP = reconnect_requests details newContainer
  ∧ Forall (λ c, is_connect c = true) (calls evP)
  ∧ Forall (λ f : Cmd * JsError, is_connect f.1 = true) (failures evP)
  ∧ snapshots evP = [] ∧ creations evP = [].
Proof.
  intros Hev. pose proof (events_of_calls _ _ Hev) as Hcalls.
  pose proof (reconnect_requests_connect details newContainer) as Hall.
  split_and!; [done|by rewrite Hcalls| |by eapply connects_quiet..].
  apply Forall_forall. intros [c e] Hin%failures_calls. rewrite Hcalls in Hin.
  rewrite Forall_forall in Hall. by apply Hall.
Qed.

Lemma filter_connects (p : Cmd → bool) cs :
  (∀ c, is_connect c = true → p c = false) →
  (∀ c, c ∈ cs → is_connect c = true) →
  List.filter p cs = [].
Proof.
  intros Hp. induction cs as [|c cs IH]; intros Hcs; [done|]. simpl.
  rewrite Hp by (apply Hcs; by left). apply IH. intros c' ?. apply Hcs. by right.
Qed.

(** Name what is known about the fan-out of a run. *)
Ltac name_fan_out :=
  simpl resp in *;
  repeat match goal with
  | Hev : events_of ?evP (reconnect_requests _ _) |- _ =>
      let Hcalls := fresh "Hcalls" in
      let Hcs := fresh "Hcs" in
      let Hfs := fresh "Hfs" in
      let Hsn := fresh "Hsn" in
      let Hcr := fresh "Hcr" in
      destruct (fan_out_connects _ _ _ Hev) as (Hcalls & Hcs & Hfs & Hsn & Hcr);
      clear Hev; rewrite ?Hsn, ?Hcr;
      rewrite Forall_forall in Hcs; rewrite Forall_forall in Hfs
  | Heq : failures ?evP = [] |- _ => rewrite Heq in *; clear Heq
  | v : unit |- _ => destruct v
  end.

(** Case analysis on membership in a computed list of requests or failures. *)
Ltac split_members :=
  repeat match goal with
  | Hin : _ ∈ _ :: _ |- _ => apply elem_of_cons in Hin as [Hin|Hin]
  | Hin : _ ∈ _ ++ _ |- _ => apply elem_of_app in Hin as [Hin|Hin]
  | Hin : _ ∈ [] |- _ => by apply elem_of_nil in Hin
  | Hall : ∀ x, x ∈ ?l → _, Hin : ?y ∈ ?l |- _ =>
      lazymatch goal with
      | _ : is_connect y = true |- _ => fail
      | _ : is_connect y.1 = true |- _ => fail
      | _ => pose proof (Hall _ Hin)
      end
  end;
  simplify_eq/=.

(** X7: the replacer removes only what it has inspected and stopped.  If the
    inspect request fails, it is the only request sent and its error is the
    outcome; if the stop request fails, nothing is sent after it and its
    error is the outcome: in both cases the original container is left in
    place.  A remove request is only ever sent for the container asked for,
    as the third request, after the inspect and the stop (with a timeout of
    one second) both succeeded; and at most one is sent. *)
Theorem replace_removes_only_what_it_stopped
    s containerId interceptionType proxyPort certContent certPath :
  let o := run (restartAndInjectContainer containerId interceptionType proxyPort
                  certContent certPath) s in
  let inspect := ContainerInspect containerId in
  let stop := ContainerStop containerId 1 in
  (∀ e, (inspect, e) ∈ failures (events o) →
        settled o = Throw e ∧ calls (events o) = [inspect])
  ∧ (∀ e, (stop, e) ∈ failures (events o) →
        settled o = Throw e ∧ calls (events o) = [inspect; stop])
  ∧ (∀ c, c ∈ calls (events o) → is_remove c = true →
        c = ContainerRemove containerId
        ∧ take 3 (calls (events o)) = [inspect; stop; c]
        ∧ ∀ f, f ∈ failures (events o) → f.1 ≠ inspect ∧ f.1 ≠ stop)
  ∧ (length (List.filter is_remove (calls (events o))) ≤ 1)%nat.
Proof.
  intros o inspect stop. subst o inspect stop.
  pattern (run (restartAndInjectContainer containerId interceptionType proxyPort
                  certContent certPath) s).
  match goal with |- ?P _ => set (Q := P) end.
  replace_cases.
  all: subst Q; cbv beta; simpl; norm_trace; simpl; name_fan_out.
  all: rewrite ?(right_id_L [] (++)).
  all: split_and!; [intros e' Hin|intros e' Hin|intros c' Hin Hrem|].
  all: split_members; try done.
  all: try (by destruct c').
  all: rewrite ?List.filter_app.
  all: repeat match goal with
              | |- context [List.filter is_remove (calls ?evs)] =>
                  rewrite (filter_connects is_remove (calls evs))
                    by (done || by intros [])
              end.
  all: try (simpl; lia).
  all: split_and!; try done.
  all: intros f Hf; split_members; try done.
  all: split; intros E; rewrite E in *; done.
Qed.

(** X8: what a successful replacement has done.  When the call succeeds,
    exactly one snapshot was read and exactly one container created, from
    the options built from that snapshot; and the requests sent are, in this
    order: inspect, stop, remove, create, the connect requests when the
    snapshot has several networks, the upload of the archive of the
    interception files to "/" in [Inject] mode (none in [Mount] mode), and
    the start of the container that was created.  The only request that may
    have failed is the remove, as already gone. *)
Theorem replace_success_trace
    s containerId interceptionType proxyPort certContent certPath :
  let o := run (restartAndInjectContainer containerId interceptionType proxyPort
                  certContent certPath) s in
  settled o = Ok tt →
  ∃ details currentEnv newContainer,
    let options := clone_options details interceptionType proxyPort certPath currentEnv in
    snapshots (events o) = [(containerId, details)]
    ∧ EnvCodec.envArrayToObject (Env (Config details)) = Ok currentEnv
    ∧ creations (events o) = [(options, newContainer)]
    ∧ calls (events o)
      = [ ContainerInspect containerId; ContainerStop containerId 1;
          ContainerRemove containerId; CreateContainer options ]
        ++ (if bool_decide (1 < length (Js.keys (Networks details)))%nat
            then reconnect_requests details newContainer else [])
        ++ match interceptionType with
           | Inject =>
               [PutArchive newContainer
                  (Archive.packInterceptionFiles overrides_listing certContent) "/"]
           | Mount => []
           end
        ++ [ContainerStart newContainer]
    ∧ Forall (λ f : Cmd * JsError,
                f.1 = ContainerRemove containerId ∧ already_gone f.2 = true)
             (failures (events o)).
Proof.
  intros o. subst o.
  pattern (run (restartAndInjectContainer containerId interceptionType proxyPort
                  certContent certPath) s).
  match goal with |- ?P _ => set (Q := P) end.
  replace_cases.
  all: subst Q; cbv beta; simpl; norm_trace; simpl; name_fan_out.
  all: rewrite ?(right_id_L [] (++)).
  all: intros Hok; try discriminate Hok.
  all: eexists _, _, _; split_and!; try done.
  all: try (by repeat constructor).
  all: rewrite ?Hcalls.
  all: match goal with Hb : bool_decide _ = _ |- _ => by rewrite Hb end.
Qed.

Local Transparent clone_options.

Lemma clone_options_fields details interceptionType proxyPort certPath currentEnv :
  let options := clone_options details interceptionType proxyPort certPath currentEnv in
  create_name options = Name details
  ∧ Image (create_Config options) = Image (Config details)
  ∧ Labels (create_Config options) = Labels (Config details)
  ∧ Env (create_Config options)
    = Env (Config details)
      ++ EnvCodec.envObjectToArray
           (getTerminalEnvVars proxyPort "/http-toolkit-injections/ca.pem" currentEnv
              {| httpToolkitIp := "172.17.0.1";
                 overridePath := "/http-toolkit-injections/overrides";
                 targetPlatform := "linux" |})
  ∧ match interceptionType with
    | Inject => create_HostConfig options = Host details
    | Mount =>
        Binds (create_HostConfig options)
        = Some (default [] (Binds (Host details))
                ++ [ certPath +:+ ":/http-toolkit-injections/ca.pem:ro";
                     OVERRIDES_DIR +:+ ":/http-toolkit-injections/overrides:ro" ])
        ∧ AutoRemove (create_HostConfig options) = AutoRemove (Host details)
        ∧ ExtraHosts (create_HostConfig options) = ExtraHosts (Host details)
        ∧ PortBindings (create_HostConfig options) = PortBindings (Host details)
    end.
Proof. by destruct interceptionType. Qed.

Local Opaque clone_options.

(** X9: the clone keeps the configuration of the original.  Whatever the
    engine answers, a create request of the replacer carries the name, the
    image and the labels of the snapshot; its env list is the snapshot's
    (which parsed) followed by the lines of the override variables computed
    from it, so no original entry is dropped or reordered; in [Inject] mode
    its host configuration is the snapshot's, and in [Mount] mode it differs
    only by two read-only bind mounts added after the existing ones: the
    certificate file on the injected CA path and the overrides directory on
    the injected overrides path. *)
Theorem clone_keeps_configuration
    s containerId interceptionType proxyPort certContent certPath :
  let o := run (restartAndInjectContainer containerId interceptionType proxyPort
                  certContent certPath) s in
  ∀ details options,
    head (snapshots (events o)) = Some (containerId, details) →
    CreateContainer options ∈ calls (events o) →
    create_name options = Name details
    ∧ Image (create_Config options) = Image (Config details)
    ∧ Labels (create_Config options) = Labels (Config details)
    ∧ (∃ currentEnv,
         EnvCodec.envArrayToObject (Env (Config details)) = Ok currentEnv
         ∧ Env (create_Config options)
           = Env (Config details)
             ++ EnvCodec.envObjectToArray
                  (getTerminalEnvVars proxyPort "/http-toolkit-injections/ca.pem"
                     currentEnv
                     {| httpToolkitIp := "172.17.0.1";
                        overridePath := "/http-toolkit-injections/overrides";
                        targetPlatform := "linux" |}))
    ∧ match interceptionType with
      | Inject => create_HostConfig options = Host details
      | Mount =>
          Binds (create_HostConfig options)
          = Some (default [] (Binds (Host details))
                  ++ [ certPath +:+ ":/http-toolkit-injections/ca.pem:ro";
                       OVERRIDES_DIR +:+ ":/http-toolkit-injections/overrides:ro" ])
          ∧ AutoRemove (create_HostConfig options) = AutoRemove (Host details)
          ∧ ExtraHosts (create_HostConfig options) = ExtraHosts (Host details)
          ∧ PortBindings (create_HostConfig options) = PortBindings (Host details)
      end.
Proof.
  intros o. subst o.
  pattern (run (restartAndInjectContainer containerId interceptionType proxyPort
                  certContent certPath) s).
  match goal with |- ?P _ => set (Q := P) end.
  replace_cases.
  all: subst Q; cbv beta; simpl; norm_trace; simpl; name_fan_out.
  all: rewrite ?(right_id_L [] (++)).
  all: intros details options Hd Hin; simplify_eq/=.
  all: split_members; try done.
  all: match goal with
       | |- context [clone_options ?d ?ty ?p ?cp ?env] =>
           destruct (clone_options_fields d ty p cp env) as (? & ? & ? & ? & ?)
       end.
  all: split_and!; eauto.
Qed.

(** X10: the clone is started, and the interception files are uploaded to
    it, only when everything before went well.  A start request is only
    ever sent as the last request, to the container that the one create
    request returned, and then no earlier request has failed, a remove that
    found the container already gone apart.  The same holds for the upload
    of the archive, which moreover happens in [Inject] mode only, carries
    the archive of the interception files and unpacks it at "/". *)
Theorem clone_started_only_when_ready
    s containerId interceptionType proxyPort certContent certPath :
  let o := run (restartAndInjectContainer containerId interceptionType proxyPort
                  certContent certPath) s in
  (∀ id, ContainerStart id ∈ calls (events o) →
     (∃ options, creations (events o) = [(options, id)])
     ∧ last (calls (events o)) = Some (ContainerStart id)
     ∧ ∀ c e, (c, e) ∈ failures (events o) →
         (c = ContainerRemove containerId ∧ already_gone e = true)
         ∨ c = ContainerStart id)
  ∧ (∀ id archive path, PutArchive id archive path ∈ calls (events o) →
       interceptionType = Inject
       ∧ archive = Archive.packInterceptionFiles overrides_listing certContent
       ∧ path = "/"
       ∧ (∃ options, creations (events o) = [(options, id)])
       ∧ ∀ c e, (c, e) ∈ failures (events o) →
           (c = ContainerRemove containerId ∧ already_gone e = true)
           ∨ c = PutArchive id archive path
           ∨ c = ContainerStart id).
Proof.
  intros o. subst o.
  pattern (run (restartAndInjectContainer containerId interceptionType proxyPort
                  certContent certPath) s).
  match goal with |- ?P _ => set (Q := P) end.
  replace_cases.
  all: subst Q; cbv beta; simpl; norm_trace; simpl; name_fan_out.
  all: rewrite ?(right_id_L [] (++)).
  all: split; [intros id Hin|intros id archive path Hin].
  all: split_members; try done.
  all: split_and!; eauto.
  all: rewrite ?last_cons, ?last_snoc, ?last_app; try done.
  all: try (intros c' e' Hf; split_members; eauto).
Qed.

End WithContext.


Local Transparent reconnect_requests clone_options.

Lemma reconnect_requests_indices details newContainer :
  reconnect_requests details newContainer
  = (λ i : nat, NetworkConnect (Some (pretty i)) newContainer
                  (Js.get (Networks details) (pretty i)))
    <$> seq 0 (length (Networks details) - 1).
Proof.
  unfold reconnect_requests, Js.array_keys, Js.keys.
  by rewrite <- list_fmap_compose, length_drop, length_fmap.
Qed.

(** C1, as the code has it.  Whatever the engine answers, the creation
    request carries the only network, or the first of several, as claimed;
    and with n > 1 networks n-1 connect requests follow a successful
    creation.  But these are built from [Object.keys] of the array of the
    remaining names: they name the networks "0", "1", ... and carry whatever
    endpoint configuration the snapshot has under those names.  With
    networks frontend, backend and metrics, the clone is connected to "0"
    and "1" with no endpoint configuration, not to backend and metrics with
    theirs; with one network nothing is connected after creation. *)
Theorem reconnect_requests_use_array_indices :
  (∀ (E : Engine) (X : Externals) s containerId interceptionType proxyPort
     certContent certPath details options newContainer,
     let o := run (restartAndInjectContainer containerId interceptionType proxyPort
                     certContent certPath) s in
     let networks := Networks details in
     head (snapshots (events o)) = Some (containerId, details) →
     head (creations (events o)) = Some (options, newContainer) →
     create_EndpointsConfig options
     = Some (if bool_decide (1 < length networks)%nat
             then take 1 networks else networks)
     ∧ List.filter is_connect (calls (events o))
       = if bool_decide (1 < length networks)%nat
         then (λ i : nat, NetworkConnect (Some (pretty i)) newContainer
                            (Js.get networks (pretty i)))
              <$> seq 0 (length networks - 1)
         else [])
  ∧ (let details := Reference.web ["PATH=/bin"] Reference.three_networks in
     let o := run (restartAndInjectContainer "abc123" Mount 8000 "CERT" "/tmp/ca.pem")
                  (Reference.hosting details) in
     settled o = Ok tt
     ∧ (∃ options,
          calls (events o)
          = [ ContainerInspect "abc123"; ContainerStop "abc123" 1;
              ContainerRemove "abc123"; CreateContainer options;
              NetworkConnect (Some "0") "container-0" None;
              NetworkConnect (Some "1") "container-0" None;
              ContainerStart "container-0" ]
          ∧ create_EndpointsConfig options
            = Some [("frontend", Reference.endpoint "net-f" "10.0.0.2")])
     ∧ connected (calls (events o)) = [Some "0"; Some "1"])
  ∧ (let details :=
       Reference.web ["PATH=/bin"] [("frontend", Reference.endpoint "net-f" "10.0.0.2")] in
     let o := run (restartAndInjectContainer "abc123" Mount 8000 "CERT" "/tmp/ca.pem")
                  (Reference.hosting details) in
     settled o = Ok tt
     ∧ ∃ options,
         calls (events o)
         = [ ContainerInspect "abc123"; ContainerStop "abc123" 1;
             ContainerRemove "abc123"; CreateContainer options;
             ContainerStart "container-0" ]
         ∧ create_EndpointsConfig options
           = Some [("frontend", Reference.endpoint "net-f" "10.0.0.2")]).
Proof.
  split_and!.
  - intros E X s containerId interceptionType proxyPort certContent certPath
      details options newContainer o networks Hsnapshot Hcreated.
    destruct (clone_then_reconnect s containerId interceptionType proxyPort
                certContent certPath details options newContainer Hsnapshot Hcreated)
      as [Hendpoints Hconnects].
    unfold Js.keys in Hendpoints, Hconnects. rewrite length_fmap in Hendpoints, Hconnects.
    split; [exact Hendpoints|].
    subst o. rewrite Hconnects. fold networks.
    destruct (bool_decide (1 < length networks)%nat); [apply reconnect_requests_indices|done].
  - intros details o. split_and!; [reflexivity| |reflexivity].
    eexists. split; reflexivity.
  - intros details o. split; [reflexivity|].
    eexists. split; reflexivity.
Qed.


Lemma replace_success_trace_witness :
  let o := run (restartAndInjectContainer "abc123" Inject 8000 "CERT" "/tmp/ca.pem")
               (Reference.hosting (Reference.web ["PATH=/bin"] Reference.three_networks)) in
  ∃ newContainer,
    last (calls (events o)) = Some (ContainerStart newContainer)
    ∧ length (creations (events o)) = 1%nat.
Proof.
  intros o.
  destruct (@replace_success_trace Reference.engine Reference.externals
              (Reference.hosting (Reference.web ["PATH=/bin"] Reference.three_networks))
              "abc123" Inject 8000 "CERT" "/tmp/ca.pem" eq_refl)
    as (details & currentEnv & newContainer & _ & _ & Hcreated & Hcalls & _).
  exists newContainer. split.
  - etransitivity; [exact (f_equal last Hcalls)|].
    by rewrite !(assoc_L (++)), last_snoc.
  - etransitivity; [exact (f_equal length Hcreated)|]. reflexivity.
Defined.

Lemma clone_keeps_configuration_witness :
  let details := Reference.web ["PATH=/bin"] Reference.three_networks in
  let o := run (restartAndInjectContainer "abc123" Mount 8000 "CERT" "/tmp/ca.pem")
               (Reference.hosting details) in
  let options := clone_options details Mount 8000 "/tmp/ca.pem" {[ "PATH" := "/bin" ]} in
  calls (events o) !! 3%nat = Some (CreateContainer options)
  ∧ create_name options = "/web"
  ∧ Env (create_Config options) = ["PATH=/bin"; "HTTP_PROXY=http://172.17.0.1:8000"]
  ∧ Binds (create_HostConfig options)
    = Some [ "/tmp/ca.pem:/http-toolkit-injections/ca.pem:ro";
             "/opt/overrides:/http-toolkit-injections/overrides:ro" ].
Proof.
  intros details o options.
  assert (calls (events o) !! 3%nat = Some (CreateContainer options)) as Hsent
    by reflexivity.
  split; [exact Hsent|].
  destruct (@clone_keeps_configuration Reference.engine Reference.externals
              (Reference.hosting details) "abc123" Mount 8000 "CERT" "/tmp/ca.pem"
              details options eq_refl (list_elem_of_lookup_2 _ _ _ Hsent))
    as (Hname & _ & _ & (currentEnv & Henv & Hvars) & Hbinds & _).
  split_and!; [exact Hname| |exact Hbinds].
  etransitivity; [exact Hvars|].
  assert (currentEnv = {[ "PATH" := "/bin" ]}) as ->.
  { assert (EnvCodec.envArrayToObject ["PATH=/bin"] = Ok {[ "PATH" := "/bin" ]}) as Hparsed
      by reflexivity.
    change (Env (Config details)) with ["PATH=/bin"] in Henv. congruence. }
  reflexivity.
Defined.

End ReplacerSpec.

Module JsNumberFacts.
Import JsNumber.

Lemma digit_value_pretty (d : N) :
  (d < 10)%N → digit_value (pretty_N_char d) = Some (Z.of_N d).
Proof.
  intros Hd.
  assert (d = 0 ∨ d = 1 ∨ d = 2 ∨ d = 3 ∨ d = 4 ∨ d = 5 ∨ d = 6 ∨ d = 7
          ∨ d = 8 ∨ d = 9)%N as Hcases by lia.
  repeat destruct Hcases as [->|Hcases]; try subst d; reflexivity.
Qed.

Lemma parse_digits_pretty (x : N) s :
  (0 < x)%N →
  parse_digits 10 (pretty_N_go x s) None = parse_digits 10 s (Some (Z.of_N x)).
Proof.
  revert s. induction (N.lt_wf_0 x) as [x _ IH]. intros s Hx.
  rewrite pretty_N_go_step by done.
  assert (x `mod` 10 < 10)%N as Hmod by (apply N.mod_lt; lia).
  destruct (decide (x `div` 10 = 0)%N) as [Hdiv|Hdiv].
  - rewrite Hdiv, pretty_N_go_0. simpl. rewrite digit_value_pretty by done.
    assert ((Z.of_N (x `mod` 10) <? 10) = true) as -> by (apply Z.ltb_lt; lia).
    f_equal. f_equal.
    pose proof (N.div_mod x 10 ltac:(lia)) as Hx'. lia.
  - assert (x `div` 10 < x)%N as Hlt by (apply N.div_lt; lia).
    assert (0 < x `div` 10)%N as Hpos by (apply N.neq_0_lt_0; exact Hdiv).
    rewrite IH by done.
    simpl. rewrite digit_value_pretty by done.
    assert ((Z.of_N (x `mod` 10) <? 10) = true) as -> by (apply Z.ltb_lt; lia).
    f_equal. f_equal.
    pose proof (N.div_mod x 10 ltac:(lia)) as Hx'. lia.
Qed.

Lemma pretty_N_go_head (x : N) s :
  (0 < x)%N → ∃ d rest, pretty_N_go x s = String (pretty_N_char d) rest.
Proof.
  revert s. induction (N.lt_wf_0 x) as [x _ IH]. intros s Hx.
  rewrite pretty_N_go_step by done.
  destruct (decide (x `div` 10 = 0)%N) as [Hdiv|Hdiv].
  - rewrite Hdiv, pretty_N_go_0. eauto.
  - apply IH; [apply N.div_lt; lia|by apply N.neq_0_lt_0].
Qed.

(** A string that starts with an ASCII character other than white space has
    no white space to skip. *)
Lemma skip_white_space_ascii c rest :
  byte_value c < 128 → is_white_space (byte_value c) = false →
  skip_white_space (String c rest) = String c rest.
Proof.
  intros Hascii Hspace. cbn [skip_white_space].
  unfold code_point_1, code_point_2, code_point_3.
  assert ((byte_value c <? 128) = true) as -> by by apply Z.ltb_lt.
  assert ((192 <=? byte_value c) = false) as -> by (apply Z.leb_gt; lia).
  assert ((224 <=? byte_value c) = false) as -> by (apply Z.leb_gt; lia).
  cbn [white andb]. rewrite Hspace. by repeat case_match.
Qed.

Lemma skip_white_space_digit d rest :
  skip_white_space (String (pretty_N_char d) rest) = String (pretty_N_char d) rest.
Proof. unfold pretty_N_char. by repeat case_match; apply skip_white_space_ascii. Qed.

(** An integer of at most 53 bits is a double. *)
Lemma to_double_exact z : 0 <= z < 2 ^ 53 → to_double z = Int z.
Proof.
  intros Hz. unfold to_double. cbv zeta.
  assert (Z.log2 z + 1 <= 53) as Hbits.
  { destruct (decide (z = 0)) as [->|Hpos]; [done|].
    assert (Z.log2 z < 53); [|lia]. apply Z.log2_lt_pow2; lia. }
  apply Z.leb_le in Hbits. by rewrite Hbits.
Qed.

Lemma digit_unsigned d rest :
  without_sign (String (pretty_N_char d) rest) = String (pretty_N_char d) rest
  ∧ is_negative (String (pretty_N_char d) rest) = false.
Proof. unfold pretty_N_char. by repeat case_match. Qed.

(** [parseInt] reads back the decimal notation of a natural number below
    [2^53]. *)
Lemma parseInt_pretty (n : N) :
  (n < 2 ^ 53)%N → parseInt (pretty n) 10 = Int (Z.of_N n).
Proof.
  intros Hbound. unfold pretty, pretty_N. case_decide as Hn; [by subst|].
  destruct (pretty_N_go_head n "") as (d & rest & Hhead); [lia|].
  unfold parseInt. rewrite Hhead, skip_white_space_digit. cbv zeta.
  destruct (digit_unsigned d rest) as [-> ->].
  rewrite <- Hhead, parse_digits_pretty by lia. simpl.
  rewrite decide_False by lia.
  by rewrite to_double_exact by lia.
Qed.

(** Digits that follow a digit never make the result undefined. *)
Lemma parse_digits_Some radix s acc : is_Some (parse_digits radix s (Some acc)).
Proof.
  revert acc. induction s as [|c s IH]; intros acc; simpl; [by eexists|].
  destruct (digit_value c) as [d|]; [|by eexists].
  destruct (d <? radix); [apply IH|by eexists].
Qed.

(** There is no number to read exactly when what is to be read is empty or
    starts with something else than a digit of the radix. *)
Lemma parse_digits_None radix s :
  parse_digits radix s None = None
  ↔ s = "" ∨ ∃ c rest, s = String c rest
                       ∧ ∀ d, digit_value c = Some d → radix <= d.
Proof.
  destruct s as [|c rest]; simpl.
  { split; [by left|done]. }
  destruct (digit_value c) as [d|] eqn:Hd.
  - destruct (d <? radix) eqn:Hlt.
    + split.
      * intros Hnone. destruct (parse_digits_Some radix rest (radix * 0 + d)) as [? Hsome].
        simpl in Hnone. congruence.
      * intros [?|(c' & rest' & [= <- <-] & Hc)]; [done|].
        apply Z.ltb_lt in Hlt. specialize (Hc d Hd). lia.
    + split; [|done]. intros _. right. exists c, rest. split; [done|].
      intros d' Hd'. apply Z.ltb_ge in Hlt. congruence.
  - split; [|done]. intros _. right. exists c, rest. split; [done|].
    by rewrite Hd.
Qed.

Lemma to_double_number z : to_double z ≠ NaN.
Proof. unfold to_double. by repeat case_match. Qed.

(** [parseInt] gives [NaN] exactly when there is no digit to read after the
    white space and the sign. *)
Lemma parseInt_NaN s radix :
  parseInt s radix = NaN
  ↔ parse_digits radix (without_sign (skip_white_space s)) None = None.
Proof.
  unfold parseInt. cbv zeta.
  destruct (parse_digits radix (without_sign (skip_white_space s)) None) as [z|];
    [|done].
  split; [|done]. case_decide.
  - by destruct (is_negative (skip_white_space s)).
  - pose proof (to_double_number z). unfold with_sign.
    by destruct (to_double z), (is_negative (skip_white_space s)).
Qed.

(** The no-break space, the ideographic space and the byte order mark are
    skipped like a blank; digits are read up to the first other character. *)
Lemma parseInt_examples :
  parseInt (String "194" (String "160" "49153")) 10 = Int 49153
  ∧ parseInt (String "227" (String "128" (String "128" "49153"))) 10 = Int 49153
  ∧ parseInt (String "239" (String "187" (String "191" " 49153/tcp"))) 10 = Int 49153
  ∧ parseInt "-0" 10 = NegZero
  ∧ parseInt "0x10" 10 = Int 0
  ∧ parseInt "9007199254740993" 10 = Int 9007199254740992
  ∧ parseInt "9007199254740995" 10 = Int 9007199254740996
  ∧ parseInt "555" 8 = Int 365.
Proof. by vm_compute. Qed.

End JsNumberFacts.

Module TunnelSpec.
Import Docker Async AsyncFacts EngineLaws Tunnel.

Section WithContext.
Context `{Engine} `{Externals}.

Local Opaque tunnel_options getDockerTunnelContainerName DOCKER_TUNNEL_IMAGE
  Promise_all builtin_bridge_filter.

Lemma run_runExclusive {A} (body : Prog A) s :
  run (runExclusive body) s
  = mkOutcome (state (run body s)) (EvAcquire :: events (run body s) ++ [EvRelease])
              (settled (run body s)) (detached (run body s)).
Proof.
  unfold runExclusive. simpl. rewrite run_settle. unfold and_finally, after. simpl.
  destruct (settled (run body s)); simpl; by rewrite app_nil_r.
Qed.

Section Laws.
Context (Hlaws : WellBehaved).

Lemma present_after_read s c s' r :
  step s c = (s', r) → reads c = true → image_present s → image_present s'.
Proof.
  unfold image_present. intros E ? <-. f_equal.
  rewrite <- (reads_frame Hlaws s c (ImageInspect DOCKER_TUNNEL_IMAGE)) by done.
  by rewrite E.
Qed.

Lemma present_after_pull s s' v :
  step s (Pull DOCKER_TUNNEL_IMAGE) = (s', Ok v) → image_present s'.
Proof.
  intros E. pose proof (pull_installs Hlaws s DOCKER_TUNNEL_IMAGE) as Hp.
  rewrite E in Hp. by apply Hp.
Qed.

Lemma present_kept s c s' r :
  step s c = (s', r) → creates_or_starts c = true →
  image_present s → image_present s'.
Proof.
  intros E ? Hi. pose proof (image_kept Hlaws s c DOCKER_TUNNEL_IMAGE) as Hk.
  rewrite E in Hk. by apply Hk.
Qed.

Lemma inspect_after_read s c s' r id :
  step s c = (s', r) → reads c = true →
  (step s' (ContainerInspect id)).2 = (step s (ContainerInspect id)).2.
Proof.
  intros E ?. rewrite <- (reads_frame Hlaws s c (ContainerInspect id)) by done.
  by rewrite E.
Qed.

Lemma inspect_after_pull s image s' r id :
  step s (Pull image) = (s', r) →
  (step s' (ContainerInspect id)).2 = (step s (ContainerInspect id)).2.
Proof. intros E. rewrite <- (pull_frame Hlaws s image id). by rewrite E. Qed.

Lemma running_after_start s name container s' v :
  (step s (ContainerInspect name)).2 = Ok container →
  step s (ContainerStart (Id container)) = (s', Ok v) →
  tunnel_running name s'.
Proof.
  intros Hc E. pose proof (start_runs Hlaws s name container Hc) as Hr.
  rewrite E in Hr. by apply Hr.
Qed.

End Laws.

Lemma ensure_image_run s :
  let o := run ensure_image s in
  (∃ r rest, events o = EvCall (ImageInspect DOCKER_TUNNEL_IMAGE) r :: rest)
  ∧ events_of (events o) (calls (events o))
  ∧ detached o = []
  ∧ Forall (λ c, is_create c = false ∧ is_start c = false) (calls (events o))
  ∧ connected (calls (events o)) = [] ∧ disconnected (calls (events o)) = []
  ∧ (image_present s →
       calls (events o) = [ImageInspect DOCKER_TUNNEL_IMAGE]
       ∧ settled o = Ok tt
       ∧ state o = (step s (ImageInspect DOCKER_TUNNEL_IMAGE)).1)
  ∧ (WellBehaved →
       (settled o = Ok tt → image_present (state o))
       ∧ ∀ id, (step (state o) (ContainerInspect id)).2
               = (step s (ContainerInspect id)).2).
Proof.
  intros o. subst o.
  pose proof (eq_refl : image_present s = image_present s) as Hdef.
  unfold image_present at 1 in Hdef.
  pattern (run ensure_image s).
  match goal with |- ?P _ => set (Q := P) end.
  unfold ensure_image. simpl.
  destruct (step s (ImageInspect DOCKER_TUNNEL_IMAGE)) as [s1 [v|e]] eqn:E1; simpl.
  - subst Q; cbv beta; simpl; norm_trace.
    split_and!; eauto; try (repeat constructor; eauto; done).
    intros Hlaws. split.
    + intros _. eapply present_after_read; [done..|]. by rewrite <- Hdef.
    + intros id. by eapply inspect_after_read.
  - destruct (step s1 (Pull DOCKER_TUNNEL_IMAGE)) as [s2 [v|e']] eqn:E2; simpl.
    all: unfold after; subst Q; cbv beta; simpl; norm_trace.
    all: split_and!; eauto; try (repeat constructor; eauto; done).
    all: try (rewrite <- Hdef; done).
    all: intros Hlaws; split; [intros Hok|intros id].
    + by eapply present_after_pull.
    + etransitivity; [by eapply inspect_after_pull|by eapply inspect_after_read].
    + done.
    + etransitivity; [by eapply inspect_after_pull|by eapply inspect_after_read].
Qed.

(** Chase the presence of the image along the steps taken. *)
Ltac present :=
  lazymatch goal with
  | Hi : image_present ?s |- image_present ?s => exact Hi
  | E : step ?s ?c = (?s', _) |- image_present ?s' =>
      first [ eapply present_after_read; [eassumption|exact E|reflexivity|present]
            | eapply present_kept; [eassumption|exact E|reflexivity|present] ]
  end.

(** What inspecting [name] reports in [s'], one read-only step after [s]. *)
Ltac inspected E :=
  etransitivity; [eapply inspect_after_read; [eassumption|exact E|reflexivity]|].

Lemma ensure_container_run proxyPort s :
  let name := getDockerTunnelContainerName proxyPort in
  let o := run (ensure_container proxyPort) s in
  events_of (events o) (calls (events o))
  ∧ detached o = []
  ∧ connected (calls (events o)) = [] ∧ disconnected (calls (events o)) = []
  ∧ (length (List.filter is_create (calls (events o))) ≤ 1)%nat
  ∧ (∀ container,
       (step s (ContainerInspect name)).2 = Ok container →
       Forall (λ c, is_create c = false) (calls (events o))
       ∧ (Running container = true →
          calls (events o) = [ContainerInspect name]
          ∧ settled o = Ok tt
          ∧ state o = (step s (ContainerInspect name)).1))
  ∧ (WellBehaved → settled o = Ok tt →
       tunnel_running name (state o)
       ∧ (image_present s → image_present (state o))).
Proof.
  intros name o. subst o.
  pattern (run (ensure_container proxyPort) s).
  match goal with |- ?P _ => set (Q := P) end.
  unfold ensure_container. fold name. simpl.
  destruct (step s (ContainerInspect name)) as [s1 [c|e]] eqn:E1; simpl.
  - (* the container is there *)
    destruct (Running c) eqn:Hrun; simpl.
    + subst Q; cbv beta; simpl; norm_trace.
      split_and!; eauto; try (repeat constructor; eauto; done).
      intros Hlaws _. split; [|intros; present].
      exists c. split; [|done]. inspected E1. by rewrite E1.
    + destruct (step s1 (ContainerStart (Id c))) as [s2 [v|e]] eqn:E2; simpl.
      all: unfold after; subst Q; cbv beta; simpl; norm_trace.
      all: split_and!; eauto; try (repeat constructor; eauto; done).
      all: try (intros c' [= <-]; split; [by repeat constructor|congruence]).
      all: try by intros ? [=].
      intros Hlaws _. split; [|intros; present].
      eapply running_after_start; [done| |exact E2].
      inspected E1. by rewrite E1.
  - (* the container is missing: create it *)
    destruct (step s1 Version) as [s2 [version|e2]] eqn:E2; simpl.
    2:{ unfold after; subst Q; cbv beta; simpl; norm_trace.
        split_and!; eauto; try (repeat constructor; eauto; done).
        all: try by intros ? [=]. }
    destruct (step s2 (ListNetworks builtin_bridge_filter)) as [s3 [networks|e3]] eqn:E3;
      simpl.
    2:{ unfold after; subst Q; cbv beta; simpl; norm_trace.
        split_and!; eauto; try (repeat constructor; eauto; done).
        all: try by intros ? [=]. }
    destruct (defaultBridgeGateway_of networks) as [gateway|e4] eqn:E4; simpl.
    2:{ unfold after; subst Q; cbv beta; simpl; norm_trace.
        split_and!; eauto; try (repeat constructor; eauto; done).
        all: try by intros ? [=]. }
    destruct (step s3 (CreateContainer _)) as [s4 [id|e5]] eqn:E5; simpl.
    2:{ unfold after; subst Q; cbv beta; simpl; norm_trace.
        split_and!; eauto; try (repeat constructor; eauto; done).
        all: try by intros ? [=]. }
    destruct (step s4 (ContainerInspect name)) as [s5 [c|e6]] eqn:E6; simpl.
    2:{ unfold after; subst Q; cbv beta; simpl; norm_trace.
        split_and!; eauto; try (repeat constructor; eauto; done).
        all: try by intros ? [=]. }
    destruct (Running c) eqn:Hrun; simpl.
    + unfold after; subst Q; cbv beta; simpl; norm_trace.
      split_and!; eauto; try (repeat constructor; eauto; done).
      intros Hlaws _. split; [|intros; present].
      exists c. split; [|done]. inspected E6. by rewrite E6.
    + destruct (step s5 (ContainerStart (Id c))) as [s6 [v|e7]] eqn:E7; simpl.
      all: unfold after; subst Q; cbv beta; simpl; norm_trace.
      all: split_and!; eauto; try (repeat constructor; eauto; done).
      all: try by intros ? [=].
      intros Hlaws _. split; [|intros; present].
      eapply running_after_start; [done| |exact E7].
      inspected E6. by rewrite E6.
Qed.

Local Opaque ensure_image ensure_container.

Lemma ensure_run proxyPort s :
  run (ensureDockerTunnelRunning proxyPort) s
  = let image := run ensure_image s in
    match settled image with
    | Ok _ =>
        let container := run (ensure_container proxyPort) (state image) in
        mkOutcome (state container)
                  (EvAcquire :: (events image ++ events container) ++ [EvRelease])
                  (settled container) (detached image ++ detached container)
    | Throw e =>
        mkOutcome (state image) (EvAcquire :: events image ++ [EvRelease])
                  (Throw e) (detached image)
    end.
Proof.
  unfold ensureDockerTunnelRunning. rewrite run_runExclusive, run_bind.
  unfold and_then. by destruct (settled (run ensure_image s)).
Qed.

Lemma filter_is_create_none cs :
  Forall (λ c, is_create c = false) cs → List.filter is_create cs = [].
Proof. induction 1 as [|c cs Hc _ IH]; simpl; [done|]. by rewrite Hc. Qed.

(** C5: on an engine that behaves, [ensureDockerTunnelRunning] is
    idempotent.  If inspecting the tunnel container succeeds when the call
    starts, no create request is sent, and if the container is reported
    running no start request either.  A call sends at most one create
    request; and after a call that succeeded, a second call sends only the
    two inspect requests (image, container), succeeds, and the two calls
    together have sent at most one create request. *)
Theorem ensureDockerTunnelRunning_idempotent (Hlaws : WellBehaved) proxyPort s :
  let name := getDockerTunnelContainerName proxyPort in
  let first := run (ensureDockerTunnelRunning proxyPort) s in
  let second := run (ensureDockerTunnelRunning proxyPort) (state first) in
  (∀ container,
     (step s (ContainerInspect name)).2 = Ok container →
     Forall (λ c, is_create c = false) (calls (events first))
     ∧ (Running container = true →
        Forall (λ c, is_start c = false) (calls (events first))))
  ∧ (length (List.filter is_create (calls (events first))) ≤ 1)%nat
  ∧ (settled first = Ok tt →
       calls (events second)
       = [ImageInspect DOCKER_TUNNEL_IMAGE; ContainerInspect name]
       ∧ settled second = Ok tt
       ∧ (length (List.filter is_create (calls (events first ++ events second))) ≤ 1)%nat).
Proof.
  intros name first second. subst first second. rewrite !ensure_run. cbv zeta.
  destruct (ensure_image_run s)
    as (_ & _ & _ & Hi_quiet & _ & _ & _ & Hi_laws).
  destruct (Hi_laws Hlaws) as [Hi_present Hi_frame]. clear Hi_laws.
  pose proof (ensure_container_run proxyPort (state (run ensure_image s)))
    as (_ & _ & _ & _ & Hc_once & Hc_found & Hc_laws). fold name in Hc_found, Hc_laws.
  assert (List.filter is_create (calls (events (run ensure_image s))) = []) as Hi_none.
  { apply filter_is_create_none. eapply Forall_impl; [exact Hi_quiet|]. by intros ? []. }
  destruct (settled (run ensure_image s)) as [[]|e] eqn:Hi_settled; simpl.
  - norm_trace. rewrite app_nil_r. split_and!.
    + intros container Hfound.
      destruct (Hc_found container) as [Hnone Hrun].
      { etransitivity; [apply Hi_frame|exact Hfound]. }
      split.
      * apply Forall_app. split; [|done].
        eapply Forall_impl; [exact Hi_quiet|]. by intros ? [].
      * intros Hrunning. destruct (Hrun Hrunning) as (-> & _ & _).
        apply Forall_app. split; [|by repeat constructor].
        eapply Forall_impl; [exact Hi_quiet|]. by intros ? [].
    + by rewrite List.filter_app, Hi_none.
    + intros Hsettled.
      destruct (Hc_laws Hlaws Hsettled) as [(container & Hcontainer & Hrunning) Hpresent].
      specialize (Hpresent (Hi_present eq_refl)).
      set (s1 := state (run (ensure_container proxyPort) (state (run ensure_image s)))) in *.
      destruct (ensure_image_run s1) as (_ & _ & _ & _ & _ & _ & Hi2 & _).
      destruct (Hi2 Hpresent) as (Hi2_calls & Hi2_settled & Hi2_state).
      rewrite Hi2_settled. simpl. norm_trace. rewrite app_nil_r, Hi2_calls.
      pose proof (ensure_container_run proxyPort (state (run ensure_image s1)))
        as (_ & _ & _ & _ & _ & Hc2 & _). fold name in Hc2.
      destruct (Hc2 container) as [_ Hc2_run].
      { rewrite Hi2_state. etransitivity; [|exact Hcontainer]. by apply reads_frame. }
      destruct (Hc2_run Hrunning) as (-> & -> & _).
      split_and!; [done..|].
      rewrite !List.filter_app, Hi_none. simpl. rewrite app_nil_r. exact Hc_once.
  - norm_trace. rewrite app_nil_r. split_and!.
    + intros container _.
      split; [|intros _]; (eapply Forall_impl; [exact Hi_quiet|]; by intros ? []).
    + rewrite Hi_none. simpl. lia.
    + done.
Qed.

Lemma no_acquire_events_of evs cmds :
  events_of evs cmds → Forall (λ ev, ev ≠ EvAcquire) evs.
Proof. induction 1 as [|?? ?? [r ->] _ IH]; by constructor. Qed.

Lemma since_last_acquire_None evs :
  Forall (λ ev, ev ≠ EvAcquire) evs → since_last_acquire evs = None.
Proof. induction 1 as [|[] evs Hev _ IH]; simpl; done. Qed.

Lemma since_last_acquire_app pre tail :
  Forall (λ ev, ev ≠ EvAcquire) tail →
  since_last_acquire (pre ++ EvAcquire :: tail) = Some tail.
Proof.
  intros Htail%since_last_acquire_None.
  induction pre as [|[] pre IH]; simpl; by rewrite ?IH, ?Htail.
Qed.

Lemma connected_app cs cs' : connected (cs ++ cs') = connected cs ++ connected cs'.
Proof. apply omap_app. Qed.

Lemma disconnected_app cs cs' :
  disconnected (cs ++ cs') = disconnected cs ++ disconnected cs'.
Proof. apply omap_app. Qed.

(** The trace of [ensureDockerTunnelRunning]: the mutex is taken once, the
    first request inspects the image, and nothing is connected or
    disconnected. *)
Lemma ensure_shape proxyPort s :
  let o := run (ensureDockerTunnelRunning proxyPort) s in
  (∃ r rest,
     events o = EvAcquire :: EvCall (ImageInspect DOCKER_TUNNEL_IMAGE) r :: rest
     ∧ Forall (λ ev, ev ≠ EvAcquire) rest)
  ∧ connected (calls (events o)) = []
  ∧ disconnected (calls (events o)) = []
  ∧ detached o = [].
Proof.
  intros o. subst o. rewrite ensure_run. cbv zeta.
  destruct (ensure_image_run s)
    as ((r & rest & Hi_events) & Hi_calls%no_acquire_events_of & Hi_detached & _
        & Hi_con & Hi_dis & _).
  destruct (ensure_container_run proxyPort (state (run ensure_image s)))
    as (Hc_calls%no_acquire_events_of & Hc_detached & Hc_con & Hc_dis & _).
  rewrite Hi_events in Hi_calls. apply Forall_cons in Hi_calls as [_ Hrest].
  destruct (settled (run ensure_image s)) as [[]|e]; simpl; norm_trace;
    rewrite ?connected_app, ?disconnected_app, ?Hi_con, ?Hi_dis, ?Hc_con, ?Hc_dis,
      ?Hi_detached, ?Hc_detached, Hi_events; simpl.
  - split_and!; [|done..]. eexists _, _. split; [done|].
    rewrite !Forall_app. split_and!; [done..|by repeat constructor].
  - split_and!; [|done..]. eexists _, _. split; [done|].
    rewrite !Forall_app. split_and!; [done|by repeat constructor].
Qed.

Local Opaque ensureDockerTunnelRunning.

(** C10: [stopDockerTunnel] settles successfully at once, whatever the
    engine does: no request has been answered (none has even been sent) when
    its promise resolves, the engine is untouched, and the teardown block is
    left behind as a promise nobody awaits.  That block can fail - it does
    when listing the containers fails - but such a failure stays in the
    detached promise and never reaches the caller. *)
Theorem stopDockerTunnel_resolves_without_waiting selector s :
  let o := run (stopDockerTunnel selector) s in
  settled o = Ok tt
  ∧ events o = []
  ∧ state o = s
  ∧ detached o = [stop_tunnels selector]
  ∧ (∀ s' e,
       (step s' (ListContainers true (label_filter selector))).2 = Throw e →
       settled (run (stop_tunnels selector) s') = Throw e
       ∧ calls (events (run (stop_tunnels selector) s'))
         = [ListContainers true (label_filter selector)]).
Proof.
  intros o. split_and!; [reflexivity..|]. intros s' e He.
  unfold stop_tunnels. rewrite run_runExclusive. simpl.
  destruct (step s' (ListContainers true (label_filter selector))) as [s1 r].
  simpl in He. subst r. simpl. by norm_trace.
Qed.

Lemma loopback_mapping_Some container localPort :
  loopback_mapping container = Some localPort →
  ∃ mappings, Ports container !! "1080/tcp" = Some mappings
              ∧ localPort ∈ mappings ∧ HostIp localPort = "127.0.0.1".
Proof.
  unfold loopback_mapping. intros Hfind.
  destruct (Ports container !! "1080/tcp") as [mappings|]; [|done].
  exists mappings. apply List.find_some in Hfind as [Hin Hip].
  split_and!; [done|by apply list_elem_of_In|by apply bool_decide_eq_true in Hip].
Qed.

Lemma loopback_mapping_None container mappings :
  loopback_mapping container = None →
  Ports container !! "1080/tcp" = Some mappings →
  Forall (λ mapping, HostIp mapping ≠ "127.0.0.1") mappings.
Proof.
  unfold loopback_mapping. intros Hfind Hports. rewrite Hports in Hfind. simpl in Hfind.
  apply Forall_forall. intros mapping Hin%list_elem_of_In.
  apply (List.find_none _ _ Hfind) in Hin. by apply bool_decide_eq_false in Hin.
Qed.

(** C8: [getDockerTunnelPort] inspects the tunnel container; when that
    fails it runs [ensureDockerTunnelRunning] and inspects again (a failure
    of either is the failure of the call).  From the snapshot it gets, it
    returns [parseInt] of the host port of a 1080/tcp mapping whose host
    address is 127.0.0.1 - the port itself when the engine reports it in
    decimal (any natural number below 2^53 is read back exactly, so every
    port is) - and throws the "No port mapped for Docker tunnel" error when
    1080/tcp has no such mapping. *)
Theorem getDockerTunnelPort_reads_loopback_mapping proxyPort s :
  let name := getDockerTunnelContainerName proxyPort in
  let o := run (getDockerTunnelPort proxyPort) s in
  (∀ container,
     (step s (ContainerInspect name)).2 = Ok container →
     calls (events o) = [ContainerInspect name]
     ∧ settled o = mapped_port container)
  ∧ (∀ e,
       (step s (ContainerInspect name)).2 = Throw e →
       let healed := run (ensureDockerTunnelRunning proxyPort)
                         (step s (ContainerInspect name)).1 in
       match settled healed with
       | Throw e' =>
           calls (events o) = ContainerInspect name :: calls (events healed)
           ∧ settled o = Throw e'
       | Ok _ =>
           calls (events o)
           = ContainerInspect name :: calls (events healed) ++ [ContainerInspect name]
           ∧ settled o = match (step (state healed) (ContainerInspect name)).2 with
                         | Ok container => mapped_port container
                         | Throw e' => Throw e'
                         end
       end)
  ∧ (∀ container,
       match mapped_port container with
       | Ok port =>
           ∃ mappings localPort,
             Ports container !! "1080/tcp" = Some mappings
             ∧ localPort ∈ mappings
             ∧ HostIp localPort = "127.0.0.1"
             ∧ port = JsNumber.parseInt (HostPort localPort) 10
       | Throw e =>
           e = new_Error "No port mapped for Docker tunnel"
           ∧ ∀ mappings, Ports container !! "1080/tcp" = Some mappings →
                         Forall (λ mapping, HostIp mapping ≠ "127.0.0.1") mappings
       end)
  ∧ (∀ port : N, (port < 2 ^ 53)%N →
       JsNumber.parseInt (pretty port) 10 = Int (Z.of_N port)).
Proof.
  intros name o. subst o. split_and!.
  - intros container Hfound. unfold getDockerTunnelPort. fold name. simpl.
    destruct (step s (ContainerInspect name)) as [s1 r]. simpl in Hfound. subst r.
    simpl. unfold after. by destruct (mapped_port container).
  - intros e Hfound healed. subst healed.
    unfold getDockerTunnelPort. fold name. simpl.
    destruct (step s (ContainerInspect name)) as [s1 r]. simpl in Hfound. subst r.
    simpl. rewrite !run_bind. unfold and_then, after. simpl.
    destruct (settled (run (ensureDockerTunnelRunning proxyPort) s1)) as [[]|e'];
      simpl; norm_trace; [|done].
    destruct (step _ (ContainerInspect name)) as [s2 [container|e']]; simpl.
    + destruct (mapped_port container); simpl; norm_trace; by rewrite app_nil_r.
    + norm_trace. done.
  - intros container. unfold mapped_port.
    destruct (loopback_mapping container) as [localPort|] eqn:Hmap.
    + destruct (loopback_mapping_Some _ _ Hmap) as (mappings & ? & ? & ?). eauto 10.
    + split; [done|]. intros mappings. by apply loopback_mapping_None.
  - apply JsNumberFacts.parseInt_pretty.
Qed.

Lemma uniq_from_elem `{EqDecision A} (seen l : list A) x :
  x ∈ Js.uniq_from seen l ↔ x ∈ l ∧ x ∉ seen.
Proof.
  revert seen. induction l as [|y l IH]; intros seen; simpl.
  - rewrite elem_of_nil. tauto.
  - case_decide as Hy.
    + rewrite IH, elem_of_cons. naive_solver.
    + rewrite !elem_of_cons, IH, elem_of_cons. destruct (decide (x = y)); naive_solver.
Qed.

Lemma uniq_from_NoDup `{EqDecision A} (seen l : list A) : NoDup (Js.uniq_from seen l).
Proof.
  revert seen. induction l as [|y l IH]; intros seen; simpl; [constructor|].
  case_decide; [done|]. constructor; [|done].
  rewrite uniq_from_elem, elem_of_cons. tauto.
Qed.

Lemma uniq_elem `{EqDecision A} (l : list A) x : x ∈ Js.uniq l ↔ x ∈ l.
Proof. unfold Js.uniq. rewrite uniq_from_elem, elem_of_nil. tauto. Qed.

Lemma all_Some {A} (l : list (option A)) :
  Forall is_Some l → ∃ l', l = Some <$> l'.
Proof.
  induction 1 as [|? l [x ->] _ [l' ->]]; [by exists []|]. by exists (x :: l').
Qed.

Lemma connected_connects (networks : list (option string)) id endpoint :
  connected ((λ network, NetworkConnect network id endpoint) <$> networks) = networks.
Proof. induction networks as [|n l IH]; [done|]. simpl. by rewrite <- IH at 2. Qed.

Lemma connected_disconnects (networks : list string) id :
  connected ((λ network, NetworkDisconnect network id) <$> networks) = [].
Proof. by induction networks. Qed.

Lemma disconnected_connects (networks : list (option string)) id endpoint :
  disconnected ((λ network, NetworkConnect network id endpoint) <$> networks) = [].
Proof. by induction networks. Qed.

Lemma disconnected_disconnects (networks : list string) id :
  disconnected ((λ network, NetworkDisconnect network id) <$> networks) = networks.
Proof. induction networks as [|n l IH]; [done|]. simpl. by rewrite <- IH at 2. Qed.

(** What the fan-out asks for, as sets. *)
Lemma reconcile_requests_sets interceptedNetworks D container :
  let requests := reconcile_requests interceptedNetworks (Some D) container in
  let current := currentNetworks container in
  ∃ missing,
    connected requests = Some <$> missing
    ∧ NoDup missing
    ∧ list_to_set missing
      =@{gset string} (list_to_set interceptedNetworks ∪ {[D]}) ∖ list_to_set current
    ∧ list_to_set (disconnected requests)
      =@{gset string} list_to_set current ∖ (list_to_set interceptedNetworks ∪ {[D]})
    ∧ D ∉ disconnected requests.
Proof.
  intros requests current. subst requests. unfold reconcile_requests.
  rewrite connected_app, disconnected_app, connected_connects, connected_disconnects,
    disconnected_connects, disconnected_disconnects, app_nil_r. simpl.
  assert (∀ n, Some n ∈ expectedNetworks interceptedNetworks (Some D)
               ↔ n ∈ interceptedNetworks ∨ n = D) as Hexpected.
  { intros n. unfold expectedNetworks.
    rewrite uniq_elem, elem_of_app, list_elem_of_fmap, list_elem_of_singleton.
    naive_solver. }
  assert (∀ n, n ∈ extraNetworks interceptedNetworks (Some D) container
               ↔ n ∈ current ∧ ¬ (n ∈ interceptedNetworks ∨ n = D)) as Hextra.
  { intros n. unfold extraNetworks, Js.includes.
    rewrite list_elem_of_filter, bool_decide_spec, Hexpected. tauto. }
  destruct (all_Some (missingNetworks interceptedNetworks (Some D) container))
    as [missing Hmissing].
  { apply Forall_forall. intros [n|] Hin; [by eexists|].
    apply list_elem_of_filter in Hin as [_ Hin]. unfold expectedNetworks in Hin.
    apply uniq_elem, elem_of_app in Hin as [Hin|Hin].
    - by apply list_elem_of_fmap in Hin as (? & ? & _).
    - by apply list_elem_of_singleton in Hin. }
  assert (∀ n, n ∈ missing
               ↔ (n ∈ interceptedNetworks ∨ n = D) ∧ n ∉ current) as Hmiss.
  { intros n. rewrite <- (list_elem_of_fmap_inj Some), <- Hmissing.
    unfold missingNetworks, Js.includes.
    rewrite list_elem_of_filter, bool_decide_spec, Hexpected.
    rewrite (list_elem_of_fmap_inj Some). subst current. tauto. }
  exists missing. split_and!.
  - done.
  - apply (NoDup_fmap Some). rewrite <- Hmissing.
    apply NoDup_filter, uniq_from_NoDup.
  - apply set_eq. intros n.
    rewrite elem_of_list_to_set, Hmiss. set_solver.
  - apply set_eq. intros n.
    rewrite elem_of_list_to_set, Hextra. set_solver.
  - rewrite Hextra. tauto.
Qed.

(** Telling the requests of a list apart by kind. *)
Lemma filter_connect_none cs : connected cs = [] → List.filter is_connect cs = [].
Proof. induction cs as [|[] cs IH]; simpl; intros Hnone; by try apply IH. Qed.

Lemma filter_disconnect_none cs :
  disconnected cs = [] → List.filter is_disconnect cs = [].
Proof. induction cs as [|[] cs IH]; simpl; intros Hnone; by try apply IH. Qed.

Lemma filter_connect_connects (networks : list (option string)) id :
  List.filter is_connect ((λ network, NetworkConnect network id None) <$> networks)
  = (λ network, NetworkConnect network id None) <$> networks.
Proof. induction networks as [|n l IH]; [done|]. simpl. f_equal. apply IH. Qed.

Lemma filter_connect_disconnects (networks : list string) id :
  List.filter is_connect ((λ network, NetworkDisconnect network id) <$> networks) = [].
Proof. by induction networks. Qed.

Lemma filter_disconnect_connects (networks : list (option string)) id :
  List.filter is_disconnect ((λ network, NetworkConnect network id None) <$> networks)
  = [].
Proof. by induction networks. Qed.

Lemma filter_disconnect_disconnects (networks : list string) id :
  List.filter is_disconnect ((λ network, NetworkDisconnect network id) <$> networks)
  = (λ network, NetworkDisconnect network id) <$> networks.
Proof. induction networks as [|n l IH]; [done|]. simpl. f_equal. apply IH. Qed.

(** The fan-out connects the tunnel container to what is missing and
    disconnects it from what is extra. *)
Lemma reconcile_requests_parts interceptedNetworks bridge container :
  let requests := reconcile_requests interceptedNetworks bridge container in
  List.filter is_connect requests
  = (λ network, NetworkConnect network (Id container) None)
      <$> missingNetworks interceptedNetworks bridge container
  ∧ List.filter is_disconnect requests
    = (λ network, NetworkDisconnect network (Id container))
        <$> extraNetworks interceptedNetworks bridge container.
Proof.
  unfold reconcile_requests. cbv zeta. rewrite !List.filter_app.
  rewrite filter_connect_connects, filter_connect_disconnects,
    filter_disconnect_connects, filter_disconnect_disconnects.
  by rewrite (right_id_L [] (++)).
Qed.

(** What is missing and what is extra, as sets. *)
Lemma reconcile_networks_sets interceptedNetworks D container :
  let current := currentNetworks container in
  ∃ missing,
    missingNetworks interceptedNetworks (Some D) container = Some <$> missing
    ∧ NoDup missing
    ∧ list_to_set missing
      =@{gset string} (list_to_set interceptedNetworks ∪ {[D]}) ∖ list_to_set current
    ∧ list_to_set (extraNetworks interceptedNetworks (Some D) container)
      =@{gset string} list_to_set current ∖ (list_to_set interceptedNetworks ∪ {[D]})
    ∧ D ∉ extraNetworks interceptedNetworks (Some D) container.
Proof.
  destruct (reconcile_requests_sets interceptedNetworks D container)
    as (missing & Hcon & Hnodup & Hmissing & Hextra & Hkept).
  unfold reconcile_requests in Hcon, Hextra, Hkept.
  rewrite connected_app, connected_connects, connected_disconnects,
    (right_id_L [] (++)) in Hcon.
  rewrite disconnected_app, disconnected_connects, disconnected_disconnects in Hextra, Hkept.
  by exists missing.
Qed.

Local Opaque reconcile_requests.

(** The trace of the callback run under the mutex. *)
Lemma reconcile_run proxyPort interceptedNetworks bridge s :
  let name := getDockerTunnelContainerName proxyPort in
  let o := run (runExclusive (reconcile proxyPort interceptedNetworks (Ok bridge))) s in
  ∃ rest,
    events o
    = EvAcquire :: EvCall (ContainerInspect name) (step s (ContainerInspect name)).2
        :: rest ++ [EvRelease]
    ∧ match (step s (ContainerInspect name)).2 with
      | Ok container =>
          events_of rest (reconcile_requests interceptedNetworks bridge container)
      | Throw _ => rest = []
      end.
Proof.
  intros name o. subst o. rewrite run_runExclusive. unfold reconcile. fold name.
  cbn [state events settled detached]. simpl.
  destruct (step s (ContainerInspect name)) as [s1 [container|e]]; simpl.
  - destruct (run_Promise_all_requests
                (reconcile_requests interceptedNetworks bridge container) s1)
      as (Hev & _).
    unfold after. simpl. rewrite Hev. eexists. split; [done|].
    apply answers_events_of.
  - exists []. done.
Qed.

Local Opaque runExclusive reconcile.

(** C3: with [D] the id of the default bridge (the first network that
    [listNetworks] returns when the call starts) and [current] the network
    ids of the snapshot of the tunnel container read right after the mutex
    was taken for the reconciliation, the connect requests of the whole call
    are exactly one per element of ([desired] ∪ {D}) − [current], and the
    disconnect requests are exactly one per network of [current] that is
    not in [desired] ∪ {D}, all of them for that container; so [D] is never
    disconnected.  This holds whenever the engine lists the bridge, the
    tunnel is there or [ensureDockerTunnelRunning] brings it up, and the
    inspect under the mutex answers. *)
Theorem updateDockerTunnelledNetworks_reconciles proxyPort interceptedNetworks s :
  let name := getDockerTunnelContainerName proxyPort in
  let o := run (updateDockerTunnelledNetworks proxyPort interceptedNetworks) s in
  let listed := step s (ListNetworks builtin_bridge_filter) in
  let found := step listed.1 (ContainerInspect name) in
  let healed := run (ensureDockerTunnelRunning proxyPort) found.1 in
  let ready := if is_Ok found.2 then found.1 else state healed in
  let locked := step ready (ContainerInspect name) in
  ∀ bridge others container,
    listed.2 = Ok (bridge :: others) →
    (is_Ok found.2 = false → settled healed = Ok tt) →
    locked.2 = Ok container →
    let D := net_Id bridge in
    let current := currentNetworks container in
    ∃ missing extra,
      locked_snapshot (events o) = Some container
      ∧ List.filter is_connect (calls (events o))
        = (λ network, NetworkConnect (Some network) (Id container) None) <$> missing
      ∧ List.filter is_disconnect (calls (events o))
        = (λ network, NetworkDisconnect network (Id container)) <$> extra
      ∧ NoDup missing
      ∧ list_to_set missing
        =@{gset string} (list_to_set interceptedNetworks ∪ {[D]}) ∖ list_to_set current
      ∧ list_to_set extra
        =@{gset string} list_to_set current ∖ (list_to_set interceptedNetworks ∪ {[D]})
      ∧ D ∉ extra.
Proof.
  intros name o listed found healed ready locked bridge others container
    Hlisted Hhealed Hlocked D current.
  assert (∃ pre rest,
    events o = pre ++ EvAcquire :: EvCall (ContainerInspect name) (Ok container)
                 :: rest ++ [EvRelease]
    ∧ connected (calls pre) = [] ∧ disconnected (calls pre) = []
    ∧ events_of rest
        (reconcile_requests interceptedNetworks (Some (net_Id bridge)) container))
    as (pre & rest & Hevents & Hpre_con & Hpre_dis & Hrest).
  { subst o locked ready healed found listed.
    unfold updateDockerTunnelledNetworks. fold name. simpl.
    destruct (step s (ListNetworks builtin_bridge_filter)) as [s1 r1].
    simpl in Hlisted, Hhealed, Hlocked |- *. subst r1. simpl.
    change (defaultBridgeId_of (bridge :: others)) with (Some (net_Id bridge)).
    destruct (step s1 (ContainerInspect name)) as [s2 [present|e2]];
      simpl in Hhealed, Hlocked |- *.
    - destruct (reconcile_run proxyPort interceptedNetworks (Some (net_Id bridge)) s2)
        as (rest & Hevents & Hrest). fold name in Hevents, Hrest.
      destruct (step s2 (ContainerInspect name)) as [s3 [snapshot|e3]];
        simpl in Hlocked, Hevents, Hrest; [|done]. injection Hlocked as ->.
      eexists [_; _], rest. split; [by rewrite Hevents|]. by split_and!.
    - specialize (Hhealed eq_refl). rewrite run_bind. unfold and_then.
      destruct (ensure_shape proxyPort s2) as (_ & Hcon & Hdis & _).
      rewrite Hhealed. cbn [events].
      destruct (reconcile_run proxyPort interceptedNetworks (Some (net_Id bridge))
                  (state (run (ensureDockerTunnelRunning proxyPort) s2)))
        as (rest & Hevents & Hrest). fold name in Hevents, Hrest.
      destruct (step (state (run (ensureDockerTunnelRunning proxyPort) s2))
                     (ContainerInspect name)) as [s3 [snapshot|e3]];
        simpl in Hlocked, Hevents, Hrest; [|done]. injection Hlocked as ->.
      eexists (_ :: _ :: events (run (ensureDockerTunnelRunning proxyPort) s2)), rest.
      split; [by rewrite Hevents|]. norm_trace. simpl. by split_and!. }
  destruct (reconcile_networks_sets interceptedNetworks (net_Id bridge) container)
    as (missing & Hmissing_eq & Hnodup & Hmissing & Hextra & Hkept).
  destruct (reconcile_requests_parts interceptedNetworks (Some (net_Id bridge)) container)
    as [Hconnects Hdisconnects].
  rewrite Hmissing_eq, <- list_fmap_compose in Hconnects.
  apply events_of_calls in Hrest as Hcalls.
  exists missing, (extraNetworks interceptedNetworks (Some (net_Id bridge)) container).
  rewrite Hevents. split_and!; [| | |done..].
  - unfold locked_snapshot. rewrite since_last_acquire_app; [done|].
    constructor; [done|]. apply Forall_app. split; [|by repeat constructor].
    by eapply no_acquire_events_of.
  - norm_trace. rewrite Hcalls, List.filter_app, (filter_connect_none _ Hpre_con).
    cbn [List.filter is_connect app].
    rewrite List.filter_app, Hconnects. cbn [List.filter]. by rewrite ?(right_id_L [] (++)).
  - norm_trace. rewrite Hcalls, List.filter_app, (filter_disconnect_none _ Hpre_dis).
    cbn [List.filter is_disconnect app].
    rewrite List.filter_app, Hdisconnects. cbn [List.filter]. by rewrite ?(right_id_L [] (++)).
Qed.

End WithContext.

Lemma find_after_omap (test : ContainerInspectInfo → bool)
    (f : ContainerInspectInfo → ContainerInspectInfo) (touched : ContainerInspectInfo → bool)
    (cs : list ContainerInspectInfo) :
  (∀ c, test (f c) = test c) →
  List.find test (omap (λ c, if touched c then Some (f c) else Some c) cs)
  = (λ c, if touched c then f c else c) <$> List.find test cs.
Proof.
  intros Htest. induction cs as [|c cs IH]; [done|]. simpl.
  destruct (touched c) eqn:Ht; simpl.
  - rewrite Htest. destruct (test c); simpl; [by rewrite Ht|done].
  - destruct (test c); simpl; [by rewrite Ht|done].
Qed.

Lemma reference_well_behaved : @WellBehaved Reference.engine.
Proof.
  split.
  - intros s c c' Hc _. by destruct c.
  - intros s image _. simpl. rewrite bool_decide_eq_true_2; [done|by left].
  - done.
  - intros s c image Hc. destruct c; try done; simpl.
    + unfold Reference.create. by destruct (Reference.find_container s _).
    + unfold Reference.on_container. by destruct (Reference.find_container s _).
  - intros s name container. simpl.
    destruct (Reference.find_container s name) as [c|] eqn:Hfind; [|done].
    intros [= ->]. unfold Reference.on_container.
    destruct (Reference.find_container s (Id container)) as [c'|] eqn:Hid; [|done].
    intros _. simpl. unfold Reference.find_container in *. simpl.
    rewrite (find_after_omap _ (Reference.set_running true)) by done.
    rewrite Hfind. simpl.
    assert (Reference.is_container (Id container) container = true) as ->.
    { apply bool_decide_eq_true_2. by left. }
    eauto.
Qed.

Lemma updateDockerTunnelledNetworks_reconciles_witness :
  let tunnel := Reference.tunnel ["A"; "B"] [] in
  let o := run (updateDockerTunnelledNetworks 8000 ["B"; "C"])
               (Reference.hosting tunnel) in
  ∃ missing extra,
    List.filter is_connect (calls (events o))
    = (λ network, NetworkConnect (Some network) "tunnel" None) <$> missing
    ∧ List.filter is_disconnect (calls (events o))
      = (λ network, NetworkDisconnect network "tunnel") <$> extra
    ∧ list_to_set missing =@{gset string} {[ "C"; "bridge0" ]}
    ∧ list_to_set extra =@{gset string} {[ "A" ]}.
Proof.
  intros tunnel o.
  destruct (@updateDockerTunnelledNetworks_reconciles Reference.engine
              Reference.externals 8000 ["B"; "C"] (Reference.hosting tunnel)
              Reference.bridge [] tunnel eq_refl
              (λ absent : true = false, match absent with end) eq_refl)
    as (missing & extra & _ & Hcon & Hdis & _ & Hmissing & Hextra & _).
  exists missing, extra. split_and!; [exact Hcon|exact Hdis| |].
  - etransitivity; [exact Hmissing|]. apply (bool_decide_unpack _). by vm_compute.
  - etransitivity; [exact Hextra|]. apply (bool_decide_unpack _). by vm_compute.
Defined.

Lemma getDockerTunnelPort_reads_loopback_mapping_witness :
  let mapped := Reference.tunnel ["bridge0"]
                  [ {| HostIp := "0.0.0.0"; HostPort := "8080" |};
                    {| HostIp := "127.0.0.1"; HostPort := "49153" |} ] in
  let unmapped := Reference.tunnel ["bridge0"]
                    [ {| HostIp := "0.0.0.0"; HostPort := "8080" |} ] in
  settled (run (getDockerTunnelPort 8000) (Reference.hosting mapped)) = Ok (Int 49153)
  ∧ settled (run (getDockerTunnelPort 8000) (Reference.hosting unmapped))
    = Throw (new_Error "No port mapped for Docker tunnel").
Proof.
  intros mapped unmapped. split.
  - destruct (proj1 (@getDockerTunnelPort_reads_loopback_mapping Reference.engine
                       Reference.externals 8000 (Reference.hosting mapped))
                mapped eq_refl) as [_ Hsettled].
    etransitivity; [exact Hsettled|]. reflexivity.
  - destruct (proj1 (@getDockerTunnelPort_reads_loopback_mapping Reference.engine
                       Reference.externals 8000 (Reference.hosting unmapped))
                unmapped eq_refl) as [_ Hsettled].
    etransitivity; [exact Hsettled|]. reflexivity.
Defined.

Lemma ensureDockerTunnelRunning_idempotent_witness :
  let first := run (ensureDockerTunnelRunning 8000) Reference.fresh in
  let second := run (ensureDockerTunnelRunning 8000) (state first) in
  settled first = Ok tt
  ∧ calls (events second)
    = [ImageInspect DOCKER_TUNNEL_IMAGE;
       ContainerInspect (getDockerTunnelContainerName 8000)]
  ∧ settled second = Ok tt
  ∧ (length (List.filter is_create (calls (events first ++ events second))) ≤ 1)%nat.
Proof.
  intros first second.
  assert (settled first = Ok tt) as Hfirst by reflexivity.
  split; [exact Hfirst|].
  exact (proj2 (proj2 (@ensureDockerTunnelRunning_idempotent Reference.engine
                         Reference.externals reference_well_behaved 8000
                         Reference.fresh)) Hfirst).
Defined.

End TunnelSpec.

Module TunnelTraces.
Import Docker Async AsyncFacts EngineLaws Locking Tunnel TunnelSpec.

Section WithContext.
Context `{Engine} `{Externals}.

Local Opaque tunnel_options getDockerTunnelContainerName DOCKER_TUNNEL_IMAGE
  Promise_all builtin_bridge_filter.

(** One step of symbolic execution of the tunnel programs. *)
Ltac tunnel_step :=
  match goal with
  | |- context [step ?s ?c] =>
      let s' := fresh "s" in
      destruct (step s c) as [s' [?|?]] eqn:?; simpl
  | |- context [defaultBridgeGateway_of ?networks] =>
      destruct (defaultBridgeGateway_of networks) eqn:?; simpl
  | |- context [if Running ?c then _ else _] =>
      destruct (Running c) eqn:?; simpl
  end.

(** Run [ensureDockerTunnelRunning] symbolically, down to one goal per way
    the engine can answer: first the image, then the container. *)
Ltac ensure_cases :=
  rewrite ensure_run; cbv zeta;
  unfold ensure_image; simpl;
  repeat tunnel_step;
  unfold after; simpl;
  try (unfold ensure_container; simpl;
       repeat tunnel_step;
       unfold after; simpl).

(** Case analysis on membership in a computed list. *)
Ltac split_members :=
  repeat match goal with
  | Hin : _ ∈ _ :: _ |- _ => apply elem_of_cons in Hin as [Hin|Hin]
  | Hin : _ ∈ _ ++ _ |- _ => apply elem_of_app in Hin as [Hin|Hin]
  | Hin : _ ∈ [] |- _ => by apply elem_of_nil in Hin
  end;
  simplify_eq/=.

(** *** Creating the tunnel container *)

Local Transparent tunnel_options.

Lemma tunnel_options_fields proxyPort engineVersion defaultBridgeGateway :
  let options := tunnel_options proxyPort engineVersion defaultBridgeGateway in
  create_name options = getDockerTunnelContainerName proxyPort
  ∧ Image (create_Config options) = DOCKER_TUNNEL_IMAGE
  ∧ Labels (create_Config options) = [(DOCKER_TUNNEL_LABEL, pretty proxyPort)]
  ∧ AutoRemove (create_HostConfig options) = true
  ∧ PortBindings (create_HostConfig options)
    = [("1080/tcp", [ {| req_HostIp := "127.0.0.1"; req_HostPort := None |} ])]
  ∧ Binds (create_HostConfig options) = None
  ∧ create_EndpointsConfig options = None
  ∧ (is_Some (ExtraHosts (create_HostConfig options)) ↔ process_platform = "linux").
Proof. split_and!; try done. simpl. case_decide; split; try done. Qed.

Lemma tunnel_options_host proxyPort engineVersion networks gateway :
  defaultBridgeGateway_of networks = Ok gateway →
  process_platform = "linux" →
  ExtraHosts (create_HostConfig (tunnel_options proxyPort engineVersion gateway))
  = Some [ DOCKER_HOST_HOSTNAME +:+ ":" +:+
             (if semver_satisfies engineVersion ">= 20.10" then "host-gateway"
              else match networks with
                   | builtinBridge :: _ =>
                       match Gateways builtinBridge with
                       | Some (Some gateway :: _) =>
                           if decide (gateway = "") then "172.17.0.1" else gateway
                       | _ => "172.17.0.1"
                       end
                   | [] => "172.17.0.1"
                   end) ].
Proof.
  intros Hgateway Hlinux. simpl. rewrite decide_True by done.
  do 3 f_equal. destruct (semver_satisfies _ _); [done|].
  destruct networks as [|bridge others]; simpl in Hgateway; [by simplify_eq|].
  destruct (Gateways bridge) as [[|[g|] gs]|]; by simplify_eq.
Qed.

Local Opaque tunnel_options.

(** X11: the tunnel container is only ever asked for with its SOCKS port
    bound to the loopback address.  Whatever the engine answers, a create
    request of [ensureDockerTunnelRunning] names the container after the
    proxy port, uses the tunnel image, labels it with the proxy port, makes
    it auto-remove, binds 1080/tcp to 127.0.0.1 only and leaves the host
    port to the engine, mounts nothing, attaches no network, and defines an
    extra host exactly on Linux. *)
Theorem tunnel_container_is_bound_to_loopback proxyPort s :
  let o := run (ensureDockerTunnelRunning proxyPort) s in
  ∀ options, CreateContainer options ∈ calls (events o) →
    create_name options = getDockerTunnelContainerName proxyPort
    ∧ Image (create_Config options) = DOCKER_TUNNEL_IMAGE
    ∧ Labels (create_Config options) = [(DOCKER_TUNNEL_LABEL, pretty proxyPort)]
    ∧ AutoRemove (create_HostConfig options) = true
    ∧ PortBindings (create_HostConfig options)
      = [("1080/tcp", [ {| req_HostIp := "127.0.0.1"; req_HostPort := None |} ])]
    ∧ Binds (create_HostConfig options) = None
    ∧ create_EndpointsConfig options = None
    ∧ (is_Some (ExtraHosts (create_HostConfig options)) ↔ process_platform = "linux").
Proof.
  intros o. subst o.
  pattern (run (ensureDockerTunnelRunning proxyPort) s).
  match goal with |- ?P _ => set (Q := P) end.
  ensure_cases.
  all: subst Q; cbv beta; simpl; norm_trace; simpl.
  all: intros options Hin; split_members.
  all: apply tunnel_options_fields.
Qed.

(** X12: the address given to the host's name in the tunnel container, on
    Linux.  With [version] what the version request returned and [networks]
    what listing the builtin bridges returned, the one extra host of a
    create request maps [DOCKER_HOST_HOSTNAME] to "host-gateway" when the
    coerced version ("0.0.0" when it cannot be coerced) satisfies
    ">= 20.10", and otherwise to the gateway of the first IPAM configuration
    of the first bridge, or to 172.17.0.1 when there is no bridge, no IPAM
    configuration, or no (or an empty) gateway in it. *)
Theorem tunnel_host_address proxyPort s :
  let o := run (ensureDockerTunnelRunning proxyPort) s in
  ∀ version networks options,
    version ∈ versions (events o) →
    networks ∈ listings (events o) →
    CreateContainer options ∈ calls (events o) →
    process_platform = "linux" →
    ExtraHosts (create_HostConfig options)
    = Some [ DOCKER_HOST_HOSTNAME +:+ ":" +:+
               (if semver_satisfies (default "0.0.0" (semver_coerce version)) ">= 20.10"
                then "host-gateway"
                else match networks with
                     | builtinBridge :: _ =>
                         match Gateways builtinBridge with
                         | Some (Some gateway :: _) =>
                             if decide (gateway = "") then "172.17.0.1" else gateway
                         | _ => "172.17.0.1"
                         end
                     | [] => "172.17.0.1"
                     end) ].
Proof.
  intros o. subst o.
  pattern (run (ensureDockerTunnelRunning proxyPort) s).
  match goal with |- ?P _ => set (Q := P) end.
  ensure_cases.
  all: subst Q; cbv beta; simpl; norm_trace; simpl.
  all: intros version networks options Hversion Hnetworks Hin Hlinux; split_members.
  all: by apply tunnel_options_host.
Qed.

(** X13: a builtin bridge whose IPAM configuration list is empty makes
    [ensureDockerTunnelRunning] fail.  When the listing of the builtin
    bridges returns such a bridge first, reading the gateway off the missing
    first configuration throws: the call fails right after the listing, and
    no container is created or started. *)
Theorem ensure_fails_on_empty_ipam_config proxyPort s :
  let o := run (ensureDockerTunnelRunning proxyPort) s in
  ∀ builtinBridge others,
    (builtinBridge :: others) ∈ listings (events o) →
    Gateways builtinBridge = Some [] →
    (∃ e, settled o = Throw e)
    ∧ last (calls (events o)) = Some (ListNetworks builtin_bridge_filter)
    ∧ Forall (λ c, is_create c = false ∧ is_start c = false) (calls (events o)).
Proof.
  intros o. subst o.
  pattern (run (ensureDockerTunnelRunning proxyPort) s).
  match goal with |- ?P _ => set (Q := P) end.
  ensure_cases.
  all: subst Q; cbv beta; simpl; norm_trace; simpl.
  all: intros bridge others Hin Hempty; split_members.
  all: try match goal with
           | Hg : _ = Ok _ |- _ => rewrite Hempty in Hg; discriminate Hg
           end.
  all: split_and!; eauto; repeat constructor.
Qed.

(** X14: how [ensureDockerTunnelRunning] fails and what it guarantees.  Only
    failures of the two kinds of inspect requests are survived: when any
    other request fails, it is the last request sent and its error is the
    outcome.  The image is pulled exactly when inspecting it fails, and when
    the pull fails nothing is asked about the container.  When the call
    succeeds, the last snapshot read of the tunnel container shows it
    running, or the last request started it, by its id. *)
Theorem ensureDockerTunnelRunning_failures proxyPort s :
  let o := run (ensureDockerTunnelRunning proxyPort) s in
  let name := getDockerTunnelContainerName proxyPort in
  (∀ c e, (c, e) ∈ failures (events o) → is_inspect c = false →
          settled o = Throw e ∧ last (calls (events o)) = Some c)
  ∧ (Pull DOCKER_TUNNEL_IMAGE ∈ calls (events o)
     ↔ is_Ok (step s (ImageInspect DOCKER_TUNNEL_IMAGE)).2 = false)
  ∧ (∀ e, (Pull DOCKER_TUNNEL_IMAGE, e) ∈ failures (events o) →
          calls (events o) = [ImageInspect DOCKER_TUNNEL_IMAGE; Pull DOCKER_TUNNEL_IMAGE])
  ∧ (settled o = Ok tt →
       ∃ container,
         last (snapshots (events o)) = Some (name, container)
         ∧ (Running container = true
            ∨ last (calls (events o)) = Some (ContainerStart (Id container)))).
Proof.
  intros o name. subst o name.
  pattern (run (ensureDockerTunnelRunning proxyPort) s).
  match goal with |- ?P _ => set (Q := P) end.
  ensure_cases.
  all: subst Q; cbv beta; simpl; norm_trace; simpl.
  all: repeat match goal with
              | E : step ?s0 (ImageInspect ?image) = _
                |- context [step ?s0 (ImageInspect ?image)] => rewrite E
              end; simpl.
  all: split_and!; [intros c' e' Hin Hc|split; [intros Hin|intros Hno]|intros e' Hin|intros Hok].
  all: split_members; try done.
  all: try (split; [done|]; by rewrite ?last_cons).
  all: try (by apply (list_elem_of_lookup_2 _ 1%nat)).
  all: eexists; split; [done|]; by (left + right).
Qed.

(** *** Reconciling the networks *)

Local Opaque ensureDockerTunnelRunning runExclusive reconcile.

(** [updateDockerTunnelledNetworks], one await after the other. *)
Lemma run_update proxyPort interceptedNetworks s :
  let name := getDockerTunnelContainerName proxyPort in
  let listed := step s (ListNetworks builtin_bridge_filter) in
  let defaultBridgeId :=
    match listed.2 with
    | Ok networks => Ok (defaultBridgeId_of networks)
    | Throw e => Throw e
    end in
  let found := step listed.1 (ContainerInspect name) in
  let lock s' := run (runExclusive (reconcile proxyPort interceptedNetworks defaultBridgeId)) s' in
  let asked := [EvCall (ListNetworks builtin_bridge_filter) listed.2;
                EvCall (ContainerInspect name) found.2] in
  run (updateDockerTunnelledNetworks proxyPort interceptedNetworks) s
  = match found.2 with
    | Ok _ =>
        mkOutcome (state (lock found.1)) (asked ++ events (lock found.1))
                  (settled (lock found.1)) (detached (lock found.1))
    | Throw _ =>
        let healed := run (ensureDockerTunnelRunning proxyPort) found.1 in
        match settled healed with
        | Ok _ =>
            mkOutcome (state (lock (state healed)))
                      (asked ++ events healed ++ events (lock (state healed)))
                      (settled (lock (state healed)))
                      (detached healed ++ detached (lock (state healed)))
        | Throw e =>
            mkOutcome (state healed) (asked ++ events healed) (Throw e) (detached healed)
        end
    end.
Proof.
  intros name listed defaultBridgeId found lock asked.
  subst listed defaultBridgeId found lock asked.
  unfold updateDockerTunnelledNetworks. fold name. simpl.
  destruct (step s (ListNetworks builtin_bridge_filter)) as [s1 listed]. simpl.
  destruct (step s1 (ContainerInspect name)) as [s2 [found|e]]; simpl.
  - unfold after. simpl. by destruct (run _ s2).
  - rewrite run_bind. unfold and_then, after.
    destruct (settled (run (ensureDockerTunnelRunning proxyPort) s2)) as [[]|e']; simpl; done.
Qed.

Local Transparent ensureDockerTunnelRunning runExclusive reconcile.
Local Opaque reconcile_requests.

(** The callback run under the mutex, whatever the promise of the bridge id
    settled to. *)
Lemma run_reconcile proxyPort interceptedNetworks defaultBridgeId s :
  let name := getDockerTunnelContainerName proxyPort in
  let o := run (runExclusive (reconcile proxyPort interceptedNetworks defaultBridgeId)) s in
  let found := (step s (ContainerInspect name)).2 in
  ∃ rest,
    events o = EvAcquire :: EvCall (ContainerInspect name) found :: rest ++ [EvRelease]
    ∧ match found, defaultBridgeId with
      | Ok container, Ok bridge =>
          events_of rest (reconcile_requests interceptedNetworks bridge container)
          ∧ (settled o = Ok tt ↔ failures rest = [])
          ∧ (∀ e, settled o = Throw e → ∃ c, (c, e) ∈ failures rest)
      | Ok _, Throw e | Throw e, _ => rest = [] ∧ settled o = Throw e
      end.
Proof.
  intros name o found. subst o found. rewrite run_runExclusive. unfold reconcile. fold name.
  cbn [state events settled detached]. simpl.
  destruct (step s (ContainerInspect name)) as [s1 [container|e]]; simpl.
  - destruct defaultBridgeId as [bridge|e]; simpl.
    + destruct (run_Promise_all_requests
                  (reconcile_requests interceptedNetworks bridge container) s1)
        as (Hev & _ & Hok & Herr & _).
      unfold after. simpl. eexists. split; [done|]. rewrite Hev in Hok, Herr.
      rewrite Hev. split; [apply answers_events_of|]. split; [|exact Herr].
      rewrite <- Hok. by destruct (settled _) as [[]|].
    + by exists [].
  - exists []. by destruct defaultBridgeId.
Qed.

Lemma locked_snapshot_lock pre name (found : result ContainerInspectInfo) rest cmds :
  events_of rest cmds →
  locked_snapshot (pre ++ EvAcquire :: EvCall (ContainerInspect name) found
                     :: rest ++ [EvRelease])
  = match found with Ok container => Some container | Throw _ => None end.
Proof.
  intros Hrest%no_acquire_events_of. unfold locked_snapshot.
  rewrite since_last_acquire_app.
  - by destruct found.
  - constructor; [done|]. apply Forall_app. split; [done|by repeat constructor].
Qed.

(** When the listing of the bridges succeeds and a snapshot is read under
    the mutex, the trace ends with the fan-out of every request. *)
Lemma update_locked proxyPort interceptedNetworks s networks container :
  let name := getDockerTunnelContainerName proxyPort in
  let o := run (updateDockerTunnelledNetworks proxyPort interceptedNetworks) s in
  (step s (ListNetworks builtin_bridge_filter)).2 = Ok networks →
  locked_snapshot (events o) = Some container →
  ∃ pre rest,
    events o = pre ++ EvAcquire :: EvCall (ContainerInspect name) (Ok container)
                 :: rest ++ [EvRelease]
    ∧ connected (calls pre) = [] ∧ disconnected (calls pre) = []
    ∧ events_of rest
        (reconcile_requests interceptedNetworks (defaultBridgeId_of networks) container)
    ∧ (settled o = Ok tt ↔ failures rest = [])
    ∧ (∀ e, settled o = Throw e → ∃ c, (c, e) ∈ failures rest).
Proof.
  intros name o Hlisted. subst o. rewrite run_update. cbv zeta. fold name.
  rewrite Hlisted.
  set (s1 := (step s (ListNetworks builtin_bridge_filter)).1).
  set (bridge := defaultBridgeId_of networks).
  assert (∀ s' pre,
    connected (calls pre) = [] → disconnected (calls pre) = [] →
    let lock := run (runExclusive (reconcile proxyPort interceptedNetworks (Ok bridge))) s' in
    locked_snapshot (pre ++ events lock) = Some container →
    ∃ pre' rest,
      pre ++ events lock
      = pre' ++ EvAcquire :: EvCall (ContainerInspect name) (Ok container)
          :: rest ++ [EvRelease]
      ∧ connected (calls pre') = [] ∧ disconnected (calls pre') = []
      ∧ events_of rest (reconcile_requests interceptedNetworks bridge container)
      ∧ (settled lock = Ok tt ↔ failures rest = [])
      ∧ (∀ e, settled lock = Throw e → ∃ c, (c, e) ∈ failures rest)) as Hlock.
  { intros s' pre Hcon Hdis lock. subst lock.
    destruct (run_reconcile proxyPort interceptedNetworks (Ok bridge) s')
      as (rest & Hevents & Hrest). fold name in Hevents, Hrest.
    rewrite Hevents.
    destruct (step s' (ContainerInspect name)).2 as [container'|e].
    - destruct Hrest as [Hrest Hsettled].
      rewrite (locked_snapshot_lock _ _ _ _ _ Hrest). intros [= ->].
      exists pre, rest. done.
    - destruct Hrest as [-> _].
      rewrite (locked_snapshot_lock _ _ _ [] []) by constructor. done. }
  destruct (step s1 (ContainerInspect name)) as [s2 [found|e]]; cbn [fst snd].
  - cbn [events settled]. apply Hlock; done.
  - destruct (ensure_shape proxyPort s2)
      as ((r & rest & Hevents & Hrest) & Hcon & Hdis & _).
    destruct (settled (run (ensureDockerTunnelRunning proxyPort) s2)) as [[]|e'];
      cbn [events settled].
    + rewrite (assoc_L (++)). apply Hlock.
      * norm_trace. by rewrite connected_app, Hcon.
      * norm_trace. by rewrite disconnected_app, Hdis.
    + intros Hlocked. exfalso. revert Hlocked. rewrite Hevents.
      unfold locked_snapshot.
      rewrite (since_last_acquire_app [_; _]) by by constructor. done.
Qed.

Local Transparent reconcile_requests.

Lemma uniq_from_snoc `{EqDecision A} (seen l : list A) x :
  x ∉ seen → x ∉ l → Js.uniq_from seen (l ++ [x]) = Js.uniq_from seen l ++ [x].
Proof.
  revert seen. induction l as [|y l IH]; intros seen Hseen Hl; simpl.
  - by rewrite decide_False.
  - apply not_elem_of_cons in Hl as [Hxy Hl].
    case_decide; [by apply IH|]. rewrite IH; [done| |done].
    rewrite not_elem_of_cons. done.
Qed.

(** Without a default bridge the expected networks end with [undefined],
    which is never among the current ones. *)
Lemma reconcile_requests_no_bridge interceptedNetworks container :
  let requests := reconcile_requests interceptedNetworks None container in
  let current := currentNetworks container in
  NetworkConnect None (Id container) None ∈ requests
  ∧ ∃ missing,
      connected requests = (Some <$> missing) ++ [None]
      ∧ NoDup missing
      ∧ list_to_set missing
        =@{gset string} list_to_set interceptedNetworks ∖ list_to_set current
      ∧ list_to_set (disconnected requests)
        =@{gset string} list_to_set current ∖ list_to_set interceptedNetworks.
Proof.
  intros requests current. subst requests. unfold reconcile_requests.
  rewrite connected_app, disconnected_app, connected_connects, connected_disconnects,
    disconnected_connects, disconnected_disconnects, (right_id_L [] (++)). simpl.
  rewrite elem_of_app, list_elem_of_fmap.
  assert (expectedNetworks interceptedNetworks None
          = Js.uniq (Some <$> interceptedNetworks) ++ [None]) as Hexpected.
  { unfold expectedNetworks, Js.uniq. apply uniq_from_snoc; [by apply not_elem_of_nil|].
    by intros (? & ? & _)%list_elem_of_fmap. }
  unfold missingNetworks, extraNetworks. rewrite Hexpected, filter_app.
  rewrite (filter_cons_True _ None).
  2:{ unfold Js.includes. rewrite bool_decide_spec.
      by intros (? & ? & _)%list_elem_of_fmap. }
  rewrite filter_nil.
  destruct (all_Some (filter (λ network, ¬ Js.includes (Some <$> currentNetworks container)
                                           network)
                             (Js.uniq (Some <$> interceptedNetworks))))
    as [missing Hmissing].
  { apply Forall_forall. intros [n|] Hin; [by eexists|].
    apply list_elem_of_filter in Hin as [_ Hin].
    by apply uniq_elem, list_elem_of_fmap in Hin as (? & ? & _). }
  assert (∀ n, n ∈ missing ↔ n ∈ interceptedNetworks ∧ n ∉ current) as Hmiss.
  { intros n. rewrite <- (list_elem_of_fmap_inj Some), <- Hmissing.
    unfold Js.includes.
    rewrite list_elem_of_filter, bool_decide_spec, uniq_elem.
    rewrite !(list_elem_of_fmap_inj Some). subst current. tauto. }
  split.
  { left. exists None. split; [done|]. rewrite elem_of_app, list_elem_of_singleton. by right. }
  exists missing. split_and!.
  - by rewrite Hmissing.
  - apply (NoDup_fmap Some). rewrite <- Hmissing.
    apply NoDup_filter, uniq_from_NoDup.
  - apply set_eq. intros n. rewrite elem_of_list_to_set, Hmiss. set_solver.
  - apply set_eq. intros n.
    rewrite elem_of_list_to_set, list_elem_of_filter. unfold Js.includes.
    rewrite bool_decide_spec, elem_of_app, uniq_elem, list_elem_of_fmap_inj by apply _.
    rewrite list_elem_of_singleton. subst current. set_solver.
Qed.

Lemma list_to_set_empty_nil (l : list string) : list_to_set l =@{gset string} ∅ → l = [].
Proof. destruct l as [|x l]; [done|]. simpl. set_solver. Qed.

(** A fan-out that connects and disconnects nothing is empty. *)
Lemma reconcile_requests_nil interceptedNetworks bridge container :
  connected (reconcile_requests interceptedNetworks bridge container) = [] →
  disconnected (reconcile_requests interceptedNetworks bridge container) = [] →
  reconcile_requests interceptedNetworks bridge container = [].
Proof.
  unfold reconcile_requests.
  rewrite connected_app, disconnected_app, connected_connects, connected_disconnects,
    disconnected_connects, disconnected_disconnects, (right_id_L [] (++)). simpl.
  by intros -> ->.
Qed.

Local Opaque reconcile_requests.

(** X15: the fan-out of [updateDockerTunnelledNetworks] sends every request,
    whatever fails.  When listing the bridges succeeded and a snapshot was
    read under the mutex, the trace ends, between taking the mutex and
    releasing it, with the inspect and then all the connect and disconnect
    requests computed from that snapshot, even when some of them fail; none
    is sent before.  The call succeeds exactly when none of them failed,
    and otherwise fails with the error of one of them. *)
Theorem update_sends_every_request proxyPort interceptedNetworks s :
  let name := getDockerTunnelContainerName proxyPort in
  let o := run (updateDockerTunnelledNetworks proxyPort interceptedNetworks) s in
  ∀ networks container,
    (step s (ListNetworks builtin_bridge_filter)).2 = Ok networks →
    locked_snapshot (events o) = Some container →
    ∃ pre rest,
      events o = pre ++ EvAcquire :: EvCall (ContainerInspect name) (Ok container)
                   :: rest ++ [EvRelease]
      ∧ connected (calls pre) = [] ∧ disconnected (calls pre) = []
      ∧ calls rest
        = reconcile_requests interceptedNetworks (defaultBridgeId_of networks) container
      ∧ (settled o = Ok tt ↔ failures rest = [])
      ∧ (∀ e, settled o = Throw e → ∃ c, (c, e) ∈ failures rest).
Proof.
  intros name o networks container Hlisted Hlocked.
  destruct (update_locked proxyPort interceptedNetworks s networks container
              Hlisted Hlocked)
    as (pre & rest & Hevents & Hcon & Hdis & Hrest & Hsettled & Hfailed).
  exists pre, rest. by split_and!; [..|apply events_of_calls| |].
Qed.

(** X16: [updateDockerTunnelledNetworks] does nothing to a tunnel that is
    already reconciled.  When the networks of the snapshot read under the
    mutex are exactly the intercepted ones and the default bridge, no
    connect and no disconnect request is sent, the inspect under the mutex
    is the last request, and the call succeeds. *)
Theorem update_is_idle_when_reconciled proxyPort interceptedNetworks s :
  let o := run (updateDockerTunnelledNetworks proxyPort interceptedNetworks) s in
  ∀ bridge others container,
    (step s (ListNetworks builtin_bridge_filter)).2 = Ok (bridge :: others) →
    locked_snapshot (events o) = Some container →
    list_to_set (currentNetworks container)
    =@{gset string} list_to_set interceptedNetworks ∪ {[net_Id bridge]} →
    connected (calls (events o)) = []
    ∧ disconnected (calls (events o)) = []
    ∧ last (calls (events o))
      = Some (ContainerInspect (getDockerTunnelContainerName proxyPort))
    ∧ settled o = Ok tt.
Proof.
  intros o bridge others container Hlisted Hlocked Hsame.
  destruct (update_locked proxyPort interceptedNetworks s _ container
              Hlisted Hlocked)
    as (pre & rest & Hevents & Hcon & Hdis & Hrest & Hsettled & _).
  change (defaultBridgeId_of (bridge :: others)) with (Some (net_Id bridge)) in Hrest.
  destruct (reconcile_requests_sets interceptedNetworks (net_Id bridge) container)
    as (missing & Hconnected & _ & Hmissing & Hextra & _).
  rewrite Hsame in Hmissing, Hextra.
  assert (missing = []) as ->.
  { apply list_to_set_empty_nil. rewrite Hmissing. set_solver. }
  assert (reconcile_requests interceptedNetworks (Some (net_Id bridge)) container = [])
    as Hnone.
  { apply reconcile_requests_nil; [done|].
    apply list_to_set_empty_nil. rewrite Hextra. set_solver. }
  rewrite Hnone in Hrest. inversion Hrest. subst rest.
  assert (settled o = Ok tt) as Hok by by apply Hsettled.
  subst o. rewrite Hok, Hevents. norm_trace. simpl.
  rewrite connected_app, disconnected_app, Hcon, Hdis.
  split_and!; [done..| |done].
  change (calls pre ++ [?c]) with (calls pre ++ [c]). by rewrite last_snoc.
Qed.


Local Transparent reconcile_requests.

(** The fan-out only connects and disconnects. *)
Lemma reconcile_requests_kinds interceptedNetworks bridge container :
  Forall (λ c, reads c = true ∨ is_connect c = true ∨ is_disconnect c = true)
         (reconcile_requests interceptedNetworks bridge container).
Proof.
  unfold reconcile_requests. apply Forall_app. split.
  - apply Forall_fmap, Forall_true. intros network. simpl. tauto.
  - apply Forall_fmap, Forall_true. intros network. simpl. tauto.
Qed.

Local Opaque reconcile_requests ensureDockerTunnelRunning.

(** X26: [updateDockerTunnelledNetworks] brings a missing tunnel up before
    it reconciles, and leaves a present one as it is.  When its first
    inspect of the tunnel container succeeds, every request of the call is
    a read, a connect or a disconnect: nothing is pulled, created or
    started.  When that inspect fails, [ensureDockerTunnelRunning] is run
    next, from the state the inspect left; and if it fails, nothing follows
    it and its error is the outcome of the call. *)
Theorem update_heals_before_reconciling proxyPort interceptedNetworks s :
  let name := getDockerTunnelContainerName proxyPort in
  let o := run (updateDockerTunnelledNetworks proxyPort interceptedNetworks) s in
  let listed := step s (ListNetworks builtin_bridge_filter) in
  let found := step listed.1 (ContainerInspect name) in
  (is_Ok found.2 = true →
     Forall (λ c, reads c = true ∨ is_connect c = true ∨ is_disconnect c = true)
            (calls (events o)))
  ∧ (∀ e, found.2 = Throw e →
       let healed := run (ensureDockerTunnelRunning proxyPort) found.1 in
       ∃ tail,
         events o
         = [EvCall (ListNetworks builtin_bridge_filter) listed.2;
            EvCall (ContainerInspect name) (Throw e)] ++ events healed ++ tail
         ∧ ∀ e', settled healed = Throw e' → tail = [] ∧ settled o = Throw e').
Proof.
  intros name o listed found. subst o listed found. rewrite run_update. cbv zeta.
  fold name. split.
  - destruct (step _ (ContainerInspect name)).2 as [container|e] eqn:Hfound; [|done].
    intros _. cbn [events].
    match goal with
    | |- context [run (runExclusive (reconcile _ _ ?bridge)) ?s'] =>
        destruct (run_reconcile proxyPort interceptedNetworks bridge s')
          as (rest & -> & Hrest)
    end.
    fold name in Hrest |- *. norm_trace. simpl.
    repeat (constructor; [by left|]).
    rewrite (right_id_L [] (++)).
    destruct (step (step (step s (ListNetworks builtin_bridge_filter)).1
                         (ContainerInspect name)).1 (ContainerInspect name)).2
      as [locked|e];
      destruct (step s (ListNetworks builtin_bridge_filter)).2 as [networks|e'].
    + destruct Hrest as [Hrest%events_of_calls _]. rewrite Hrest.
      apply reconcile_requests_kinds.
    + destruct Hrest as [-> _]. constructor.
    + destruct Hrest as [-> _]. constructor.
    + destruct Hrest as [-> _]. constructor.
  - intros e Hfound. rewrite Hfound. cbv zeta.
    destruct (settled (run (ensureDockerTunnelRunning proxyPort) _)) as [[]|e'] eqn:Hhealed;
      cbn [events settled].
    + eexists. split; [done|]. done.
    + exists []. rewrite (right_id_L [] (++)). split; [done|]. by intros ? [= <-].
Qed.

Local Transparent ensureDockerTunnelRunning.

(** *** The tunnel port *)

(** [getDockerTunnelPort], one await after the other. *)
Lemma run_getDockerTunnelPort proxyPort s :
  let name := getDockerTunnelContainerName proxyPort in
  let found := step s (ContainerInspect name) in
  run (getDockerTunnelPort proxyPort) s
  = match found.2 with
    | Ok container =>
        mkOutcome found.1 [EvCall (ContainerInspect name) found.2]
                  (mapped_port container) []
    | Throw _ =>
        let healed := run (ensureDockerTunnelRunning proxyPort) found.1 in
        match settled healed with
        | Ok _ =>
            let again := step (state healed) (ContainerInspect name) in
            mkOutcome again.1
              (EvCall (ContainerInspect name) found.2
                 :: events healed ++ [EvCall (ContainerInspect name) again.2])
              (match again.2 with
               | Ok container => mapped_port container
               | Throw e => Throw e
               end)
              (detached healed)
        | Throw e =>
            mkOutcome (state healed)
              (EvCall (ContainerInspect name) found.2 :: events healed)
              (Throw e) (detached healed)
        end
    end.
Proof.
  intros name found. subst found.
  unfold getDockerTunnelPort. fold name.
  generalize (ensureDockerTunnelRunning proxyPort). intros ensure. simpl.
  destruct (step s (ContainerInspect name)) as [s1 [container|e]]; simpl.
  - unfold after. by destruct (mapped_port container).
  - rewrite !run_bind. unfold and_then, after.
    destruct (run ensure s1) as [sE evE [[]|e'] dE]; simpl; [|done].
    destruct (step sE (ContainerInspect name)) as [s2 [container|e']]; simpl.
    + destruct (mapped_port container); simpl; by rewrite !(right_id_L [] (++)).
    + by rewrite !(right_id_L [] (++)).
Qed.

Lemma find_first {A} (test : A → bool) before x after :
  Forall (λ y, test y = false) before → test x = true →
  List.find test (before ++ x :: after) = Some x.
Proof.
  intros Hbefore Hx. induction Hbefore as [|y before Hy _ IH]; simpl.
  - by rewrite Hx.
  - by rewrite Hy.
Qed.

(** X18: which mapping [getDockerTunnelPort] reads.  When the tunnel
    container is found, the port returned is that of the first mapping of
    1080/tcp whose host address is 127.0.0.1, in the order the engine lists
    them: mappings on other addresses before it, and any mapping after it,
    are ignored.  When the snapshot has no entry for 1080/tcp at all, or an
    empty one, the call fails with the "No port mapped" error.  Either way
    the engine is only read. *)
Theorem getDockerTunnelPort_first_loopback_mapping proxyPort s :
  let name := getDockerTunnelContainerName proxyPort in
  let o := run (getDockerTunnelPort proxyPort) s in
  ∀ container,
    (step s (ContainerInspect name)).2 = Ok container →
    (∀ before localPort after,
       Ports container !! "1080/tcp" = Some (before ++ localPort :: after) →
       Forall (λ mapping, HostIp mapping ≠ "127.0.0.1") before →
       HostIp localPort = "127.0.0.1" →
       settled o = Ok (JsNumber.parseInt (HostPort localPort) 10))
    ∧ (Ports container !! "1080/tcp" = None ∨ Ports container !! "1080/tcp" = Some [] →
       settled o = Throw (new_Error "No port mapped for Docker tunnel"))
    ∧ state o = (step s (ContainerInspect name)).1.
Proof.
  intros name o container Hfound. subst o. rewrite run_getDockerTunnelPort.
  cbv zeta. fold name. rewrite Hfound. cbn [settled state]. split_and!; [| |done].
  - intros before localPort after Hports Hbefore Hlocal.
    unfold mapped_port, loopback_mapping. rewrite Hports. simpl.
    rewrite (find_first _ before localPort after); [done| |by apply bool_decide_eq_true].
    eapply Forall_impl; [exact Hbefore|]. intros mapping ?. by apply bool_decide_eq_false.
  - unfold mapped_port, loopback_mapping. by intros [->| ->].
Qed.

(** X19: [getDockerTunnelPort] does not check that the host port is a
    number.  When the tunnel container has a loopback mapping the call
    succeeds whatever the text of its host port; and what it returns is
    [NaN] exactly when that text, after its leading white space and an
    optional sign, is empty or starts with a character that is not a decimal
    digit. *)
Theorem getDockerTunnelPort_not_a_number proxyPort s :
  let name := getDockerTunnelContainerName proxyPort in
  let o := run (getDockerTunnelPort proxyPort) s in
  ∀ container localPort,
    (step s (ContainerInspect name)).2 = Ok container →
    loopback_mapping container = Some localPort →
    let digits :=
      JsNumber.without_sign (JsNumber.skip_white_space (HostPort localPort)) in
    (∃ port, settled o = Ok port)
    ∧ (settled o = Ok NaN
       ↔ digits = ""
         ∨ ∃ c rest, digits = String c rest
                     ∧ ∀ d, JsNumber.digit_value c = Some d → 10 <= d).
Proof.
  intros name o container localPort Hfound Hlocal digits. subst o digits.
  rewrite run_getDockerTunnelPort. cbv zeta. fold name. rewrite Hfound.
  cbn [settled]. unfold mapped_port. rewrite Hlocal.
  split; [by eexists|].
  rewrite <- JsNumberFacts.parse_digits_None, <- JsNumberFacts.parseInt_NaN.
  split; [by intros [= ->]|by intros ->].
Qed.

(** X20: after [ensureDockerTunnelRunning] succeeded on an engine that
    behaves, [getDockerTunnelPort] finds the container at once: it sends the
    one inspect request, recreates nothing, and either returns a port or
    fails with the "No port mapped" error, never with an error of the
    engine. *)
Theorem getDockerTunnelPort_after_ensure (Hlaws : WellBehaved) proxyPort s :
  let name := getDockerTunnelContainerName proxyPort in
  let ensured := run (ensureDockerTunnelRunning proxyPort) s in
  let o := run (getDockerTunnelPort proxyPort) (state ensured) in
  settled ensured = Ok tt →
  calls (events o) = [ContainerInspect name]
  ∧ ((∃ port, settled o = Ok port)
     ∨ settled o = Throw (new_Error "No port mapped for Docker tunnel")).
Proof.
  intros name ensured o Hsettled.
  assert (tunnel_running name (state ensured)) as (container & Hfound & _).
  { subst ensured. rewrite ensure_run in Hsettled |- *. cbv zeta in Hsettled |- *.
    destruct (settled (run ensure_image s)) as [[]|e]; [|done].
    cbn [settled state] in Hsettled |- *.
    by apply (ensure_container_run proxyPort (state (run ensure_image s))). }
  subst o. rewrite run_getDockerTunnelPort. cbv zeta. fold name. rewrite Hfound.
  cbn [events settled]. split; [done|].
  unfold mapped_port. destruct (loopback_mapping container); eauto.
Qed.

(** *** Teardown *)

(** The task that kills and removes one container: it begins with the kill
    request and, when that is answered, sends the remove request and ends
    well whatever the two requests answer. *)
Lemma teardown_task (id : string) :
  ∃ k,
    settle (call (ContainerKill id)) (λ _,
      settle (call (ContainerRemove id)) (λ _, Ret tt))
    = Call (ContainerKill id) k
    ∧ ∀ r, implements (advance (k r)) [ContainerRemove id] (Ok tt).
Proof.
  eexists. split; [done|].
  intros r waiting. eexists. split; [by destruct r|].
  intros r'. eexists. split; [done|]. intros waiting'. by destruct r'.
Qed.

Lemma run_call (c : Cmd) s :
  run (call c) s = mkOutcome (step s c).1 [EvCall c (step s c).2] (step s c).2 [].
Proof. simpl. unfold after. by destruct (step s c) as [s' [v|e]]. Qed.

Lemma mjoin_singletons {A B} (f : A → B) (l : list A) :
  mjoin ((λ x, [f x]) <$> l) = f <$> l.
Proof. induction l as [|x l IH]; [done|]. simpl. f_equal. apply IH. Qed.

(** The teardown block, when the containers can be listed. *)
Lemma run_stop_tunnels selector s containers :
  (step s (ListContainers true (label_filter selector))).2 = Ok containers →
  let o := run (stop_tunnels selector) s in
  settled o = Ok tt
  ∧ detached o = []
  ∧ ∃ removes body,
      removes ≡ₚ (λ containerData, ContainerRemove (info_Id containerData)) <$> containers
      ∧ events o
        = EvAcquire :: EvCall (ListContainers true (label_filter selector)) (Ok containers)
            :: body ++ [EvRelease]
      ∧ events_of body
          (((λ containerData, ContainerKill (info_Id containerData)) <$> containers)
           ++ removes).
Proof.
  intros Hlisted o. subst o. unfold stop_tunnels. rewrite run_runExclusive.
  rewrite run_bind.
  pose proof (run_call (ListContainers true (label_filter selector)) s) as Hcall.
  cbn [resp] in Hcall, Hlisted. rewrite Hcall. clear Hcall.
  unfold and_then. cbn [state events settled detached].
  rewrite Hlisted.
  match goal with
  | |- context [run (Promise_all (?task <$> containers)) ?s'] =>
      destruct (run_Promise_all_lenient task
                  (λ containerData, ContainerKill (info_Id containerData))
                  (λ containerData, [ContainerRemove (info_Id containerData)])
                  (λ containerData, teardown_task (info_Id containerData))
                  containers s')
        as (removes & Hremoves & Hevents & _ & Hsettled & Hdetached)
  end.
  rewrite mjoin_singletons in Hremoves.
  rewrite Hsettled, Hevents, Hdetached. cbn [run state events settled detached].
  rewrite !(right_id_L [] (++)).
  split_and!; [done..|]. exists removes. eexists. split; [done|]. split; [done|].
  apply answers_events_of.
Qed.

(** ... and when they cannot. *)
Lemma run_stop_tunnels_refused selector s e :
  (step s (ListContainers true (label_filter selector))).2 = Throw e →
  events (run (stop_tunnels selector) s)
  = [EvAcquire; EvCall (ListContainers true (label_filter selector)) (Throw e); EvRelease].
Proof.
  intros Hlisted. unfold stop_tunnels. rewrite run_runExclusive. simpl.
  destruct (step s (ListContainers true (label_filter selector))) as [s1 r].
  simpl in Hlisted. by subst r.
Qed.

(** X21: the teardown block of [stopDockerTunnel] kills and removes every
    listed container and cannot fail on them.  When listing the tunnel
    containers succeeds, the block sends, under the mutex, a kill request
    for every container of the listing, in its order, and then a remove
    request for each of them as the kills are answered (so every container
    is removed after it was killed; the order among the removes is the one
    in which the answers come in).  All of this is sent also when a kill or
    a remove fails, and the block succeeds whatever these requests answer. *)
Theorem stop_tunnels_kills_then_removes selector s :
  let o := run (stop_tunnels selector) s in
  ∀ containers,
    (step s (ListContainers true (label_filter selector))).2 = Ok containers →
    settled o = Ok tt
    ∧ (∃ removes,
         removes ≡ₚ (λ containerData, ContainerRemove (info_Id containerData))
                      <$> containers
         ∧ calls (events o)
           = ListContainers true (label_filter selector)
               :: ((λ containerData, ContainerKill (info_Id containerData))
                     <$> containers)
               ++ removes)
    ∧ head (events o) = Some EvAcquire
    ∧ last (events o) = Some EvRelease.
Proof.
  intros o containers Hlisted.
  destruct (run_stop_tunnels selector s containers Hlisted)
    as (Hsettled & _ & removes & body & Hremoves & Hevents & Hbody).
  subst o. rewrite Hsettled, Hevents. split_and!; [done| |done|].
  - exists removes. split; [done|]. norm_trace. simpl.
    by rewrite (events_of_calls _ _ Hbody), (right_id_L [] (++)).
  - change (EvAcquire :: ?ev :: body ++ [EvRelease])
      with ([EvAcquire; ev] ++ body ++ [EvRelease]).
    by rewrite !(assoc_L (++)), last_snoc.
Qed.

(** *** Preparation *)

(** X22: [prepareDockerTunnel] pulls the tunnel image and nothing else, and
    a failed pull is not a failure.  If the availability check fails, so
    does the call, with the same error; if the check says no, the call
    succeeds without a request of its own and without taking the mutex; if
    it says yes, the call takes the mutex, sends the one pull request,
    releases the mutex and succeeds, whether the pull succeeded or not. *)
Theorem prepareDockerTunnel_only_pulls (isDockerAvailable : Prog bool) s :
  let check := run isDockerAvailable s in
  let o := run (prepareDockerTunnel isDockerAvailable) s in
  detached o = detached check
  ∧ match settled check with
    | Throw e => settled o = Throw e ∧ events o = events check ∧ state o = state check
    | Ok false => settled o = Ok tt ∧ events o = events check ∧ state o = state check
    | Ok true =>
        let pulled := step (state check) (Pull DOCKER_TUNNEL_IMAGE) in
        settled o = Ok tt
        ∧ events o
          = events check ++ [EvAcquire; EvCall (Pull DOCKER_TUNNEL_IMAGE) pulled.2; EvRelease]
        ∧ state o = pulled.1
    end.
Proof.
  intros check o. subst check o. unfold prepareDockerTunnel.
  rewrite run_bind. unfold and_then.
  destruct (run isDockerAvailable s) as [s1 evs [[]|e] ds];
    cbn [state events settled detached negb].
  - rewrite run_runExclusive. simpl.
    destruct (step s1 (Pull DOCKER_TUNNEL_IMAGE)) as [s2 [[]|e]]; simpl;
      by rewrite (right_id_L [] (++)).
  - simpl. by rewrite !(right_id_L [] (++)).
  - done.
Qed.

(** X23: a pull that went through during preparation is not repeated.  On
    an engine that behaves, when the availability check said yes and the
    pull of [prepareDockerTunnel] succeeded, a following
    [ensureDockerTunnelRunning] starts by inspecting the image and sends no
    pull request. *)
Theorem ensure_after_prepare_does_not_pull (Hlaws : WellBehaved)
    (isDockerAvailable : Prog bool) proxyPort s :
  let check := run isDockerAvailable s in
  let prepared := run (prepareDockerTunnel isDockerAvailable) s in
  let o := run (ensureDockerTunnelRunning proxyPort) (state prepared) in
  settled check = Ok true →
  is_Ok (step (state check) (Pull DOCKER_TUNNEL_IMAGE)).2 = true →
  (Pull DOCKER_TUNNEL_IMAGE ∉ calls (events o))
  ∧ head (calls (events o)) = Some (ImageInspect DOCKER_TUNNEL_IMAGE).
Proof.
  intros check prepared o Havailable Hpulled.
  assert (image_present (state prepared)) as Hpresent.
  { subst prepared. unfold prepareDockerTunnel. rewrite run_bind. unfold and_then.
    fold check. rewrite Havailable. cbn [negb]. rewrite run_runExclusive.
    cbn [state]. simpl. unfold image_present.
    pose proof (pull_installs Hlaws (state check) DOCKER_TUNNEL_IMAGE Hpulled) as Hin.
    destruct (step (state check) (Pull DOCKER_TUNNEL_IMAGE)) as [s2 [[]|e]]; done. }
  subst o. generalize dependent (state prepared). intros s' Hpresent.
  unfold image_present in Hpresent.
  pattern (run (ensureDockerTunnelRunning proxyPort) s').
  match goal with |- ?P _ => set (Q := P) end.
  ensure_cases.
  all: subst Q; cbv beta; simpl; norm_trace; simpl.
  all: repeat match goal with
              | E : step ?s0 (ImageInspect ?image) = _,
                Hp : context [step ?s0 (ImageInspect ?image)] |- _ =>
                  rewrite E in Hp
              end.
  all: try discriminate Hpresent.
  all: split; [|done].
  all: intros Hin; split_members.
Qed.

(** *** The mutex *)

Lemma guarded_from_app held evs evs' :
  guarded_from held evs = true →
  guarded_from held (evs ++ evs') = guarded_from false evs'.
Proof.
  revert held. induction evs as [|[c r| |] evs IH]; intros held; simpl.
  - by destruct held.
  - intros [-> Hevs]%andb_prop. by rewrite IH.
  - intros [-> Hevs]%andb_prop. by rewrite IH.
  - intros [-> Hevs]%andb_prop. by rewrite IH.
Qed.

(** Requests sent while the mutex is held, then its release. *)
Lemma guarded_locked evs cmds :
  events_of evs cmds → guarded_from true (evs ++ [EvRelease]) = true.
Proof. induction 1 as [|ev c evs cmds [r ->] _ IH]; [done|]. simpl. exact IH. Qed.

Lemma guarded_ensure proxyPort s :
  guarded (events (run (ensureDockerTunnelRunning proxyPort) s)) = true.
Proof.
  rewrite ensure_run. cbv zeta.
  destruct (ensure_image_run s) as (_ & Himage & _).
  destruct (ensure_container_run proxyPort (state (run ensure_image s)))
    as (Hcontainer & _).
  destruct (settled (run ensure_image s)) as [[]|e]; cbn [events]; unfold guarded;
    cbn [guarded_from negb andb orb reads app].
  - eapply guarded_locked, Forall2_app; [exact Himage|exact Hcontainer].
  - eapply guarded_locked, Himage.
Qed.

Lemma guarded_reconcile proxyPort interceptedNetworks defaultBridgeId s :
  guarded (events (run (runExclusive
             (reconcile proxyPort interceptedNetworks defaultBridgeId)) s)) = true.
Proof.
  destruct (run_reconcile proxyPort interceptedNetworks defaultBridgeId s)
    as (rest & -> & Hrest).
  unfold guarded. cbn [guarded_from negb andb orb reads app].
  destruct (step s (ContainerInspect _)).2 as [container|e].
  - destruct defaultBridgeId as [bridge|e].
    + destruct Hrest as [Hrest _]. by eapply guarded_locked.
    + by destruct Hrest as [-> _].
  - by destruct Hrest as [-> _].
Qed.

(** X24: the tunnel manager keeps to the discipline of its mutex.  In every
    run of [ensureDockerTunnelRunning], [updateDockerTunnelledNetworks],
    [getDockerTunnelPort] and of the teardown block of [stopDockerTunnel],
    whatever the engine answers: the mutex is never taken while held (it is
    not reentrant), it is released after every acquisition, also when the
    block under it fails, and every request that is not a mere read (pull,
    create, start, kill, remove, connect, disconnect) is sent while the
    mutex is held.  The same holds for [prepareDockerTunnel] when it holds
    for the availability check. *)
Theorem tunnel_requests_are_guarded proxyPort interceptedNetworks selector s :
  guarded (events (run (ensureDockerTunnelRunning proxyPort) s)) = true
  ∧ guarded (events (run (updateDockerTunnelledNetworks proxyPort interceptedNetworks) s))
    = true
  ∧ guarded (events (run (getDockerTunnelPort proxyPort) s)) = true
  ∧ guarded (events (run (stop_tunnels selector) s)) = true
  ∧ (∀ isDockerAvailable : Prog bool,
       guarded (events (run isDockerAvailable s)) = true →
       guarded (events (run (prepareDockerTunnel isDockerAvailable) s)) = true).
Proof.
  split_and!.
  - apply guarded_ensure.
  - rewrite run_update. cbv zeta.
    destruct (step _ (ContainerInspect _)).2 as [found|e]; cbn [events].
    + unfold guarded. cbn [guarded_from negb andb orb reads app].
      apply guarded_reconcile.
    + pose proof (guarded_ensure proxyPort
                    (step (step s (ListNetworks builtin_bridge_filter)).1
                          (ContainerInspect (getDockerTunnelContainerName proxyPort))).1)
        as Hensure.
      destruct (settled (run (ensureDockerTunnelRunning proxyPort) _)) as [[]|e'];
        cbn [events]; unfold guarded; cbn [guarded_from negb andb orb reads app].
      * unfold guarded in Hensure. rewrite (guarded_from_app _ _ _ Hensure).
        apply guarded_reconcile.
      * exact Hensure.
  - rewrite run_getDockerTunnelPort. cbv zeta.
    destruct (step s (ContainerInspect _)).2 as [found|e]; cbn [events]; [done|].
    pose proof (guarded_ensure proxyPort
                  (step s (ContainerInspect (getDockerTunnelContainerName proxyPort))).1)
      as Hensure.
    destruct (settled (run (ensureDockerTunnelRunning proxyPort) _)) as [[]|e'];
      cbn [events]; unfold guarded; cbn [guarded_from negb andb orb reads app].
    + unfold guarded in Hensure. by rewrite (guarded_from_app _ _ _ Hensure).
    + exact Hensure.
  - destruct (step s (ListContainers true (label_filter selector))).2
      as [containers|e] eqn:Hlisted.
    + destruct (run_stop_tunnels selector s containers Hlisted)
        as (_ & _ & removes & body & _ & -> & Hbody).
      unfold guarded. cbn [guarded_from negb andb orb reads app].
      by eapply guarded_locked.
    + by rewrite (run_stop_tunnels_refused selector s e Hlisted).
  - intros isDockerAvailable Hcheck. unfold prepareDockerTunnel.
    rewrite run_bind. unfold and_then.
    destruct (run isDockerAvailable s) as [s1 evs [[]|e] ds];
      cbn [state events settled detached negb] in *.
    + rewrite run_runExclusive. cbn [events]. unfold guarded in *.
      rewrite (guarded_from_app _ _ _ Hcheck). simpl.
      by destruct (step s1 (Pull DOCKER_TUNNEL_IMAGE)) as [s2 [[]|e]].
    + simpl. by rewrite (right_id_L [] (++)).
    + done.
Qed.

Local Transparent getDockerTunnelContainerName tunnel_options.

(** X25: the tunnels of different proxy ports do not meet.  Different ports
    give different container names, different label values on the
    containers created, and different label filters for the teardown; and
    the filter of one port is never the filter for all ports. *)
Theorem tunnels_of_different_ports_are_apart (proxyPort proxyPort' : Z) :
  (getDockerTunnelContainerName proxyPort = getDockerTunnelContainerName proxyPort'
   → proxyPort = proxyPort')
  ∧ (label_filter (Port proxyPort) = label_filter (Port proxyPort')
     → proxyPort = proxyPort')
  ∧ label_filter (Port proxyPort) ≠ label_filter AllPorts
  ∧ (∀ version gateway version' gateway',
       Labels (create_Config (tunnel_options proxyPort version gateway))
       = Labels (create_Config (tunnel_options proxyPort' version' gateway'))
       → proxyPort = proxyPort').
Proof.
  split_and!.
  - unfold getDockerTunnelContainerName. intros E%(inj _). by apply (inj pretty).
  - unfold label_filter. intros [= E]. apply (inj _) in E. by apply (inj pretty).
  - unfold label_filter. intros E.
    apply (f_equal (λ filters : Filters,
                      match filters with
                      | [(_, [label])] => String.length label
                      | _ => 0%nat
                      end)) in E.
    rewrite JsStringFacts.length_app in E. simpl in E. lia.
  - intros version gateway version' gateway'. simpl. intros [= E]. by apply (inj pretty).
Qed.

End WithContext.


Lemma tunnel_container_is_bound_to_loopback_witness :
  let o := run (ensureDockerTunnelRunning 8000) Reference.fresh in
  let options := tunnel_options 8000 "20.10.7" (Some "172.17.0.1") in
  calls (events o) !! 5%nat = Some (CreateContainer options)
  ∧ create_name options = "httptoolkit-docker-tunnel-8000"
  ∧ PortBindings (create_HostConfig options)
    = [("1080/tcp", [ {| req_HostIp := "127.0.0.1"; req_HostPort := None |} ])].
Proof.
  intros o options.
  assert (calls (events o) !! 5%nat = Some (CreateContainer options)) as Hsent
    by reflexivity.
  split; [exact Hsent|].
  destruct (@tunnel_container_is_bound_to_loopback Reference.engine Reference.externals
              8000 Reference.fresh options (list_elem_of_lookup_2 _ _ _ Hsent))
    as (Hname & _ & _ & _ & Hports & _).
  split; [exact Hname|exact Hports].
Defined.

Lemma tunnel_host_address_witness :
  let old := {| Reference.images := []; Reference.containers := [];
                Reference.bridges := [Reference.bridge];
                Reference.engineVersion := "19.03.0"; Reference.created := 0 |} in
  let o := run (ensureDockerTunnelRunning 8000) old in
  let options := tunnel_options 8000 "19.03.0" (Some "172.17.0.1") in
  calls (events o) !! 5%nat = Some (CreateContainer options)
  ∧ ExtraHosts (create_HostConfig options) = Some ["host.docker.internal:172.17.0.1"].
Proof.
  intros old o options.
  assert (calls (events o) !! 5%nat = Some (CreateContainer options)) as Hsent
    by reflexivity.
  split; [exact Hsent|].
  exact (@tunnel_host_address Reference.engine Reference.externals 8000 old
           "19.03.0" [Reference.bridge] options
           (list_elem_of_lookup_2 (versions (events o)) 0 _ eq_refl)
           (list_elem_of_lookup_2 (listings (events o)) 0 _ eq_refl)
           (list_elem_of_lookup_2 _ _ _ Hsent) eq_refl).
Defined.

Lemma ensure_fails_on_empty_ipam_config_witness :
  let bare := {| net_Id := "bridge0"; Gateways := Some [] |} in
  let world := {| Reference.images := []; Reference.containers := [];
                  Reference.bridges := [bare];
                  Reference.engineVersion := "19.03.0"; Reference.created := 0 |} in
  let o := run (ensureDockerTunnelRunning 8000) world in
  (∃ e, settled o = Throw e)
  ∧ last (calls (events o)) = Some (ListNetworks builtin_bridge_filter)
  ∧ Reference.containers (state o) = [].
Proof.
  intros bare world o.
  destruct (@ensure_fails_on_empty_ipam_config Reference.engine Reference.externals
              8000 world bare []
              (list_elem_of_lookup_2 (listings (events o)) 0 _ eq_refl) eq_refl)
    as (Hfails & Hlast & _).
  split_and!; [exact Hfails|exact Hlast|reflexivity].
Defined.

Lemma update_sends_every_request_witness :
  let tunnel := Reference.tunnel ["A"; "B"] [] in
  let o := run (updateDockerTunnelledNetworks 8000 ["B"; "C"]) (Reference.hosting tunnel) in
  ∃ rest,
    calls rest
    = [ NetworkConnect (Some "C") "tunnel" None;
        NetworkConnect (Some "bridge0") "tunnel" None;
        NetworkDisconnect "A" "tunnel" ]
    ∧ (settled o = Ok tt ↔ failures rest = []).
Proof.
  intros tunnel o.
  destruct (@update_sends_every_request Reference.engine Reference.externals
              8000 ["B"; "C"] (Reference.hosting tunnel) [Reference.bridge] tunnel
              eq_refl eq_refl)
    as (pre & rest & _ & _ & _ & Hcalls & Hiff & _).
  exists rest. split; [|exact Hiff].
  etransitivity; [exact Hcalls|]. reflexivity.
Defined.

Lemma update_is_idle_when_reconciled_witness :
  let tunnel := Reference.tunnel ["bridge0"; "B"] [] in
  let o := run (updateDockerTunnelledNetworks 8000 ["B"; "B"]) (Reference.hosting tunnel) in
  connected (calls (events o)) = []
  ∧ disconnected (calls (events o)) = []
  ∧ settled o = Ok tt.
Proof.
  intros tunnel o.
  destruct (@update_is_idle_when_reconciled Reference.engine Reference.externals
              8000 ["B"; "B"] (Reference.hosting tunnel) Reference.bridge [] tunnel
              eq_refl eq_refl)
    as (Hcon & Hdis & _ & Hsettled).
  - apply (bool_decide_unpack _). by vm_compute.
  - split_and!; [exact Hcon|exact Hdis|exact Hsettled].
Defined.


Lemma getDockerTunnelPort_first_loopback_mapping_witness :
  let tunnel := Reference.tunnel ["bridge0"]
                  [ {| HostIp := "0.0.0.0"; HostPort := "8080" |};
                    {| HostIp := "127.0.0.1"; HostPort := "49153" |};
                    {| HostIp := "127.0.0.1"; HostPort := "50000" |} ] in
  settled (run (getDockerTunnelPort 8000) (Reference.hosting tunnel)) = Ok (Int 49153).
Proof.
  intros tunnel.
  destruct (@getDockerTunnelPort_first_loopback_mapping Reference.engine
              Reference.externals 8000 (Reference.hosting tunnel) tunnel eq_refl)
    as (Hfirst & _).
  etransitivity.
  - apply (Hfirst [ {| HostIp := "0.0.0.0"; HostPort := "8080" |} ]
                  {| HostIp := "127.0.0.1"; HostPort := "49153" |}
                  [ {| HostIp := "127.0.0.1"; HostPort := "50000" |} ]).
    + reflexivity.
    + repeat constructor. by vm_compute.
    + reflexivity.
  - reflexivity.
Defined.

Lemma getDockerTunnelPort_not_a_number_witness :
  let unset := {| HostIp := "127.0.0.1"; HostPort := " -auto" |} in
  let tunnel := Reference.tunnel ["bridge0"] [unset] in
  settled (run (getDockerTunnelPort 8000) (Reference.hosting tunnel)) = Ok NaN.
Proof.
  intros unset tunnel.
  apply (@getDockerTunnelPort_not_a_number Reference.engine Reference.externals
           8000 (Reference.hosting tunnel) tunnel unset eq_refl eq_refl).
  right. exists "a"%char, "uto". split; [reflexivity|].
  intros d [= <-]. reflexivity.
Defined.

Lemma getDockerTunnelPort_after_ensure_witness :
  let ensured := run (ensureDockerTunnelRunning 8000) Reference.fresh in
  let o := run (getDockerTunnelPort 8000) (state ensured) in
  calls (events o) = [ContainerInspect (getDockerTunnelContainerName 8000)]
  ∧ settled o = Ok (Int 49153).
Proof.
  intros ensured o.
  destruct (@getDockerTunnelPort_after_ensure Reference.engine Reference.externals
              reference_well_behaved 8000 Reference.fresh eq_refl) as [Hcalls _].
  split; [exact Hcalls|reflexivity].
Defined.

Lemma stop_tunnels_kills_then_removes_witness :
  let o := run (stop_tunnels AllPorts) Reference.two_tunnels in
  settled o = Ok tt
  ∧ calls (events o)
    = [ ListContainers true (label_filter AllPorts);
        ContainerKill "tunnel"; ContainerKill "tunnel-9000";
        ContainerRemove "tunnel"; ContainerRemove "tunnel-9000" ]
  ∧ Reference.containers (state o) = [].
Proof.
  intros o.
  destruct (@stop_tunnels_kills_then_removes Reference.engine
              AllPorts Reference.two_tunnels
              [ {| info_Id := "tunnel" |}; {| info_Id := "tunnel-9000" |} ] eq_refl)
    as (Hsettled & _).
  split_and!; [exact Hsettled|reflexivity|reflexivity].
Defined.

Lemma ensure_after_prepare_does_not_pull_witness :
  let prepared := run (prepareDockerTunnel (Ret true)) Reference.fresh in
  let o := run (ensureDockerTunnelRunning 8000) (state prepared) in
  (Pull DOCKER_TUNNEL_IMAGE ∉ calls (events o))
  ∧ head (calls (events o)) = Some (ImageInspect DOCKER_TUNNEL_IMAGE).
Proof.
  exact (@ensure_after_prepare_does_not_pull Reference.engine Reference.externals
           reference_well_behaved (Ret true) 8000 Reference.fresh eq_refl eq_refl).
Defined.

End TunnelTraces.
